(** * Workflow engine: scheduler, execution queue, validation and resilience

  A shallow embedding of the parts of the social-cat (b0t) code base
  that the engine specification talks about:

  - [Scheduling]: the [Scheduler] class built on node-cron
    (register / start / stop / unregister / startJob / stopJob /
    registerOrUpdate), src/unnamed/part_000;
  - [WorkflowQueue]: the workflow execution queue
    (initializeWorkflowQueue, queueWorkflowExecution,
    getWorkflowQueueStats), src/unnamed/part_002;
  - [Validate]: the variable-reference pass of scripts/validate-workflow.ts;
  - [OpenAI]: the protected and unprotected entry points of
    src/modules/ai/openai.ts.

  JavaScript [Map]s and [Set]s keyed by strings are stdpp [gmap]s and
  [gset]s; objects whose key order is observable (step inputs, which
  are serialised by JSON.stringify) are association lists. *)

From Stdlib Require Import ZArith QArith Lia Ascii String List Bool.
From stdpp Require Import gmap strings list fin_maps pretty.

Local Open Scope string_scope.
Set Warnings "-register-all,-clear-no-such-hyp".

(** ** The scheduler (src/unnamed/part_000, the class [Scheduler]) *)

Module Scheduling.

Section WithCron.

(** The job body, [task: () => void | Promise<void>]. *)
Variable Task : Type.

(** node-cron's [cron.validate]. *)
Variable cron_validate : string -> bool.

(** Points of the node-cron clock, and whether an expression selects
    a given point. *)
Variable Instant : Type.
Variable cron_matches : string -> Instant -> bool.

(** [interface ScheduledJob]; [enabled?: boolean] may be absent. *)
Record ScheduledJob := {
  name : string;
  schedule : string;
  task : Task;
  enabled : option bool;
}.

(** node-cron's [ScheduledTask] object: the expression it was scheduled
    with, the callback (the closure built in [register], which captures
    the job), and whether the task is currently started. *)
Record ScheduledTask := {
  pattern : string;
  callback : ScheduledJob;
  running : bool;
}.

(** [cron.schedule(expr, fn)]: the task starts as soon as it is created. *)
Definition cron_schedule (expr : string) (job : ScheduledJob) : ScheduledTask :=
  {| pattern := expr; callback := job; running := true |}.

Definition task_start (t : ScheduledTask) : ScheduledTask :=
  {| pattern := pattern t; callback := callback t; running := true |}.

Definition task_stop (t : ScheduledTask) : ScheduledTask :=
  {| pattern := pattern t; callback := callback t; running := false |}.

(** [class Scheduler]: [jobs: Map<string, ScheduledTask>] and
    [isInitialized]. *)
Record Scheduler := {
  jobs : gmap string ScheduledTask;
  isInitialized : bool;
}.

(** [new Scheduler()]. *)
Definition empty : Scheduler := {| jobs := ∅; isInitialized := false |}.

Definition with_jobs (s : Scheduler) (m : gmap string ScheduledTask) : Scheduler :=
  {| jobs := m; isInitialized := isInitialized s |}.

(** [job.enabled === false]. *)
Definition disabled (job : ScheduledJob) : bool :=
  match enabled job with
  | Some false => true
  | _ => false
  end.

(** [register(job)]: three early returns (duplicate name, disabled job,
    invalid expression); otherwise the task is scheduled, stopped at
    once and stored. The console output is not part of the state. *)
Definition register (s : Scheduler) (job : ScheduledJob) : Scheduler :=
  match jobs s !! name job with
  | Some _ => s
  | None =>
      if disabled job then s
      else if negb (cron_validate (schedule job)) then s
      else
        let scheduledTask := cron_schedule (schedule job) job in
        let scheduledTask := task_stop scheduledTask in
        with_jobs s (<[name job := scheduledTask]> (jobs s))
  end.

(** [start()]. *)
Definition start (s : Scheduler) : Scheduler :=
  if isInitialized s then s
  else {| jobs := task_start <$> jobs s; isInitialized := true |}.

(** [stop()]. *)
Definition stop (s : Scheduler) : Scheduler :=
  {| jobs := task_stop <$> jobs s; isInitialized := false |}.

(** [unregister(jobName)]: the task is stopped and dropped. *)
Definition unregister (s : Scheduler) (jobName : string) : Scheduler :=
  match jobs s !! jobName with
  | None => s
  | Some _ => with_jobs s (delete jobName (jobs s))
  end.

(** [startJob(jobName)], with its boolean result. *)
Definition startJob (s : Scheduler) (jobName : string) : Scheduler * bool :=
  match jobs s !! jobName with
  | None => (s, false)
  | Some t => (with_jobs s (<[jobName := task_start t]> (jobs s)), true)
  end.

(** [stopJob(jobName)], with its boolean result. *)
Definition stopJob (s : Scheduler) (jobName : string) : Scheduler * bool :=
  match jobs s !! jobName with
  | None => (s, false)
  | Some t => (with_jobs s (<[jobName := task_stop t]> (jobs s)), true)
  end.

(** [registerOrUpdate(job)]. *)
Definition registerOrUpdate (s : Scheduler) (job : ScheduledJob) : Scheduler :=
  let s1 :=
    match jobs s !! name job with
    | Some _ => unregister s (name job)
    | None => s
    end in
  let s2 := register s1 job in
  if negb (disabled job) then
    let s3 := fst (startJob s2 (name job)) in
    if negb (isInitialized s3)
    then {| jobs := jobs s3; isInitialized := true |}
    else s3
  else s2.

(** [hasJob(jobName)] and [isRunning()]. *)
Definition hasJob (s : Scheduler) (jobName : string) : bool :=
  bool_decide (is_Some (jobs s !! jobName)).

Definition isRunning (s : Scheduler) : bool := isInitialized s.

(** A registered task is live when node-cron has it started; a live
    task runs its callback at every clock point its expression selects. *)
Definition live (s : Scheduler) (jobName : string) : bool :=
  match jobs s !! jobName with
  | Some t => running t
  | None => false
  end.

Definition fires (s : Scheduler) (jobName : string) (now : Instant) : bool :=
  match jobs s !! jobName with
  | Some t => running t && cron_matches (pattern t) now
  | None => false
  end.

(** The public methods that change a scheduler, as data. *)
Inductive Call :=
| CallRegister (job : ScheduledJob)
| CallStart
| CallStop
| CallUnregister (jobName : string)
| CallStartJob (jobName : string)
| CallStopJob (jobName : string)
| CallRegisterOrUpdate (job : ScheduledJob).

Definition perform (s : Scheduler) (c : Call) : Scheduler :=
  match c with
  | CallRegister job => register s job
  | CallStart => start s
  | CallStop => stop s
  | CallUnregister n => unregister s n
  | CallStartJob n => fst (startJob s n)
  | CallStopJob n => fst (stopJob s n)
  | CallRegisterOrUpdate job => registerOrUpdate s job
  end.

(** The three methods that start tasks. *)
Definition starting (c : Call) : bool :=
  match c with
  | CallStart | CallStartJob _ | CallRegisterOrUpdate _ => true
  | _ => false
  end.

End WithCron.

Arguments name {Task} _.
Arguments schedule {Task} _.
Arguments task {Task} _.
Arguments enabled {Task} _.
Arguments pattern {Task} _.
Arguments callback {Task} _.
Arguments running {Task} _.
Arguments jobs {Task} _.
Arguments isInitialized {Task} _.
Arguments empty {Task}.
Arguments cron_schedule {Task} _ _.
Arguments task_start {Task} _.
Arguments task_stop {Task} _.
Arguments with_jobs {Task} _ _.
Arguments disabled {Task} _.
Arguments register {Task} _ _ _.
Arguments start {Task} _.
Arguments stop {Task} _.
Arguments unregister {Task} _ _.
Arguments startJob {Task} _ _.
Arguments stopJob {Task} _ _.
Arguments registerOrUpdate {Task} _ _ _.
Arguments hasJob {Task} _ _.
Arguments isRunning {Task} _.
Arguments live {Task} _ _.
Arguments fires {Task Instant} _ _ _ _.
Arguments perform {Task} _ _ _.
Arguments starting {Task} _.
Arguments CallRegister {Task} _.
Arguments CallStart {Task}.
Arguments CallStop {Task}.
Arguments CallUnregister {Task} _.
Arguments CallStartJob {Task} _.
Arguments CallStopJob {Task} _.
Arguments CallRegisterOrUpdate {Task} _.

(** A stand-in for node-cron's validator, used on concrete inputs: it
  accepts exactly the expressions that have five or six space-separated
  fields (node-cron's optional seconds field makes six). *)
Fixpoint fields_from (cur : bool) (s : string) : nat :=
match s with
| EmptyString => if cur then 1 else 0
| String c rest =>
    if Ascii.eqb c " "%char
    then (if cur then 1 else 0) + fields_from false rest
    else fields_from true rest
end.

Definition field_count (s : string) : nat := fields_from false s.

Definition five_or_six_fields (s : string) : bool :=
(field_count s =? 5)%nat || (field_count s =? 6)%nat.

(** Concrete data for the examples: tasks are named by the function they
    run, and the node-cron clock is a count of minutes. *)
Definition tweet_job : ScheduledJob string :=
  {| name := "ai-tweet-generation"; schedule := "0 10 * * *";
     task := "generateAndPostTweet"; enabled := Some true |}.

Definition reply_job : ScheduledJob string :=
  {| name := "reply-to-tweets"; schedule := "0 */2 * * *";
     task := "replyToTweetsJob"; enabled := None |}.

(** The same job name with an expression of three fields. *)
Definition reply_job_three_fields : ScheduledJob string :=
  {| name := "reply-to-tweets"; schedule := "* * *";
     task := "replyToTweetsJob"; enabled := None |}.

(** An update of the tweet job that is switched off. *)
Definition tweet_job_disabled : ScheduledJob string :=
  {| name := "ai-tweet-generation"; schedule := "0 9 * * *";
     task := "generateAndPostTweet"; enabled := Some false |}.

(** An update of the tweet job with an expression of three fields. *)
Definition tweet_job_three_fields : ScheduledJob string :=
  {| name := "ai-tweet-generation"; schedule := "* * *";
     task := "generateAndPostTweet"; enabled := Some true |}.

(** A scheduler that holds the tweet job and was never started, and one
    that was started with it. *)
Definition registered_only : Scheduler string :=
  register five_or_six_fields empty tweet_job.

Definition started : Scheduler string :=
  start (register five_or_six_fields empty tweet_job).

Definition every_minute (expr : string) (minute : nat) : bool := true.

End Scheduling.

(** ** JavaScript values: JSON, JSON.stringify, truthiness, completions *)

Module Json.

(** The values a workflow document holds. Numbers are integers here
    (step inputs that matter below are strings); [undefined] does not
    occur in a parsed document. *)
Inductive JSON :=
| JNull
| JBool (b : bool)
| JNum (n : Z)
| JStr (s : string)
| JArr (items : list JSON)
| JObj (fields : list (string * JSON)).

Definition dquote : ascii := "034"%char.
Definition backslash : ascii := "092"%char.

Definition hex_digit (n : nat) : ascii :=
  match n with
  | 0 => "0" | 1 => "1" | 2 => "2" | 3 => "3" | 4 => "4"
  | 5 => "5" | 6 => "6" | 7 => "7" | 8 => "8" | 9 => "9"
  | 10 => "a" | 11 => "b" | 12 => "c" | 13 => "d" | 14 => "e"
  | _ => "f"
  end%char.

(** JSON.stringify's escaping of one character of a string. *)
Definition escape_char (c : ascii) : string :=
  let n := nat_of_ascii c in
  if (n =? 34)%nat then String backslash (String dquote EmptyString)
  else if (n =? 92)%nat then String backslash (String backslash EmptyString)
  else if (n =? 8)%nat then String backslash "b"
  else if (n =? 12)%nat then String backslash "f"
  else if (n =? 10)%nat then String backslash "n"
  else if (n =? 13)%nat then String backslash "r"
  else if (n =? 9)%nat then String backslash "t"
  else if (n <? 32)%nat then
    String backslash
      (String "u" (String "0" (String "0"
        (String (hex_digit (n / 16)) (String (hex_digit (n mod 16)) EmptyString)))))
  else String c EmptyString.

Fixpoint escape (s : string) : string :=
  match s with
  | EmptyString => EmptyString
  | String c rest => escape_char c ++ escape rest
  end.

Definition quote (s : string) : string :=
  String dquote (escape s ++ String dquote EmptyString).

(** [JSON.stringify(v)] without indentation. *)
Fixpoint stringify (v : JSON) : string :=
  match v with
  | JNull => "null"
  | JBool true => "true"
  | JBool false => "false"
  | JNum n => pretty n
  | JStr s => quote s
  | JArr items =>
      "[" ++
      (fix elems (l : list JSON) : string :=
         match l with
         | [] => ""
         | x :: rest =>
             match rest with
             | [] => stringify x
             | _ => stringify x ++ "," ++ elems rest
             end
         end) items ++ "]"
  | JObj fields =>
      "{" ++
      (fix members (l : list (string * JSON)) : string :=
         match l with
         | [] => ""
         | (k, x) :: rest =>
             match rest with
             | [] => quote k ++ ":" ++ stringify x
             | _ => quote k ++ ":" ++ stringify x ++ "," ++ members rest
             end
         end) fields ++ "}"
  end.

(** JavaScript truthiness of a possibly absent string. *)
Definition truthy (o : option string) : bool :=
  match o with
  | Some s => negb (String.eqb s "")
  | None => false
  end.

(** A call either returns a value or throws an [Error] with a message. *)
Inductive Completion (A : Type) :=
| Returned (a : A)
| Threw (message : string).

Arguments Returned {A} a.
Arguments Threw {A} message.

End Json.

(** ** The workflow execution queue (src/unnamed/part_002) *)

Module WorkflowQueue.

Import Json.

Definition WORKFLOW_QUEUE_NAME : string := "workflows-execution".

Inductive TriggerType :=
| manual | cron | webhook | telegram | discord | chat | chat_input | gmail | outlook.

(** [interface WorkflowJobData]. *)
Record WorkflowJobData := {
  workflowId : string;
  userId : string;
  triggerType : TriggerType;
  triggerData : option JSON;
}.

(** What [executeWorkflow] resolves to, as far as this file reads it:
    [result.success], [result.error] and [result.errorStep]. *)
Record ExecutionResult := {
  success : bool;
  error : option string;
  errorStep : option string;
}.

(** The part of [process.env] the queue reads. *)
Record Env := {
  REDIS_URL : option string;
  NODE_ENV : option string;
}.

(** BullMQ job options, as [createQueue] receives them. *)
Inductive BackoffType := fixed | exponential.

Record BackoffOptions := {
  type : BackoffType;
  delay : Z;
}.

Record KeepJobs := {
  age : Z;
  count : Z;
}.

Record JobsOptions := {
  attempts : nat;
  backoff : BackoffOptions;
  removeOnComplete : KeepJobs;
  removeOnFail : KeepJobs;
}.

(** The [defaultJobOptions] literal of [initializeWorkflowQueue]. *)
Definition defaultJobOptions : JobsOptions :=
  {| attempts := 3;
     backoff := {| type := exponential; delay := 10000 |};
     removeOnComplete := {| age := 86400; count := 1000 |};
     removeOnFail := {| age := 604800; count := 5000 |} |}.

(** The five life-cycle states the queue counts. *)
Inductive JobState := Waiting | Active | Completed | Failed | Delayed.

Definition JobState_eqb (a b : JobState) : bool :=
  match a, b with
  | Waiting, Waiting | Active, Active | Completed, Completed
  | Failed, Failed | Delayed, Delayed => true
  | _, _ => false
  end.

(** A BullMQ job, as far as the queue code reads it ([job.id],
    [job.data], [job.attemptsMade]) and the spec describes it (options,
    priority, state); [waitMs] is the delay a [Delayed] job waits out. *)
Record Job := {
  id : string;
  jobName : string;
  data : WorkflowJobData;
  opts : JobsOptions;
  priority : Z;
  attemptsMade : nat;
  state : JobState;
  waitMs : Z;
}.

Record Queue := {
  defaultOptions : JobsOptions;
  held : list Job;
}.

(** The [workflow_retry_scheduled] entry the failed handler logs. *)
Record RetryNotice := {
  noticeJob : string;
  attempt : nat;
  nextRetryIn : Z;
}.

(** What the queue layer did, in order. *)
Inductive Event :=
| Executed (d : WorkflowJobData)
| MovedToDelayed (job : string) (ms : Z)
| MovedToFailed (job : string)
| MovedToCompleted (job : string)
| RetryLogged (n : RetryNotice)
| Added (job : string).

(** The state the functions of this module act on: the [queues] map of
    lib/queue, and the history of effects. *)
Record World := {
  queues : gmap string Queue;
  history : list Event;
}.

Definition record (e : Event) (w : World) : World :=
  {| queues := queues w; history := history w ++ [e] |}.

Definition is_execution (e : Event) : bool :=
  match e with
  | Executed _ => true
  | _ => false
  end.

(** How many times [executeWorkflow] has run. *)
Definition executions (w : World) : nat :=
  length (List.filter is_execution (history w)).

(** [t] occurs somewhere inside [s]. *)
Fixpoint contains (t s : string) : bool :=
  String.prefix t s ||
  match s with
  | EmptyString => false
  | String _ rest => contains t rest
  end.

(** Whether a completion of [executeWorkflow] makes the processor throw. *)
Definition fails (c : Completion ExecutionResult) : bool :=
  match c with
  | Returned result => negb (success result)
  | Threw _ => true
  end.

Section WithExecutor.

(** [executeWorkflow] of lib/workflows/executor: what it does depends on
    the workflow store and on the outside world, so its completion is
    given per call, indexed by the number of executions that came before. *)
Variable executeWorkflow : nat -> WorkflowJobData -> Completion ExecutionResult.

Definition run_executeWorkflow (d : WorkflowJobData) (w : World)
  : Completion ExecutionResult * World :=
  (executeWorkflow (executions w) d, record (Executed d) w).

(** The template literal [`${result.error}`]: an absent value prints as
    the word undefined. *)
Definition show (o : option string) : string :=
  match o with
  | Some s => s
  | None => "undefined"
  end.

(** The message of the [Error] the processor throws on [!result.success]. *)
Definition failureMessage (result : ExecutionResult) : string :=
  "Workflow execution failed: " ++ show (error result) ++ " " ++
  (if truthy (errorStep result)
   then "(step: " ++ show (errorStep result) ++ ")"
   else "").

(** The worker's processor (the [async (job) => ...] passed to
    [createWorker]): an error thrown inside the [try] is logged and
    thrown again. *)
Definition processor (job : Job) (w : World) : Completion ExecutionResult * World :=
  let '(r, w1) := run_executeWorkflow (data job) w in
  match r with
  | Returned result =>
      if negb (success result)
      then (Threw (failureMessage result), w1)
      else (Returned result, w1)
  | Threw e => (Threw e, w1)
  end.

(** The [worker.on('failed', ...)] handler: what it logs, if anything. *)
Definition onFailed (job : option Job) : option RetryNotice :=
  match job with
  | Some j =>
      if (attemptsMade j <? 3)%nat
      then Some {| noticeJob := id j;
                   attempt := attemptsMade j + 1;
                   nextRetryIn := 2 ^ Z.of_nat (attemptsMade j) * 10 |}
      else None
  | None => None
  end.

(** Modelled from the spec: the retry engine is BullMQ's and is not part
    of the sources. A failed attempt is retried while fewer than
    [attempts] attempts have been made, after a backoff of the base delay
    doubled per attempt already made; otherwise the job is marked failed.
    [made] counts the attempts made so far, the failing one included. *)
Definition backoffDelay (o : JobsOptions) (made : nat) : Z :=
  match type (backoff o) with
  | exponential => 2 ^ Z.of_nat (made - 1) * delay (backoff o)
  | fixed => delay (backoff o)
  end.

Definition settled (j : Job) (made : nat) (st : JobState) (ms : Z) : Job :=
  {| id := id j; jobName := jobName j; data := data j; opts := opts j;
     priority := priority j; attemptsMade := made; state := st; waitMs := ms |}.

(** Modelled from the spec: what the queue does with a job once the
    processor has returned or thrown. *)
Definition finish (j : Job) (outcome : Completion ExecutionResult) (w : World)
  : Job * World :=
  let made := S (attemptsMade j) in
  match outcome with
  | Returned _ => (settled j made Completed 0, record (MovedToCompleted (id j)) w)
  | Threw _ =>
      if (made <? attempts (opts j))%nat
      then (settled j made Delayed (backoffDelay (opts j) made),
            record (MovedToDelayed (id j) (backoffDelay (opts j) made)) w)
      else (settled j made Failed 0, record (MovedToFailed (id j)) w)
  end.

(** Modelled from the spec: a job the worker may pick up is one that
    waits, or one whose delay ran out. *)
Definition runnable (j : Job) : bool :=
  match state j with
  | Waiting | Delayed => true
  | _ => false
  end.

Definition notify (n : option RetryNotice) (w : World) : World :=
  match n with
  | Some x => record (RetryLogged x) w
  | None => w
  end.

(** Modelled from the spec: one pass of the BullMQ worker over a job.
    Nothing happens to a job that is not runnable; a runnable one is given
    to the processor once, settled, and on failure handed to the failed
    handler. *)
Definition pass (j : Job) (w : World) : Job * World :=
  if runnable j then
    let '(outcome, w1) := processor (settled j (attemptsMade j) Active 0) w in
    let '(j', w2) := finish j outcome w1 in
    match outcome with
    | Threw _ => (j', notify (onFailed (Some j')) w2)
    | Returned _ => (j', w2)
    end
  else (j, w).

(** Modelled from the spec: the worker keeps passing over the job. *)
Fixpoint work (passes : nat) (j : Job) (w : World) : Job * World :=
  match passes with
  | O => (j, w)
  | S n => let '(j', w') := pass j w in work n j' w'
  end.

(** [initializeWorkflowQueue]: without REDIS_URL nothing is created and
    the result is [false]; otherwise the queue is created with
    [defaultJobOptions]. The worker's concurrency and rate limit, and the
    [catch] around a backend that cannot be reached, are left out. *)
Definition initializeWorkflowQueue (env : Env) (w : World) : bool * World :=
  if negb (truthy (REDIS_URL env)) then (false, w)
  else
    (true,
     {| queues := <[WORKFLOW_QUEUE_NAME :=
                     {| defaultOptions := defaultJobOptions; held := [] |}]> (queues w);
        history := history w |}).

(** Modelled from the spec: [addJob] of lib/queue is not part of the
    sources. It appends a job to the named queue with the queue's default
    options, waiting, or delayed when a positive delay is asked for, and
    throws when the queue does not exist. *)
Definition addJob (queueName jobName' : string) (d : WorkflowJobData)
    (priority' : Z) (delay' : option Z) (w : World) : Completion Job * World :=
  match queues w !! queueName with
  | None => (Threw ("Queue " ++ queueName ++ " not found"), w)
  | Some q =>
      let ms := default 0%Z delay' in
      let j := {| id := pretty (S (length (held q)));
                  jobName := jobName';
                  data := d;
                  opts := defaultOptions q;
                  priority := priority';
                  attemptsMade := 0;
                  state := if (0 <? ms)%Z then Delayed else Waiting;
                  waitMs := ms |} in
      (Returned j,
       record (Added (id j))
         {| queues := <[queueName :=
                         {| defaultOptions := defaultOptions q;
                            held := held q ++ [j] |}]> (queues w);
            history := history w |})
  end.

(** The [options] argument of [queueWorkflowExecution]. *)
Record QueueOptions := {
  optPriority : option Z;
  optDelay : option Z;
}.

Record QueueResult := {
  jobId : string;
  queued : bool;
}.

(** [options?.priority || 5]: absent and zero both give five. *)
Definition priority_or_default (options : option QueueOptions) : Z :=
  match options with
  | Some o =>
      match optPriority o with
      | Some p => if (p =? 0)%Z then 5%Z else p
      | None => 5%Z
      end
  | None => 5%Z
  end.

Definition delay_of (options : option QueueOptions) : option Z :=
  match options with
  | Some o => optDelay o
  | None => None
  end.

(** [queueWorkflowExecution]. An error thrown inside the [try] is logged
    and thrown again. *)
Definition queueWorkflowExecution (env : Env) (d : WorkflowJobData)
    (options : option QueueOptions) (w : World) : Completion QueueResult * World :=
  if negb (truthy (REDIS_URL env)) then
    let '(r, w1) := run_executeWorkflow d w in
    match r with
    | Returned _ => (Returned {| jobId := "direct-execution"; queued := false |}, w1)
    | Threw e => (Threw e, w1)
    end
  else
    match queues w !! WORKFLOW_QUEUE_NAME with
    | None =>
        (Threw "Workflow queue not initialized. Call initializeWorkflowQueue() first.", w)
    | Some _ =>
        let '(r, w1) :=
          addJob WORKFLOW_QUEUE_NAME ("workflow-" ++ workflowId d) d
            (priority_or_default options) (delay_of options) w in
        match r with
        | Returned job =>
            (Returned {| jobId := if truthy (Some (id job)) then id job else "unknown";
                         queued := true |}, w1)
        | Threw e => (Threw e, w1)
        end
    end.

(** A series of calls of [queueWorkflowExecution], one after the other,
    each with its data and options. *)
Definition queue_all (env : Env) (requests : list (WorkflowJobData * option QueueOptions))
    (w : World) : World :=
  foldl (fun acc request =>
           snd (queueWorkflowExecution env (fst request) (snd request) acc))
    w requests.

(** Modelled from the spec: the counters of a BullMQ queue count the
    jobs it holds by life-cycle state. *)
Definition countIn (st : JobState) (q : Queue) : nat :=
  length (List.filter (fun j => JobState_eqb (state j) st) (held q)).

Definition getWaitingCount := countIn Waiting.
Definition getActiveCount := countIn Active.
Definition getCompletedCount := countIn Completed.
Definition getFailedCount := countIn Failed.
Definition getDelayedCount := countIn Delayed.

(** The object [getWorkflowQueueStats] returns. *)
Record Stats := {
  waiting : nat;
  active : nat;
  completed : nat;
  failed : nat;
  delayed : nat;
  total : nat;
}.

(** [getWorkflowQueueStats]: [null] when the queue does not exist. *)
Definition getWorkflowQueueStats (w : World) : option Stats :=
  match queues w !! WORKFLOW_QUEUE_NAME with
  | None => None
  | Some queue =>
      let waiting' := getWaitingCount queue in
      let active' := getActiveCount queue in
      let completed' := getCompletedCount queue in
      let failed' := getFailedCount queue in
      let delayed' := getDelayedCount queue in
      Some {| waiting := waiting';
              active := active';
              completed := completed';
              failed := failed';
              delayed := delayed';
              total := waiting' + active' + delayed' |}
  end.

(** [isWorkflowQueueAvailable]. *)
Definition isWorkflowQueueAvailable (env : Env) (w : World) : bool :=
  truthy (REDIS_URL env) && bool_decide (is_Some (queues w !! WORKFLOW_QUEUE_NAME)).

End WithExecutor.

(** With the default options a job never sees a fourth attempt. *)
Definition within_attempts (j : Job) : Prop :=
  opts j = defaultJobOptions /\
  (attemptsMade j <= 3)%nat /\
  (runnable j = true -> (attemptsMade j < 3)%nat).

(** A job as [queueWorkflowExecution] leaves it in the queue that
    [initializeWorkflowQueue] created: the default options, no attempt
    made, waiting or, when a delay was asked for, delayed. *)
Definition newly_queued (j : Job) : Prop :=
  opts j = defaultJobOptions /\
  attemptsMade j = 0%nat /\
  (state j = Waiting \/ state j = Delayed).

(** Concrete data for the examples. *)
Definition no_redis : Env := {| REDIS_URL := None; NODE_ENV := Some "production" |}.

Definition with_redis : Env :=
  {| REDIS_URL := Some "redis://localhost:6379"; NODE_ENV := Some "production" |}.

Definition blank : World := {| queues := ∅; history := [] |}.

Definition daily_digest : WorkflowJobData :=
  {| workflowId := "daily-digest"; userId := "user-1";
     triggerType := manual; triggerData := None |}.

Definition job_in (st : JobState) (made : nat) : Job :=
  {| id := "1"; jobName := "workflow-daily-digest"; data := daily_digest;
     opts := defaultJobOptions; priority := 5; attemptsMade := made;
     state := st; waitMs := 0 |}.

Definition fresh_job : Job := job_in Waiting 0.

Definition step_failure : ExecutionResult :=
  {| success := false; error := Some "Rate limit exceeded";
     errorStep := Some "post-tweet" |}.

Definition failure_without_step : ExecutionResult :=
  {| success := false; error := Some "Workflow not found"; errorStep := None |}.

Definition all_good : ExecutionResult :=
  {| success := true; error := None; errorStep := None |}.

Definition fails_twice (n : nat) (d : WorkflowJobData) : Completion ExecutionResult :=
  if (n <? 2)%nat then Returned step_failure else Returned all_good.

Definition always_fails (n : nat) (d : WorkflowJobData) : Completion ExecutionResult :=
  Returned step_failure.

Definition never_finds (n : nat) (d : WorkflowJobData) : Completion ExecutionResult :=
  Returned failure_without_step.

Definition store_down (n : nat) (d : WorkflowJobData) : Completion ExecutionResult :=
  Threw "connect ECONNREFUSED 127.0.0.1:5432".

Definition all_succeed (n : nat) (d : WorkflowJobData) : Completion ExecutionResult :=
  Returned all_good.

(** A failing result that names neither an error nor a step. *)
Definition bare_failure : ExecutionResult :=
  {| success := false; error := None; errorStep := None |}.

Definition fails_bare (n : nat) (d : WorkflowJobData) : Completion ExecutionResult :=
  Returned bare_failure.

(** A request to run five seconds from now. *)
Definition in_five_seconds : option QueueOptions :=
  Some {| optPriority := None; optDelay := Some 5000%Z |}.

(** A request that asks for priority 0. *)
Definition urgent : option QueueOptions :=
  Some {| optPriority := Some 0%Z; optDelay := None |}.

(** A queue that holds two waiting jobs, one active, one delayed, three
    completed and one failed. *)
Definition busy : World :=
  {| queues :=
       {[ WORKFLOW_QUEUE_NAME :=
            {| defaultOptions := defaultJobOptions;
               held := [job_in Waiting 0; job_in Completed 1; job_in Active 0;
                        job_in Completed 1; job_in Delayed 1; job_in Failed 3;
                        job_in Waiting 0; job_in Completed 2] |} ]};
     history := [] |}.

End WorkflowQueue.

(** ** The OpenAI module (src/modules/ai/openai.ts) *)

Module OpenAI.

Import Json.

(** What a call does that the outside can see, in order. *)
Inductive Event :=
| LimiterAdmitted (limiter : string)
| BreakerRejected (breaker : string)
| BreakerPassed (breaker : string)
| TimerArmed (breaker : string) (ms : Z)
| Requested (model : string) (clientTimeout : Z).

(** The process-wide state of the resilience layer and the record of
    what happened: consecutive failures per breaker, and the events. *)
Record World := {
  failures : gmap string nat;
  trace : list Event;
}.

Definition record (e : Event) (w : World) : World :=
  {| failures := failures w; trace := trace w ++ [e] |}.

Definition requests (w : World) : nat :=
  length (List.filter (fun e => match e with Requested _ _ => true | _ => false end)
            (trace w)).

(** A function of the module: it acts on the world and returns or throws. *)
Definition Action (A B : Type) : Type := A -> World -> Completion B * World.

(** The options [createCircuitBreaker] is called with; [breakerName] is
    their [name]. *)
Record BreakerOptions := {
  timeout : Z;
  breakerName : string;
}.

Record Breaker (A B : Type) := {
  guarded : Action A B;
  options : BreakerOptions;
}.

Arguments guarded {A B} _.
Arguments options {A B} _.

(** Modelled from the spec: [createCircuitBreaker] of lib/resilience is
    not among the sources. A breaker is open once the calls it guards have
    failed [threshold] times in a row (five, as in the spec's test of the
    sixth call); an open breaker fails fast without attempting the call; a
    closed one arms its timeout and runs the call, and counts the outcome.
    The cooldown after which an open breaker lets a trial call through
    needs a clock and is left out. *)
Definition threshold : nat := 5.

Definition createCircuitBreaker {A B} (action : Action A B) (o : BreakerOptions)
  : Breaker A B :=
  {| guarded := action; options := o |}.

Definition is_open (breaker : string) (w : World) : bool :=
  (threshold <=? default 0 (failures w !! breaker))%nat.

Definition count_outcome {B} (breaker : string) (r : Completion B) (w : World) : World :=
  {| failures :=
       match r with
       | Returned _ => <[breaker := 0]> (failures w)
       | Threw _ => <[breaker := S (default 0 (failures w !! breaker))]> (failures w)
       end;
     trace := trace w |}.

(** Modelled from the spec: [breaker.fire(args)]. *)
Definition fire {A B} (b : Breaker A B) : Action A B :=
  fun args w =>
    let n := breakerName (options b) in
    if is_open n w then (Threw "Breaker is open", record (BreakerRejected n) w)
    else
      let w1 := record (TimerArmed n (timeout (options b))) (record (BreakerPassed n) w) in
      let '(r, w2) := guarded b args w1 in
      (r, count_outcome n r w2).

(** The options [createRateLimiter] is called with; [limiterId] is
    their [id]. *)
Record RateLimiter := {
  maxConcurrent : Z;
  minTime : Z;
  reservoir : Z;
  reservoirRefreshAmount : Z;
  reservoirRefreshInterval : Z;
  limiterId : string;
}.

(** Modelled from the spec: [withRateLimit] of lib/rate-limiter is not
    among the sources. The limiter holds the call back until its quota
    admits it, then runs it; the wait itself needs a clock and is left
    out. *)
Definition withRateLimit {A B} (fn : Action A B) (limiter : RateLimiter) : Action A B :=
  fun args w => fn args (record (LimiterAdmitted (limiterId limiter)) w).

(** The messages and options of the module's interface. *)
Inductive Role := system | user | assistant.

(** [interface OpenAIMessage]; [body] is its [content]. *)
Record OpenAIMessage := {
  role : Role;
  body : string;
}.

(** [interface OpenAICompletionOptions], without tools and streaming. *)
Record OpenAICompletionOptions := {
  messages : list OpenAIMessage;
  model : option string;
  maxTokens : option Z;
  temperature : option Q;
}.

(** [interface OpenAICompletionResponse], without usage and tool calls. *)
Record OpenAICompletionResponse := {
  content : string;
  finishReason : string;
}.

(** The parameters of one [chat.completions.create] request, and what
    this file reads of its response. *)
Record ChatParams := {
  p_model : string;
  p_messages : list OpenAIMessage;
  p_image_url : option string;
  p_max_tokens : option Z;
  p_temperature : option Q;
}.

Record ChatResponse := {
  message_content : option string;
  finish_reason : option string;
}.

(** [x || fallback] on a possibly absent string. *)
Definition or_else (x : option string) (fallback : string) : string :=
  match x with
  | Some s => if String.eqb s "" then fallback else s
  | None => fallback
  end.

(** The models that take no optional parameters. *)
Definition startsWith (s t : string) : bool := String.prefix t s.

Definition isGPT5 (m : string) : bool :=
  startsWith m "gpt-5" || startsWith m "o1" || startsWith m "o3".

(** The rate limiter the module creates. *)
Definition openaiRateLimiter : RateLimiter :=
  {| maxConcurrent := 5;
     minTime := 200;
     reservoir := 500;
     reservoirRefreshAmount := 500;
     reservoirRefreshInterval := 60 * 1000;
     limiterId := "openai" |}.

Section WithApi.

(** [process.env.OPENAI_API_KEY]. *)
Variable OPENAI_API_KEY : option string.

(** The OpenAI service: how the request with the given parameters
    completes, given how many requests came before. *)
Variable service : nat -> ChatParams -> Completion ChatResponse.

(** [openaiClient] is a client exactly when the key is set. *)
Definition openaiClient : bool := truthy OPENAI_API_KEY.

(** [client.chat.completions.create(params)] on a client built with
    [timeout: 60000]. *)
Definition create (params : ChatParams) (w : World) : Completion ChatResponse * World :=
  (service (requests w) params, record (Requested (p_model params) 60000) w).

(** [createCompletionInternal], the unprotected function. *)
Definition createCompletionInternal
  : Action OpenAICompletionOptions OpenAICompletionResponse :=
  fun options w =>
    if negb openaiClient
    then (Threw "OpenAI client not initialized. Set OPENAI_API_KEY.", w)
    else
      let model' := or_else (model options) "gpt-4o-mini" in
      let completionParams :=
        {| p_model := model';
           p_messages := messages options;
           p_image_url := None;
           p_max_tokens := if isGPT5 model' then None else maxTokens options;
           p_temperature := if isGPT5 model' then None else temperature options |} in
      let '(r, w1) := create completionParams w in
      match r with
      | Returned response =>
          (Returned {| content := or_else (message_content response) "";
                       finishReason := or_else (finish_reason response) "stop" |}, w1)
      | Threw e => (Threw e, w1)
      end.

Definition createCompletionWithBreaker
  : Breaker OpenAICompletionOptions OpenAICompletionResponse :=
  createCircuitBreaker createCompletionInternal
    {| timeout := 60000; breakerName := "openai-completion" |}.

Definition createCompletionRateLimited
  : Action OpenAICompletionOptions OpenAICompletionResponse :=
  withRateLimit (fun options => fire createCompletionWithBreaker options)
    openaiRateLimiter.

(** [createCompletion], the protected function. *)
Definition createCompletion
  : Action OpenAICompletionOptions OpenAICompletionResponse :=
  fun options => createCompletionRateLimited options.

(** The argument of [generateText]. *)
Record GenerateTextParams := {
  prompt : string;
  systemPrompt : option string;
  g_model : option string;
  g_maxTokens : option Z;
  g_temperature : option Q;
  apiKey : option string;
}.

(** [generateText]: the client is built from [apiKey] when one is given,
    and is the module's client otherwise. *)
Definition generateText : Action GenerateTextParams string :=
  fun params w =>
    let client := if truthy (apiKey params) then true else openaiClient in
    if negb client
    then (Threw "OpenAI API key required. Set OPENAI_API_KEY or provide apiKey parameter.", w)
    else
      let messages' :=
        ((if truthy (systemPrompt params)
          then [{| role := system; body := or_else (systemPrompt params) "" |}]
          else []) ++ [{| role := user; body := prompt params |}])%list in
      let gpt5 :=
        startsWith (or_else (g_model params) "gpt-4o-mini") "gpt-5"
        || startsWith (or_else (g_model params) "") "o1"
        || startsWith (or_else (g_model params) "") "o3" in
      let '(r, w1) :=
        create {| p_model := or_else (g_model params) "gpt-4o-mini";
                  p_messages := messages';
                  p_image_url := None;
                  p_max_tokens := if gpt5 then None else g_maxTokens params;
                  p_temperature := if gpt5 then None else g_temperature params |} w in
      match r with
      | Returned response => (Returned (or_else (message_content response) ""), w1)
      | Threw e => (Threw e, w1)
      end.

(** [chat], which goes through [createCompletion]. *)
Definition chat (messages' : list OpenAIMessage) (model' : option string)
    (maxTokens' : option Z) (temperature' : option Q) : World -> Completion string * World :=
  fun w =>
    let '(r, w1) :=
      createCompletion
        {| messages := messages';
           model := Some (or_else model' "gpt-4o-mini");
           maxTokens := maxTokens';
           temperature := temperature' |} w in
    match r with
    | Returned response => (Returned (content response), w1)
    | Threw e => (Threw e, w1)
    end.

(** [generateFast] and [generateQuality]. *)
Definition generateFast (prompt' : string) (systemPrompt' : option string)
  : World -> Completion string * World :=
  generateText {| prompt := prompt'; systemPrompt := systemPrompt';
                  g_model := Some "gpt-4o-mini"; g_maxTokens := None;
                  g_temperature := Some (8 # 10)%Q; apiKey := None |}.

Definition generateQuality (prompt' : string) (systemPrompt' : option string)
  : World -> Completion string * World :=
  generateText {| prompt := prompt'; systemPrompt := systemPrompt';
                  g_model := Some "gpt-4o"; g_maxTokens := None;
                  g_temperature := Some (7 # 10)%Q; apiKey := None |}.

(** [analyzeImage]. *)
Definition analyzeImage (imageUrl prompt' : string) (model' : option string)
  : World -> Completion string * World :=
  fun w =>
    if negb openaiClient
    then (Threw "OpenAI client not initialized. Set OPENAI_API_KEY.", w)
    else
      let '(r, w1) :=
        create {| p_model := or_else model' "gpt-4o";
                  p_messages := [{| role := user; body := prompt' |}];
                  p_image_url := Some imageUrl;
                  p_max_tokens := Some 4096%Z;
                  p_temperature := None |} w in
      match r with
      | Returned response => (Returned (or_else (message_content response) ""), w1)
      | Threw e => (Threw e, w1)
      end.

End WithApi.

(** Concrete data for the examples. *)
Definition quiet : World := {| failures := ∅; trace := [] |}.

(** A world in which the completion breaker has seen five failures. *)
Definition tripped : World :=
  {| failures := {[ "openai-completion" := 5 ]}; trace := [] |}.

Definition answering (n : nat) (p : ChatParams) : Completion ChatResponse :=
  Returned {| message_content := Some "Hello"; finish_reason := Some "stop" |}.

Definition say_hello : OpenAICompletionOptions :=
  {| messages := [{| role := user; body := "Say hello" |}];
     model := None; maxTokens := None; temperature := None |}.

Definition say_hello_text : GenerateTextParams :=
  {| prompt := "Say hello"; systemPrompt := None; g_model := None;
     g_maxTokens := None; g_temperature := None; apiKey := None |}.

End OpenAI.

(** ** The variable-reference pass (scripts/validate-workflow.ts) *)

Module Validate.

Import Json.

(** One entry of [config.steps]. *)
Record Step := {
  id : string;
  module : string;
  inputs : list (string * JSON);
  outputAs : option string;
}.

(** [interface WorkflowExport], without the output display and the
    metadata, which the pass does not read. *)
Record WorkflowExport := {
  version : string;
  name : string;
  description : string;
  steps : list Step;
}.

(** The character classes [\w] and [\d] of a regular expression without
    the unicode flag. *)
Definition is_digit (c : ascii) : bool :=
  let n := nat_of_ascii c in (48 <=? n)%nat && (n <=? 57)%nat.

Definition is_word (c : ascii) : bool :=
  let n := nat_of_ascii c in
  is_digit c
  || ((65 <=? n)%nat && (n <=? 90)%nat)
  || ((97 <=? n)%nat && (n <=? 122)%nat)
  || (n =? 95)%nat.

(** Where a match of
    [/\{\{(\w+)(?:\.\w+)*(?:\[\d+\])*\}\}/]
    stands after the characters read so far. The separators are no word
    characters, so each greedy repetition ends at the only place where a
    match can go on, and the expression is matched by reading on once. *)
Inductive Scan :=
| Start      (* nothing read: the first opening brace is due *)
| Opened     (* one opening brace read *)
| RootDue    (* both braces read: the root needs its first character *)
| InRoot     (* inside the root name *)
| FieldDue   (* a dot read: the field needs its first character *)
| InField    (* inside a field name *)
| IndexDue   (* an opening bracket read: the index needs its first digit *)
| InIndex    (* inside an index *)
| Indexed    (* a closing bracket read *)
| Closing.   (* one closing brace read *)

(** The length of the match that starts at the head of [s] and has
    read [len] characters so far, if there is one. *)
Fixpoint scan (st : Scan) (len : nat) (s : string) : option nat :=
  match s with
  | EmptyString => None
  | String c rest =>
      let next st' := scan st' (S len) rest in
      match st with
      | Start => if Ascii.eqb c "{" then next Opened else None
      | Opened => if Ascii.eqb c "{" then next RootDue else None
      | RootDue => if is_word c then next InRoot else None
      | InRoot | InField =>
          if is_word c then next st
          else if Ascii.eqb c "." then next FieldDue
          else if Ascii.eqb c "[" then next IndexDue
          else if Ascii.eqb c "}" then next Closing
          else None
      | FieldDue => if is_word c then next InField else None
      | IndexDue => if is_digit c then next InIndex else None
      | InIndex =>
          if is_digit c then next InIndex
          else if Ascii.eqb c "]" then next Indexed
          else None
      | Indexed =>
          if Ascii.eqb c "[" then next IndexDue
          else if Ascii.eqb c "}" then next Closing
          else None
      | Closing => if Ascii.eqb c "}" then Some (S len) else None
      end
  end.

(** [str.match(/.../g) || []]: the matches from left to right; after a
    match the search goes on behind it, after a failure one character
    further. [skip] counts the characters of the last match still to be
    passed over. *)
Fixpoint matches_from (skip : nat) (s : string) : list string :=
  match s with
  | EmptyString => []
  | String c rest =>
      match skip with
      | S k => matches_from k rest
      | O =>
          match scan Start 0 s with
          | Some len => substring 0 len s :: matches_from (len - 1) rest
          | None => matches_from 0 rest
          end
      end
  end.

Definition variableRefs (inputsStr : string) : list string :=
  matches_from 0 inputsStr.

(** The longest run of word characters at the head of [s]. *)
Fixpoint word_run (s : string) : string :=
  match s with
  | EmptyString => EmptyString
  | String c rest => if is_word c then String c (word_run rest) else EmptyString
  end.

(** [ref.match(/\{\{(\w+)/)?.[1]]: the first place in [ref] where two
    opening braces are followed by a word character, and the run of word
    characters there. *)
Fixpoint varName (ref : string) : option string :=
  match ref with
  | EmptyString => None
  | String c rest =>
      let here :=
        if Ascii.eqb c "{" then
          match rest with
          | String c' rest' =>
              if Ascii.eqb c' "{" then
                match word_run rest' with
                | EmptyString => None
                | w => Some w
                end
              else None
          | EmptyString => None
          end
        else None in
      match here with
      | Some w => Some w
      | None => varName rest
      end
  end.

(** The message pushed for an undeclared variable. *)
Definition undeclared (index : nat) (step : Step) (v : string) : string :=
  "Step " ++ pretty (index + 1) ++ " (" ++ id step
  ++ "): References undeclared variable "
  ++ String dquote (v ++ String dquote EmptyString).

(** The callback of the inner [forEach]: what one reference adds to
    [errors]. *)
Definition check_ref (declaredVariables : gset string) (index : nat) (step : Step)
    (ref : string) : list string :=
  match varName ref with
  | Some v =>
      if negb (String.eqb v "")
         && negb (bool_decide (v ∈ declaredVariables))
         && negb (String.eqb v "user")
      then [undeclared index step v]
      else []
  | None => []
  end.

(** The body of the outer [forEach] for one step: the errors of its
    references are appended, then its output name is declared. *)
Definition visit (index : nat) (step : Step) (st : list string * gset string)
  : list string * gset string :=
  let '(errors, declaredVariables) := st in
  let inputsStr := stringify (JObj (inputs step)) in
  let errors' :=
    (errors ++ flat_map (check_ref declaredVariables index step) (variableRefs inputsStr))%list in
  (errors', if truthy (outputAs step)
            then {[ default "" (outputAs step) ]} ∪ declaredVariables
            else declaredVariables).

Fixpoint forEach (l : list Step) (index : nat) (st : list string * gset string)
  : list string * gset string :=
  match l with
  | [] => st
  | step :: rest => forEach rest (S index) (visit index step st)
  end.

(** [validateVariableReferences]. *)
Definition validateVariableReferences (workflow : WorkflowExport) : list string :=
  fst (forEach (steps workflow) 0 ([], ∅)).

(** The strings the regular expression matches, piece by piece: [\w+]
    and [\d+] are non-empty runs, [(?:\.\w+)*] is a sequence of dotted
    fields, [(?:\[\d+\])*] a sequence of bracketed indices. *)
Fixpoint every (p : ascii -> bool) (s : string) : bool :=
  match s with
  | EmptyString => true
  | String c rest => p c && every p rest
  end.

Definition word (s : string) : Prop := s <> "" /\ every is_word s = true.

Definition number (s : string) : Prop := s <> "" /\ every is_digit s = true.

Definition fields (fs : list string) : string :=
  fold_right (fun f acc => "." ++ f ++ acc) "" fs.

Definition indices (ixs : list string) : string :=
  fold_right (fun i acc => "[" ++ i ++ "]" ++ acc) "" ixs.

Definition reference (root : string) (fs ixs : list string) : string :=
  "{{" ++ root ++ fields fs ++ indices ixs ++ "}}".

(** The places inside a name, and the places after which the closing
    braces or an index may follow. *)
Definition in_name (st : Scan) : Prop := st = InRoot \/ st = InField.

Definition closable (st : Scan) : Prop := st = InRoot \/ st = InField \/ st = Indexed.

(** What can still be read from each place of a match: [shape st s k]
    says that [s] starts with [k] characters that complete a match from
    the place [st]. *)
Definition after_index (ixs : list string) (rest : string) : string :=
  indices ixs ++ "}}" ++ rest.

Definition after_name (fs ixs : list string) (rest : string) : string :=
  fields fs ++ after_index ixs rest.

Definition name_then (nonempty : bool) (s : string) (k : nat) : Prop :=
  exists w fs ixs rest,
    (nonempty = true -> w <> "") /\ every is_word w = true /\
    Forall word fs /\ Forall number ixs /\
    s = w ++ after_name fs ixs rest /\
    k = String.length w + String.length (fields fs) + String.length (indices ixs) + 2.

Definition digits_then (nonempty : bool) (s : string) (k : nat) : Prop :=
  exists d ixs rest,
    (nonempty = true -> d <> "") /\ every is_digit d = true /\
    Forall number ixs /\
    s = d ++ "]" ++ after_index ixs rest /\
    k = String.length d + 1 + String.length (indices ixs) + 2.

Definition shape (st : Scan) (s : string) (k : nat) : Prop :=
  match st with
  | Start => exists s' k', s = String "{" (String "{" s') /\ k = 2 + k' /\ name_then true s' k'
  | Opened => exists s' k', s = String "{" s' /\ k = 1 + k' /\ name_then true s' k'
  | RootDue | FieldDue => name_then true s k
  | InRoot | InField => name_then false s k
  | IndexDue => digits_then true s k
  | InIndex => digits_then false s k
  | Indexed =>
      exists ixs rest,
        Forall number ixs /\ s = after_index ixs rest /\
        k = String.length (indices ixs) + 2
  | Closing => exists rest, s = String "}" rest /\ k = 1
  end.

(** What one step adds to [errors] when the names in [declaredVariables]
    are declared. *)
Definition check_step (declaredVariables : gset string) (index : nat) (step : Step)
  : list string :=
  flat_map (check_ref declaredVariables index step)
    (variableRefs (stringify (JObj (inputs step)))).

(** The roots of the references the pass finds in a step. *)
Definition roots (step : Step) : list string :=
  omap varName (variableRefs (stringify (JObj (inputs step)))).

(** The names a step declares, and the names a list of steps declares. *)
Definition declares (step : Step) : gset string :=
  if truthy (outputAs step) then {[ default "" (outputAs step) ]} else ∅.

Definition declared_by (l : list Step) : gset string :=
  foldr (fun step acc => declares step ∪ acc) ∅ l.

(** Concrete data for the examples: a chat workflow as the workflow
    builder's guide writes them, reading the trigger payload and a
    credential. *)
Definition reply_step : Step :=
  {| id := "reply";
     module := "ai.openai.generateText";
     inputs := [("prompt", JStr "{{trigger.userMessage}}");
                ("apiKey", JStr "{{credential.openai_api_key}}")];
     outputAs := Some "answer" |}.

Definition shout_step : Step :=
  {| id := "shout";
     module := "utilities.string-utils.toUpperCase";
     inputs := [("text", JStr "{{answer}}");
                ("key", JStr "{{user.openai}}");
                ("next", JStr "{{later.value}}")];
     outputAs := Some "loud" |}.

Definition last_step : Step :=
  {| id := "last";
     module := "utilities.array-utils.first";
     inputs := [("array", JStr "{{missing[0].name}}")];
     outputAs := Some "later" |}.

Definition chat_workflow : WorkflowExport :=
  {| version := "1.0";
     name := "Chat reply";
     description := "Answers a chat message";
     steps := [reply_step; shout_step; last_step] |}.

(** A workflow whose references are all bound: the first step reads a
    credential through [user], the second reads the first step's
    output. *)
Definition tidy_workflow : WorkflowExport :=
  {| version := "1.0";
     name := "Tweet digest";
     description := "Summarises recent tweets";
     steps :=
       [ {| id := "fetch";
            module := "social.twitter.searchTweets";
            inputs := [("query", JStr "rocq"); ("token", JStr "{{user.twitter}}")];
            outputAs := Some "tweets" |};
         {| id := "digest";
            module := "ai.openai.generateText";
            inputs := [("prompt", JStr "Summarise {{tweets}}, starting with {{tweets[0]}}")];
            outputAs := Some "summary" |} ] |}.

End Validate.

(** ** Twitter usage windows (src/unnamed/part_001 and
    src/src/app/api/twitter/usage/route.ts) *)

Module TwitterUsage.

Import Json.

(** [type: 'post' | 'read']. *)
Inductive UsageType := post | read.

#[global] Instance UsageType_eq_dec : EqDecision UsageType.
Proof. solve_decision. Defined.

(** A row of the [twitter_usage] table, as the code reads and writes it;
    dates are milliseconds since the epoch. *)
Record UsageRecord := {
  windowType : string;
  postsCount : Z;
  readsCount : Z;
  windowStart : Z;
  updatedAt : Z;
}.

(** The table: its rows in the order the database returns them. *)
Definition Table := list UsageRecord.

(** The entries of the [windows] array. *)
Record Window := {
  type : string;
  duration : Z;
}.

Definition windows : list Window :=
  [ {| type := "last_15_minutes"; duration := 15 * 60 * 1000 |};
    {| type := "last_hour"; duration := 60 * 60 * 1000 |};
    {| type := "last_24_hours"; duration := 24 * 60 * 60 * 1000 |};
    {| type := "last_month"; duration := 30 * 24 * 60 * 60 * 1000 |} ].

Definition is_window (w : string) (r : UsageRecord) : bool :=
  String.eqb (windowType r) w.

(** [select().from(table).where(eq(table.windowType, w)).limit(1)]. *)
Definition select_window (t : Table) (w : string) : list UsageRecord :=
  take 1 (List.filter (is_window w) t).

(** [update(table).set(...).where(eq(table.windowType, w))]: every row
    of the window is rewritten. *)
Definition update_window (set : UsageRecord -> UsageRecord) (w : string) (t : Table)
  : Table :=
  map (fun r => if is_window w r then set r else r) t.

(** The values a new or a reset window gets. *)
Definition started (ty : UsageType) (w : string) (now : Z) : UsageRecord :=
  {| windowType := w;
     postsCount := match ty with post => 1 | read => 0 end;
     readsCount := match ty with read => 1 | post => 0 end;
     windowStart := now;
     updatedAt := now |}.

(** The increment [column = column + 1] of [columnToIncrement]. *)
Definition incremented (ty : UsageType) (now : Z) (r : UsageRecord) : UsageRecord :=
  {| windowType := windowType r;
     postsCount := match ty with post => postsCount r + 1 | read => postsCount r end;
     readsCount := match ty with read => readsCount r + 1 | post => readsCount r end;
     windowStart := windowStart r;
     updatedAt := now |}.

(** The body of the loop [for (const window of windows)]. *)
Definition trackWindow (ty : UsageType) (now : Z) (t : Table) (window : Window) : Table :=
  match select_window t (type window) with
  | [] => (t ++ [started ty (type window) now])%list
  | record :: _ =>
      let elapsed := (now - windowStart record)%Z in
      if (duration window <? elapsed)%Z
      then update_window (fun r => started ty (windowType r) now) (type window) t
      else update_window (incremented ty now) (type window) t
  end.

(** The loop over the four windows. It is written three times in the
    sources, over the SQLite table, over the PostgreSQL table (both in
    [trackUsageDirectly]) and in the route's POST handler; the model is a
    database that answers, the [catch] paths of a failing database are
    left out. *)
Definition trackWindows (ty : UsageType) (now : Z) (t : Table) : Table :=
  fold_left (trackWindow ty now) windows t.

(** [trackUsageDirectly(type)] at the instant [now]. *)
Definition trackUsageDirectly (ty : UsageType) (now : Z) (t : Table) : Table :=
  trackWindows ty now t.

(** The answer of a route: [NextResponse.json(body, { status })]. *)
Record Response := {
  status : nat;
  body : JSON;
}.

(** [const { type } = body] on a parsed request body: the member [type]
    of an object, nothing otherwise. *)
Fixpoint member (key : string) (fields : list (string * JSON)) : option JSON :=
  match fields with
  | [] => None
  | (k, v) :: rest =>
      match member key rest with
      | Some v' => Some v'
      | None => if String.eqb k key then Some v else None
      end
  end.

Definition type_of_body (b : JSON) : option JSON :=
  match b with
  | JObj fields => member "type" fields
  | _ => None
  end.

(** The route's POST handler on a parsed request body. Destructuring
    [null] throws, which the [catch] answers with 500; any other body
    without a member [type] has [type] undefined. *)
Definition accepted : JSON :=
  JObj [("success", JBool true); ("message", JStr "Usage tracked successfully")].

Definition invalid_type : JSON :=
  JObj [("error",
         JStr ("Invalid type. Must be " ++ String dquote ("post" ++ String dquote
               (" or " ++ String dquote ("read" ++ String dquote "")))))].

Definition usage_type (v : option JSON) : option UsageType :=
  match v with
  | Some (JStr s) =>
      if String.eqb s "post" then Some post
      else if String.eqb s "read" then Some read
      else None
  | _ => None
  end.

Definition POST (b : JSON) (now : Z) (t : Table) : Response * Table :=
  match b with
  | JNull =>
      ({| status := 500; body := JObj [("error", JStr "Failed to increment usage")] |}, t)
  | _ =>
      match usage_type (type_of_body b) with
      | Some ty => ({| status := 200; body := accepted |}, trackWindows ty now t)
      | None => ({| status := 400; body := invalid_type |}, t)
      end
  end.

(** [trackTwitterUsage(type)]: on the server ([typeof window ===
    'undefined']) the table is updated directly; in the browser the
    request [{ type }] is posted to the route. *)
Definition type_name (ty : UsageType) : string :=
  match ty with
  | post => "post"
  | read => "read"
  end.

Definition trackTwitterUsage (server : bool) (ty : UsageType) (now : Z) (t : Table)
  : Table :=
  if server then trackUsageDirectly ty now t
  else snd (POST (JObj [("type", JStr (type_name ty))]) now t).

(** A date in an answer: a stored instant, or [new Date()] taken while
    the answer is built. *)
Inductive DateValue := Stored (ms : Z) | NewDate.

(** What the GET handler reports per window. *)
Record WindowData := {
  count : Z;
  since : DateValue;
  windowDuration : Z;
}.

(** [windowMap.get(windowType)]: the map is built from all rows, a later
    row of a window replacing an earlier one. *)
Definition windowMap_get (t : Table) (w : string) : option UsageRecord :=
  last (List.filter (is_window w) t).

(** [createWindowData] and [createReadWindowData], which differ in the
    column they report. *)
Definition windowData (column : UsageRecord -> Z) (now : Z) (t : Table)
    (w : string) (d : Z) : WindowData :=
  match windowMap_get t w with
  | None => {| count := 0; since := NewDate; windowDuration := d |}
  | Some record =>
      let elapsed := (now - windowStart record)%Z in
      if (d <? elapsed)%Z
      then {| count := 0; since := NewDate; windowDuration := d |}
      else {| count := column record;
              since := Stored (windowStart record);
              windowDuration := d |}
  end.

Definition createWindowData := windowData postsCount.
Definition createReadWindowData := windowData readsCount.

(** [TwitterUsageTracking] without [lastUpdated], which is always a new
    date. *)
Record TwitterUsageTracking := {
  last15Minutes : WindowData;
  lastHour : WindowData;
  last24Hours : WindowData;
  lastMonth : WindowData;
}.

Record UsageReport := {
  postUsage : TwitterUsageTracking;
  readUsage : TwitterUsageTracking;
}.

Definition usage (create : Z -> Table -> string -> Z -> WindowData) (now : Z) (t : Table)
  : TwitterUsageTracking :=
  {| last15Minutes := create now t "last_15_minutes" (15 * 60 * 1000)%Z;
     lastHour := create now t "last_hour" (60 * 60 * 1000)%Z;
     last24Hours := create now t "last_24_hours" (24 * 60 * 60 * 1000)%Z;
     lastMonth := create now t "last_month" (30 * 24 * 60 * 60 * 1000)%Z |}.

(** The route's GET handler at [Date.now() = now], on a database that
    answers. *)
Definition GET (now : Z) (t : Table) : UsageReport :=
  {| postUsage := usage createWindowData now t;
     readUsage := usage createReadWindowData now t |}.

(** The column a report of the given type reads. *)
Definition column (ty : UsageType) : UsageRecord -> Z :=
  match ty with
  | post => postsCount
  | read => readsCount
  end.

(** The row a window has after one pass of the loop body, given the row
    it had. *)
Definition next_row (ty : UsageType) (now : Z) (w : string) (d : Z)
    (o : option UsageRecord) : UsageRecord :=
  match o with
  | None => started ty w now
  | Some r =>
      if (d <? now - windowStart r)%Z then started ty (windowType r) now
      else incremented ty now r
  end.

(** An update that keeps the window type of every row. *)
Definition keeps_type (set : UsageRecord -> UsageRecord) : Prop :=
  forall r, windowType (set r) = windowType r.

(** The four counts of a report, shortest window first. *)
Definition counts (u : TwitterUsageTracking) : list Z :=
  [count (last15Minutes u); count (lastHour u); count (last24Hours u);
   count (lastMonth u)].

(** The usage a report gives for a type. *)
Definition reported (ty : UsageType) (r : UsageReport) : TwitterUsageTracking :=
  match ty with
  | post => postUsage r
  | read => readUsage r
  end.

(** The window of the [windows] array with a given type. *)
Definition window_of (ws : list Window) (w : string) : option Window :=
  List.find (fun win => String.eqb (type win) w) ws.

(** A table in which no window has two rows. *)
Definition one_row_per_window (t : Table) : Prop := NoDup (map windowType t).

(** Usage events: a type and the instant it is tracked at. *)
Definition trackAll (events : list (UsageType * Z)) (t : Table) : Table :=
  fold_left (fun acc e => trackWindows (fst e) (snd e) acc) events t.

Definition count_of (ty : UsageType) (events : list (UsageType * Z)) : Z :=
  Z.of_nat (length (List.filter
    (fun e => match fst e, ty with post, post | read, read => true | _, _ => false end)
    events)).

(** [trackPost()] and [trackRead()]. *)
Definition trackPost := fun server => trackTwitterUsage server post.
Definition trackRead := fun server => trackTwitterUsage server read.

(** Example data: a table with an hour window started at instant 1000
    and a burst of three posts and a read within a quarter of an hour. *)
Definition hour_row : UsageRecord :=
  {| windowType := "last_hour"; postsCount := 7; readsCount := 2;
     windowStart := 1000; updatedAt := 5000 |}.

Definition quarter : Window := {| type := "last_15_minutes"; duration := 15 * 60 * 1000 |}.

Definition burst : list (UsageType * Z) :=
  [(post, 60000%Z); (read, 61000%Z); (post, 200000%Z)].

End TwitterUsage.

(** * The jobs control route

    [src/app/api/jobs/control/route.ts]: the POST handler that starts and
    stops the scheduler's jobs by name. *)

Module JobsControl.

Import Json Scheduling.

(** The functions a job name can stand for: the six jobs of [JOB_TASKS]
    and, as [JOB_TASKS] is an object literal, whatever the lookup
    [JOB_TASKS[jobName]] finds on [Object.prototype]. *)
Inductive JobFunction :=
| generateAndPostTweet
| replyToTweetsJob
| generateScheduledContent
| analyzeTrends
| checkAndReplyToYouTubeComments
| fetchYouTubeCommentsForAnalysis
| Inherited (property : string).

Definition JOB_TASKS : list (string * JobFunction) :=
  [ ("ai-tweet-generation", generateAndPostTweet);
    ("reply-to-tweets", replyToTweetsJob);
    ("generate-scheduled-content", generateScheduledContent);
    ("analyze-trends", analyzeTrends);
    ("check-youtube-comments", checkAndReplyToYouTubeComments);
    ("fetch-youtube-comments-analysis", fetchYouTubeCommentsForAnalysis) ].

(** The property names of [Object.prototype]; each holds a function or,
    for [__proto__], an object, so each is truthy. *)
Definition Object_prototype : list string :=
  [ "constructor"; "hasOwnProperty"; "isPrototypeOf"; "propertyIsEnumerable";
    "toLocaleString"; "toString"; "valueOf"; "__proto__";
    "__defineGetter__"; "__defineSetter__"; "__lookupGetter__"; "__lookupSetter__" ].

Fixpoint own (table : list (string * JobFunction)) (key : string) : option JobFunction :=
  match table with
  | [] => None
  | (k, f) :: rest => if String.eqb k key then Some f else own rest key
  end.

(** [JOB_TASKS[jobName]]: an own property first, an inherited one next,
    [undefined] otherwise. *)
Definition JOB_TASKS_get (jobName : string) : option JobFunction :=
  match own JOB_TASKS jobName with
  | Some f => Some f
  | None =>
      if existsb (String.eqb jobName) Object_prototype
      then Some (Inherited jobName)
      else None
  end.

(** The parsed request body, for bodies whose members [action],
    [jobName] and [interval] are strings or missing. *)
Record Body := {
  action : option string;
  jobName : option string;
  interval : option string;
}.

(** The answers of the handler. *)
Inductive Answer :=
| Unauthorized
| MissingFields
| InvalidAction
| UnknownJob (jobName : string)
| NoSchedule
| Started (jobName schedule : string)
| Stopped (jobName : string) (wasRunning : bool)
| Failed.

Definition status (a : Answer) : nat :=
  match a with
  | Unauthorized => 401
  | MissingFields | InvalidAction | NoSchedule => 400
  | UnknownJob _ => 404
  | Started _ _ | Stopped _ _ => 200
  | Failed => 500
  end.

Definition quoted (s : string) : string := String dquote (s ++ String dquote "").

(** The [error] or [message] member of the answer. *)
Definition message (a : Answer) : string :=
  match a with
  | Unauthorized => "Unauthorized"
  | MissingFields => "Missing required fields: action and jobName"
  | InvalidAction =>
      "Invalid action. Must be " ++ quoted "start" ++ " or " ++ quoted "stop"
  | UnknownJob n => "Unknown job: " ++ n
  | NoSchedule => "No schedule found. Please configure the schedule first."
  | Started n e => "Job " ++ quoted n ++ " started with schedule: " ++ e
  | Stopped n true => "Job " ++ quoted n ++ " stopped"
  | Stopped n false => "Job " ++ quoted n ++ " was not running (already stopped)"
  | Failed => "Failed to control job"
  end.

Section WithEnvironment.

(** node-cron's [cron.validate]. *)
Variable cron_validate : string -> bool.

(** [schedule] after the fallback to the database, for a job name: the
    stored setting [<jobName>_interval] parsed as JSON, or taken as it is
    when it does not parse; nothing when the query finds no row. Stored
    values that parse to something other than a string are not covered. *)
Variable stored_schedule : string -> option string.

(** The POST handler on the singleton [scheduler]. [session] is whether
    [auth()] gave a session; a body of [None] is the JSON value [null],
    whose destructuring throws. *)
Definition POST (session : bool) (body : option Body) (s : Scheduler JobFunction)
  : Answer * Scheduler JobFunction :=
  if negb session then (Unauthorized, s)
  else
    match body with
    | None => (Failed, s)
    | Some b =>
        if negb (truthy (action b)) || negb (truthy (jobName b)) then (MissingFields, s)
        else
          let a := default "" (action b) in
          let n := default "" (jobName b) in
          if negb (existsb (String.eqb a) ["start"; "stop"]) then (InvalidAction, s)
          else
            match JOB_TASKS_get n with
            | None => (UnknownJob n, s)
            | Some task =>
                if String.eqb a "start" then
                  let schedule :=
                    if truthy (interval b) then interval b else stored_schedule n in
                  if negb (truthy schedule) then (NoSchedule, s)
                  else
                    let e := default "" schedule in
                    (Started n e,
                     registerOrUpdate cron_validate s
                       {| name := n; schedule := e; task := task; enabled := Some true |})
                else
                  let '(s', success) := stopJob s n in
                  (Stopped n success, s')
            end
    end.

End WithEnvironment.

(** Requests: start a job with an expression, stop a job. *)
Definition start_request (n e : string) : option Body :=
  Some {| action := Some "start"; jobName := Some n; interval := Some e |}.

Definition stop_request (n : string) : option Body :=
  Some {| action := Some "stop"; jobName := Some n; interval := None |}.

(** Example data: no stored schedules; a scheduler on which the reply
    job runs. *)
Definition nothing_stored (n : string) : option string := None.

Definition replying : Scheduler JobFunction :=
  registerOrUpdate five_or_six_fields Scheduling.empty
    {| name := "reply-to-tweets"; schedule := "0 */2 * * *";
       task := replyToTweetsJob; enabled := Some true |}.

(** The startup sequence: a scheduler on which the tweet job was
    registered and [start()] was not yet called. *)
Definition tweet_registered : Scheduler JobFunction :=
  register five_or_six_fields Scheduling.empty
    {| name := "ai-tweet-generation"; schedule := "0 10 * * *";
       task := generateAndPostTweet; enabled := Some true |}.

End JobsControl.

(** * The workflow validation script

    [scripts/validate-workflow.ts]: the checks beside
    [validateVariableReferences], and [validateWorkflow], which runs them
    all and decides how the script ends. *)

Module ValidateScript.

Import Json Validate.

(** [getModuleRegistry()]: categories of modules of functions. *)
Record ModuleEntry := {
  module_name : string;
  functions : list string;
}.

Record Category := {
  category_name : string;
  modules : list ModuleEntry;
}.

(** [config.outputDisplay]. The type is whatever string the file holds:
    the union of the interface is not checked when the JSON is parsed. *)
Record DisplayColumn := {
  key : string;
  label : string;
  column_type : string;
}.

Record OutputDisplay := {
  display_type : string;
  columns : option (list DisplayColumn);
  content : option string;
}.

Record Metadata := {
  author : option string;
  tags : option (list string);
  category : option string;
  requiresCredentials : option (list string);
}.

(** The whole of [interface WorkflowExport]: the part the variable pass
    reads, the output display and the metadata. *)
Record Document := {
  export : WorkflowExport;
  outputDisplay : option OutputDisplay;
  metadata : option Metadata;
}.

Definition quoted (s : string) : string := String dquote (s ++ String dquote "").

Definition nl : string := String "010"%char "".

(** [s.includes(sub)]. *)
Fixpoint includes (s sub : string) : bool :=
  String.prefix sub s
  || match s with
     | EmptyString => false
     | String _ rest => includes rest sub
     end.

Section WithRegistry.

(** [String.prototype.toLowerCase]. *)
Variable toLowerCase : string -> string.

Variable registry : list Category.

(** The path of a function of a module of a category. *)
Definition path (c : Category) (m : ModuleEntry) (fn : string) : string :=
  toLowerCase (category_name c) ++ "." ++ module_name m ++ "." ++ fn.

(** The three nested [forEach] that fill [validPaths]. *)
Definition add_functions (c : Category) (m : ModuleEntry) (validPaths : gset string)
  : gset string :=
  foldl (fun acc fn => {[ path c m fn ]} ∪ acc) validPaths (functions m).

Definition add_modules (c : Category) (validPaths : gset string) : gset string :=
  foldl (fun acc m => add_functions c m acc) validPaths (modules c).

Definition validPaths : gset string :=
  foldl (fun acc c => add_modules c acc) ∅ registry.

Definition not_found (index : nat) (step : Step) : string :=
  "Step " ++ pretty (index + 1) ++ " (" ++ id step ++ "): Module "
  ++ quoted (module step) ++ " not found in registry".

(** The [forEach] over the steps, from position [index] on. *)
Fixpoint check_paths (l : list Step) (index : nat) (errors : list string) : list string :=
  match l with
  | [] => errors
  | step :: rest =>
      check_paths rest (S index)
        (if negb (bool_decide (module step ∈ validPaths))
         then (errors ++ [not_found index step])%list
         else errors)
  end.

(** [validateModulePaths]. *)
Definition validateModulePaths (workflow : WorkflowExport) : list string :=
  check_paths (steps workflow) 0 [].

(** A step whose module is the path of a registered function. *)
Definition registered (step : Step) : Prop :=
  exists c m fn,
    In c registry /\ In m (modules c) /\ In fn (functions m)
    /\ module step = path c m fn.

End WithRegistry.

(** The warnings of [validateOutputDisplay]. *)
Definition ensure (displayType : string) (lastStep : Step) (what : string) : string :=
  "⚠️  Output display type is " ++ quoted displayType ++ " - ensure final step ("
  ++ id lastStep ++ ") returns " ++ what.

Definition columns_missing : string :=
  "⚠️  Table display should define columns for proper formatting".

Definition likely_error (lastStep : Step) : string :=
  "❌ LIKELY ERROR: Step " ++ quoted (id lastStep) ++ " uses "
  ++ quoted (module lastStep)
  ++ " which typically returns a single value, but output display is set to "
  ++ quoted "table" ++ " (requires array)".

Definition solution : string :=
  "   💡 Solution: Either change the final step to return an array, or change outputDisplay.type to "
  ++ quoted "text" ++ " or " ++ quoted "json".

Definition reminder (lastStep : Step) : string :=
  "⚠️  REMINDER: Step " ++ quoted (id lastStep)
  ++ " uses an AI generation module. If it returns JSON as a string, the system will auto-parse it for table display.".

Definition best_practice : string :=
  "   💡 Best practice: Ensure your AI prompt explicitly requests JSON array format and mentions "
  ++ quoted "Return ONLY valid JSON, no markdown code blocks".

Definition commonSingleValueModules : list string :=
  ["average"; "sum"; "count"; "min"; "max"; "hashSHA256"; "generateUUID"; "now"; "toISO"].

Definition aiModules : list string :=
  ["generateText"; "generateFast"; "generateQuality"; "generateClaudeFast";
   "generateClaudeQuality"].

(** The [switch (displayType)]. *)
Definition by_type (display : OutputDisplay) (lastStep : Step) : list string :=
  let displayType := display_type display in
  if String.eqb displayType "table" then
    ensure "table" lastStep "an array of objects"
    :: match columns display with
       | None | Some [] => [columns_missing]
       | Some (_ :: _) => []
       end
  else if String.eqb displayType "list" then [ensure "list" lastStep "an array"]
  else if String.eqb displayType "text" || String.eqb displayType "markdown" then
    [ensure displayType lastStep "a string"]
  else if String.eqb displayType "number" then [ensure "number" lastStep "a number"]
  else if String.eqb displayType "image" then
    [ensure "image" lastStep "an image URL or buffer"]
  else if String.eqb displayType "images" then
    [ensure "images" lastStep "an array of image URLs or buffers"]
  else [].

(** The checks "for common mistakes". *)
Definition common_mistakes (display : OutputDisplay) (lastStep : Step) : list string :=
  if String.eqb (display_type display) "table" then
    ((if existsb (fun m => includes (module lastStep) m) commonSingleValueModules
      then [likely_error lastStep; solution]
      else [])
     ++ (if existsb (fun m => includes (module lastStep) m) aiModules
         then [reminder lastStep; best_practice]
         else []))%list
  else [].

(** [validateOutputDisplay]. *)
Definition validateOutputDisplay (workflow : Document) : list string :=
  match outputDisplay workflow with
  | None => []
  | Some display =>
      match last (steps (export workflow)) with
      | None => ["No steps defined in workflow"]
      | Some lastStep => (by_type display lastStep ++ common_mistakes display lastStep)%list
      end
  end.

(** ** The script itself, on the value [JSON.parse] returns

    [workflow = JSON.parse(workflowJson)] is typed [WorkflowExport], but
    nothing checks that type when the script runs: the value is whatever
    the text holds. What follows reads it the way JavaScript does, so that
    a member that is missing or of another kind throws where the script
    would throw, and the [try]/[catch] around the whole of
    [validateWorkflow] is part of the model. *)

(** A computation that returns a value or throws. *)
Inductive Try (A : Type) := Got (a : A) | Thrown.

Arguments Got {A} a.
Arguments Thrown {A}.

Definition and_then {A B : Type} (t : Try A) (k : A -> Try B) : Try B :=
  match t with
  | Got a => k a
  | Thrown => Thrown
  end.

Notation "'attempt' x ':=' t 'in' k" := (and_then t (fun x => k))
  (at level 10, x name, t at level 100, k at level 200).

(** The member [k] of a parsed object: [JSON.parse] keeps the last of
    the members of one name. *)
Fixpoint field (k : string) (fields : list (string * JSON)) : option JSON :=
  match fields with
  | [] => None
  | (k', v) :: rest =>
      match field k rest with
      | Some later => Some later
      | None => if String.eqb k' k then Some v else None
      end
  end.

(** [v.k], where [None] is [undefined] and [k] is one of the names the
    script reads ([config], [steps], [id], [module], [inputs], [outputAs],
    [outputDisplay], [type], [columns], [name], [description], [version],
    [metadata], [category], [tags], [requiresCredentials]): none of them
    is a member of a prototype, so that a string, a number, a boolean
    and an array have no such member. Reading a member of [null] or
    [undefined] throws. *)
Definition read (v : option JSON) (k : string) : Try (option JSON) :=
  match v with
  | None | Some JNull => Thrown
  | Some (JObj fields) => Got (field k fields)
  | Some _ => Got None
  end.

(** [v?.k] for the same names. *)
Definition read_if_any (v : option JSON) (k : string) : option JSON :=
  match v with
  | Some (JObj fields) => field k fields
  | _ => None
  end.

(** JavaScript truthiness. *)
Definition json_truthy (v : JSON) : bool :=
  match v with
  | JNull => false
  | JBool b => b
  | JNum n => negb (n =? 0)%Z
  | JStr s => negb (String.eqb s "")
  | JArr _ | JObj _ => true
  end.

Definition truthy_value (v : option JSON) : bool :=
  match v with
  | Some x => json_truthy x
  | None => false
  end.

(** Whether [v?.length] is truthy: the length of an array or of a
    string, the member of that name of an object. *)
Definition length_truthy (v : option JSON) : bool :=
  match v with
  | Some (JArr items) => negb (Nat.eqb (length items) 0)
  | Some (JStr s) => negb (String.eqb s "")
  | Some (JObj fields) => truthy_value (field "length" fields)
  | _ => false
  end.

(** Whether [v.length === 0] for a truthy [v]. *)
Definition length_is_zero (v : option JSON) : bool :=
  match v with
  | Some (JArr items) => Nat.eqb (length items) 0
  | Some (JStr s) => String.eqb s ""
  | Some (JObj fields) =>
      match field "length" fields with
      | Some (JNum n) => (n =? 0)%Z
      | _ => false
      end
  | _ => false
  end.

(** The conversion to a string that a template literal and [join] make.
    An array joins its elements with a comma, [null] among them giving
    the empty text; an object gives [[object Object]], unless it has a
    member [toString] of its own, which is no function in a parsed
    document, so that the conversion throws. A number is written as
    [JSON.stringify] writes it. *)
Fixpoint to_text (v : JSON) : Try string :=
  match v with
  | JNull => Got "null"
  | JBool true => Got "true"
  | JBool false => Got "false"
  | JNum n => Got (stringify (JNum n))
  | JStr s => Got s
  | JArr items =>
      (fix elements (l : list JSON) : Try string :=
         match l with
         | [] => Got ""
         | x :: rest =>
             attempt here := match x with JNull => Got "" | _ => to_text x end in
             match rest with
             | [] => Got here
             | _ => attempt more := elements rest in Got (here ++ "," ++ more)
             end
         end) items
  | JObj fields =>
      match field "toString" fields with
      | Some _ => Thrown
      | None => Got "[object Object]"
      end
  end.

(** [`${v}`]. *)
Definition text_of (v : option JSON) : Try string :=
  match v with
  | None => Got "undefined"
  | Some x => to_text x
  end.

(** [v.join(sep)]: only an array has a [join] to call. *)
Fixpoint join_items (sep : string) (l : list JSON) : Try string :=
  match l with
  | [] => Got ""
  | x :: rest =>
      attempt here := match x with JNull => Got "" | _ => to_text x end in
      match rest with
      | [] => Got here
      | _ => attempt more := join_items sep rest in Got (here ++ sep ++ more)
      end
  end.

Definition joined (sep : string) (v : option JSON) : Try string :=
  match v with
  | Some (JArr items) => join_items sep items
  | _ => Thrown
  end.

(** [workflow.config.steps], on which [forEach] is called: anything but
    an array has no [forEach], and the call throws. The two passes run
    before anything else reads the steps, so that wherever the script
    reads [config.steps] later the value is this array. *)
Definition steps_of (workflow : JSON) : Try (list JSON) :=
  attempt config := read (Some workflow) "config" in
  attempt steps := read config "steps" in
  match steps with
  | Some (JArr items) => Got items
  | _ => Thrown
  end.

(** [`${step.id}`]. *)
Definition id_text (step : JSON) : Try string :=
  attempt i := read (Some step) "id" in text_of i.

Section Parsed.

Variable toLowerCase : string -> string.
Variable registry : list Category.

(** [validPaths.has(step.module)]: the set holds strings only. *)
Definition has_path (m : option JSON) : bool :=
  match m with
  | Some (JStr s) => bool_decide (s ∈ validPaths toLowerCase registry)
  | _ => false
  end.

Definition not_found_text (index : nat) (i m : string) : string :=
  "Step " ++ pretty (index + 1) ++ " (" ++ i ++ "): Module "
  ++ quoted m ++ " not found in registry".

(** The [forEach] of [validateModulePaths] over the parsed steps. *)
Fixpoint check_paths_parsed (l : list JSON) (index : nat) (errors : list string)
  : Try (list string) :=
  match l with
  | [] => Got errors
  | step :: rest =>
      attempt m := read (Some step) "module" in
      if negb (has_path m) then
        attempt i := id_text step in
        attempt shown := text_of m in
        check_paths_parsed rest (S index) (errors ++ [not_found_text index i shown])
      else check_paths_parsed rest (S index) errors
  end.

(** [validateModulePaths(workflow)]. *)
Definition validateModulePaths_parsed (workflow : JSON) : Try (list string) :=
  attempt items := steps_of workflow in
  check_paths_parsed items 0 [].

End Parsed.

Definition undeclared_text (index : nat) (i v : string) : string :=
  "Step " ++ pretty (index + 1) ++ " (" ++ i
  ++ "): References undeclared variable " ++ quoted v.

(** The callback of the inner [forEach] of [validateVariableReferences]. *)
Definition check_ref_parsed (declaredVariables : gset string) (index : nat) (step : JSON)
    (ref : string) : Try (list string) :=
  match varName ref with
  | Some v =>
      if negb (String.eqb v "")
         && negb (bool_decide (v ∈ declaredVariables))
         && negb (String.eqb v "user")
      then attempt i := id_text step in Got [undeclared_text index i v]
      else Got []
  | None => Got []
  end.

Fixpoint check_refs_parsed (declaredVariables : gset string) (index : nat) (step : JSON)
    (refs : list string) (errors : list string) : Try (list string) :=
  match refs with
  | [] => Got errors
  | ref :: rest =>
      attempt more := check_ref_parsed declaredVariables index step ref in
      check_refs_parsed declaredVariables index step rest (errors ++ more)
  end.

(** [if (step.outputAs) declaredVariables.add(step.outputAs)]: a value
    that is no string can be added, and is never found by
    [has(varName)], which asks for a string. *)
Definition declare (declaredVariables : gset string) (outputAs : option JSON)
  : gset string :=
  match outputAs with
  | Some (JStr s) => if String.eqb s "" then declaredVariables else {[ s ]} ∪ declaredVariables
  | _ => declaredVariables
  end.

(** The body of the outer [forEach]. [JSON.stringify(undefined)] is
    [undefined], on which [match] cannot be called: a step without
    [inputs] throws. *)
Definition visit_parsed (index : nat) (step : JSON) (st : list string * gset string)
  : Try (list string * gset string) :=
  let '(errors, declaredVariables) := st in
  attempt inputs := read (Some step) "inputs" in
  match inputs with
  | None => Thrown
  | Some v =>
      let inputsStr := stringify v in
      attempt errors' :=
        check_refs_parsed declaredVariables index step (variableRefs inputsStr) errors in
      attempt outputAs := read (Some step) "outputAs" in
      Got (errors', declare declaredVariables outputAs)
  end.

Fixpoint forEach_parsed (l : list JSON) (index : nat) (st : list string * gset string)
  : Try (list string * gset string) :=
  match l with
  | [] => Got st
  | step :: rest =>
      attempt st' := visit_parsed index step st in
      forEach_parsed rest (S index) st'
  end.

(** [validateVariableReferences(workflow)]. *)
Definition validateVariableReferences_parsed (workflow : JSON) : Try (list string) :=
  attempt items := steps_of workflow in
  attempt st := forEach_parsed items 0 ([], ∅) in
  Got (fst st).

Definition ensure_text (displayType i what : string) : string :=
  "⚠️  Output display type is " ++ quoted displayType ++ " - ensure final step ("
  ++ i ++ ") returns " ++ what.

Definition likely_error_text (i m : string) : string :=
  "❌ LIKELY ERROR: Step " ++ quoted i ++ " uses " ++ quoted m
  ++ " which typically returns a single value, but output display is set to "
  ++ quoted "table" ++ " (requires array)".

Definition reminder_text (i : string) : string :=
  "⚠️  REMINDER: Step " ++ quoted i
  ++ " uses an AI generation module. If it returns JSON as a string, the system will auto-parse it for table display.".

(** [displayType === s]. *)
Definition is_type (displayType : option JSON) (s : string) : bool :=
  match displayType with
  | Some (JStr t) => String.eqb t s
  | _ => false
  end.

(** The [switch (displayType)], for a truthy last step. *)
Definition by_type_parsed (display : JSON) (displayType : option JSON) (lastStep : JSON)
  : Try (list string) :=
  if is_type displayType "table" then
    attempt i := id_text lastStep in
    attempt columns := read (Some display) "columns" in
    Got (ensure_text "table" i "an array of objects"
         :: if negb (truthy_value columns) || length_is_zero columns
            then [columns_missing] else [])
  else if is_type displayType "list" then
    attempt i := id_text lastStep in Got [ensure_text "list" i "an array"]
  else if is_type displayType "text" then
    attempt i := id_text lastStep in Got [ensure_text "text" i "a string"]
  else if is_type displayType "markdown" then
    attempt i := id_text lastStep in Got [ensure_text "markdown" i "a string"]
  else if is_type displayType "number" then
    attempt i := id_text lastStep in Got [ensure_text "number" i "a number"]
  else if is_type displayType "image" then
    attempt i := id_text lastStep in Got [ensure_text "image" i "an image URL or buffer"]
  else if is_type displayType "images" then
    attempt i := id_text lastStep in
    Got [ensure_text "images" i "an array of image URLs or buffers"]
  else Got [].

(** [names.some(mod => lastStep.module.includes(mod))]: a string has the
    [includes] that looks for a piece, an array the one that looks for
    an element; on anything else the call throws, for the first name. *)
Definition module_includes_some (m : option JSON) (names : list string) : Try bool :=
  match m with
  | Some (JStr s) => Got (existsb (fun n => includes s n) names)
  | Some (JArr items) =>
      Got (existsb (fun n =>
                      existsb (fun x => match x with
                                        | JStr s => String.eqb s n
                                        | _ => false
                                        end) items) names)
  | _ => match names with [] => Got false | _ :: _ => Thrown end
  end.

(** The checks "for common mistakes". *)
Definition common_mistakes_parsed (displayType : option JSON) (lastStep : JSON)
  : Try (list string) :=
  if is_type displayType "table" then
    attempt m := read (Some lastStep) "module" in
    attempt single := module_includes_some m commonSingleValueModules in
    attempt first :=
      (if single : bool then
         attempt i := id_text lastStep in
         attempt shown := text_of m in
         Got [likely_error_text i shown; solution]
       else Got []) in
    attempt ai := module_includes_some m aiModules in
    attempt second :=
      (if ai : bool then attempt i := id_text lastStep in Got [reminder_text i; best_practice]
       else Got []) in
    Got (first ++ second)%list
  else Got [].

(** [validateOutputDisplay(workflow)]. *)
Definition validateOutputDisplay_parsed (workflow : JSON) : Try (list string) :=
  attempt config := read (Some workflow) "config" in
  attempt display := read config "outputDisplay" in
  match display with
  | None => Got []
  | Some d =>
      if negb (json_truthy d) then Got []
      else
        attempt displayType := read display "type" in
        attempt items := steps_of workflow in
        match last items with
        | None => Got ["No steps defined in workflow"]
        | Some lastStep =>
            if negb (json_truthy lastStep) then Got ["No steps defined in workflow"]
            else
              attempt first := by_type_parsed d displayType lastStep in
              attempt second := common_mistakes_parsed displayType lastStep in
              Got (first ++ second)%list
        end
  end.

(** What the script writes: a text, for [console.error(error)] the
    thrown value, and for [console.error(text, error)] both. *)
Inductive Line := Text (s : string) | ErrorValue | TextAndError (s : string).

Inductive Stream := stdout | stderr.

Definition Console := list (Stream * Line).

Definition log (s : string) : Stream * Line := (stdout, Text s).
Definition error (s : string) : Stream * Line := (stderr, Text s).

(** How a piece of the script ends: with a value, by throwing, or with
    [process.exit(code)]. *)
Inductive Result (A : Type) := Value (a : A) | Throws | Exits (code : nat).

Arguments Value {A} a.
Arguments Throws {A}.
Arguments Exits {A} code.

(** A piece of the script: from what was written before it to how it
    ends and what is written after it. *)
Definition Script (A : Type) : Type := Console -> Result A * Console.

Definition ret {A : Type} (a : A) : Script A := fun c => (Value a, c).

Definition bind {A B : Type} (m : Script A) (k : A -> Script B) : Script B :=
  fun c =>
    match m c with
    | (Value a, c') => k a c'
    | (Throws, c') => (Throws, c')
    | (Exits code, c') => (Exits code, c')
    end.

Notation "x <- m ;; k" := (bind m (fun x => k))
  (at level 100, m at next level, right associativity).
Notation "m ;; k" := (bind m (fun _ => k))
  (at level 100, right associativity).

Definition write (line : Stream * Line) : Script unit :=
  fun c => (Value tt, (c ++ [line])%list).

Definition write_all (lines : Console) : Script unit :=
  fun c => (Value tt, (c ++ lines)%list).

Definition process_exit {A : Type} (code : nat) : Script A :=
  fun c => (Exits code, c).

Definition evaluate {A : Type} (t : Try A) : Script A :=
  fun c => (match t with Got a => Value a | Thrown => Throws end, c).

(** [try { body } catch (error) { handler }]. *)
Definition try_catch {A : Type} (body handler : Script A) : Script A :=
  fun c =>
    match body c with
    | (Throws, c') => handler c'
    | ended => ended
    end.

(** A piece that runs through: it returns [a] after writing [lines]. *)
Definition writes {A : Type} (m : Script A) (a : A) (lines : Console) : Prop :=
  forall c, m c = (Value a, (c ++ lines)%list).

(** A piece that ends the script with [code] after writing [lines]. *)
Definition exits {A : Type} (m : Script A) (code : nat) (lines : Console) : Prop :=
  forall c, m c = (Exits code, (c ++ lines)%list).

(** A piece that throws after writing [lines]. *)
Definition throws {A : Type} (m : Script A) (lines : Console) : Prop :=
  forall c, m c = (Throws, (c ++ lines)%list).

(** A piece that never ends the script with another code than 1. *)
Definition exits_with_1_only {A : Type} (m : Script A) : Prop :=
  forall c code, fst (m c) = Exits code -> code = 1.

(** The answer of [validateWorkflowExport]. *)
Record Validation := {
  valid : bool;
  errors : list string;
}.

Definition bullet (e : string) : string := "   • " ++ e.

Definition guide : Console :=
  [ log (nl ++ "💡 Output display type guide:");
    log "   • table  → Array of objects with columns defined";
    log "   • list   → Array of primitives (strings/numbers)";
    log "   • text   → String value";
    log "   • number → Numeric value";
    log "   • json   → Any value (auto-formatted)" ].

(** The report on the variable references. *)
Definition variables_report (varErrors : list string) : Console :=
  match varErrors with
  | [] => [log "✅ All variable references are valid"]
  | _ :: _ =>
      ([error (nl ++ "⚠️  Variable reference warnings:" ++ nl)]
       ++ map (fun e => error (bullet e)) varErrors
       ++ [log (nl ++ "💡 Make sure variables are declared with " ++ quoted "outputAs"
                ++ " before being used")])%list
  end.

(** The report on the output display. *)
Definition display_report (displayWarnings : list string) : Console :=
  match displayWarnings with
  | [] => [log "✅ Output display configuration looks good (or will use auto-detection)"]
  | _ :: _ =>
      let hasErrors := existsb (fun w => includes w "❌") displayWarnings in
      ([if hasErrors
        then error (nl ++ "❌ Output display configuration errors:" ++ nl)
        else log (nl ++ "⚠️  Output display reminders:" ++ nl)]
       ++ map (fun w => log ("   " ++ w)) displayWarnings
       ++ guide)%list
  end.

Definition started_line : Stream * Line := log ("🔍 Validating workflow..." ++ nl).

Definition complete_line : Stream * Line := log (nl ++ "✅ Workflow validation complete!").

(** What the [catch] around the whole of [validateWorkflow] writes. *)
Definition caught_line : Stream * Line := (stderr, TextAndError "❌ Validation error:").

(** One line of the summary: [console.log(`${label}${workflow[k]}`)]. *)
Definition log_member (label : string) (workflow : JSON) (k : string) : Script unit :=
  shown <- evaluate (attempt v := read (Some workflow) k in text_of v) ;;
  write (log (label ++ shown)).

(** The summary at the end of a validation. *)
Definition summary (workflow : JSON) : Script unit :=
  write (log (nl ++ "📊 Workflow Summary:")) ;;
  log_member "   Name: " workflow "name" ;;
  log_member "   Description: " workflow "description" ;;
  items <- evaluate (steps_of workflow) ;;
  write (log ("   Steps: " ++ pretty (length items))) ;;
  log_member "   Version: " workflow "version" ;;
  metadata <- evaluate (read (Some workflow) "metadata") ;;
  (if truthy_value (read_if_any metadata "category") then
     shown <- evaluate (text_of (read_if_any metadata "category")) ;;
     write (log ("   Category: " ++ shown))
   else ret tt) ;;
  (if length_truthy (read_if_any metadata "tags") then
     shown <- evaluate (joined ", " (read_if_any metadata "tags")) ;;
     write (log ("   Tags: " ++ shown))
   else ret tt) ;;
  (if length_truthy (read_if_any metadata "requiresCredentials") then
     shown <- evaluate (joined ", " (read_if_any metadata "requiresCredentials")) ;;
     write (log ("   Required credentials: " ++ shown))
   else ret tt) ;;
  write complete_line ;;
  write (log (nl ++ "💡 Import with: npx tsx scripts/import-workflow.ts <file>")).

Section WithRuntime.

Variable toLowerCase : string -> string.
Variable registry : list Category.

(** [JSON.parse] on the text of the file, [None] when it throws, and
    [validateWorkflowExport], which is given whatever was parsed. *)
Variable JSON_parse : string -> option JSON.
Variable validateWorkflowExport : JSON -> Try Validation.

(** The body of the [try] of [validateWorkflow]. *)
Definition validation_steps (workflowJson : string) : Script unit :=
  write started_line ;;
  workflow <- match JSON_parse workflowJson with
              | Some parsed => ret parsed
              | None =>
                  write (error "❌ Invalid JSON format") ;;
                  write (stderr, ErrorValue) ;;
                  process_exit 1
              end ;;
  validation <- evaluate (validateWorkflowExport workflow) ;;
  (if negb (valid validation) then
     write (error ("❌ Workflow validation failed:" ++ nl)) ;;
     write_all (map (fun e => error (bullet e)) (errors validation)) ;;
     process_exit 1
   else ret tt) ;;
  write (log "✅ Basic structure validation passed") ;;
  write (log (nl ++ "🔍 Checking module paths...")) ;;
  moduleErrors <- evaluate (validateModulePaths_parsed toLowerCase registry workflow) ;;
  (match moduleErrors with
   | _ :: _ =>
       write (error (nl ++ "❌ Invalid module paths found:" ++ nl)) ;;
       write_all (map (fun e => error (bullet e)) moduleErrors) ;;
       write (log (nl ++ "💡 Tip: Run `npx tsx scripts/search-modules.ts --list` to see all available modules")) ;;
       process_exit 1
   | [] => ret tt
   end) ;;
  write (log "✅ All module paths are valid") ;;
  write (log (nl ++ "🔍 Checking variable references...")) ;;
  varErrors <- evaluate (validateVariableReferences_parsed workflow) ;;
  write_all (variables_report varErrors) ;;
  write (log (nl ++ "🔍 Checking output display configuration...")) ;;
  displayWarnings <- evaluate (validateOutputDisplay_parsed workflow) ;;
  write_all (display_report displayWarnings) ;;
  summary workflow.

(** [validateWorkflow(workflowJson)], started on an empty console. *)
Definition validateWorkflow (workflowJson : string) : Result unit * Console :=
  try_catch (validation_steps workflowJson)
    (write caught_line ;; process_exit 1)
    [].

End WithRuntime.

(** ** Documents that have the members of [interface WorkflowExport]

    [represents parsed workflow] says that the parsed value has, for each
    member of the interface, a member of the declared kind with the value
    the typed [workflow] holds; other members may stand beside them. *)
Definition represents_step (parsed : JSON) (step : Step) : Prop :=
  exists fields,
    parsed = JObj fields
    /\ field "id" fields = Some (JStr (id step))
    /\ field "module" fields = Some (JStr (module step))
    /\ field "inputs" fields = Some (JObj (inputs step))
    /\ field "outputAs" fields = option_map JStr (outputAs step).

Definition represents_display (parsed : option JSON) (display : option OutputDisplay)
  : Prop :=
  match display with
  | None => parsed = None
  | Some d =>
      exists fields,
        parsed = Some (JObj fields)
        /\ field "type" fields = Some (JStr (display_type d))
        /\ match columns d with
           | None => field "columns" fields = None
           | Some cols =>
               exists items,
                 field "columns" fields = Some (JArr items)
                 /\ length items = length cols
           end
  end.

Definition strings (l : list string) : JSON := JArr (map JStr l).

Definition represents_metadata (parsed : option JSON) (data : option Metadata) : Prop :=
  match data with
  | None => parsed = None
  | Some m =>
      exists fields,
        parsed = Some (JObj fields)
        /\ field "category" fields = option_map JStr (category m)
        /\ field "tags" fields = option_map strings (tags m)
        /\ field "requiresCredentials" fields = option_map strings (requiresCredentials m)
  end.

Definition represents (parsed : JSON) (workflow : Document) : Prop :=
  exists fields config items,
    parsed = JObj fields
    /\ field "version" fields = Some (JStr (version (export workflow)))
    /\ field "name" fields = Some (JStr (name (export workflow)))
    /\ field "description" fields = Some (JStr (description (export workflow)))
    /\ field "config" fields = Some (JObj config)
    /\ field "steps" config = Some (JArr items)
    /\ Forall2 represents_step items (steps (export workflow))
    /\ represents_display (field "outputDisplay" config) (outputDisplay workflow)
    /\ represents_metadata (field "metadata" fields) (metadata workflow).

(** Example data: a registry with two categories, and the chat workflow
    shown as a table. *)
Definition ascii_lower (c : ascii) : ascii :=
  let n := nat_of_ascii c in
  if (65 <=? n)%nat && (n <=? 90)%nat then ascii_of_nat (n + 32) else c.

Fixpoint lower (s : string) : string :=
  match s with
  | EmptyString => EmptyString
  | String c rest => String (ascii_lower c) (lower rest)
  end.

Definition small_registry : list Category :=
  [ {| category_name := "AI";
       modules := [ {| module_name := "openai";
                       functions := ["generateText"; "chat"] |} ] |};
    {| category_name := "Utilities";
       modules := [ {| module_name := "string-utils"; functions := ["toUpperCase"] |};
                    {| module_name := "array-utils"; functions := ["first"; "sum"] |} ] |} ].

Definition summing_step : Step :=
  {| id := "report";
     module := "utilities.text.summarize";
     inputs := [("text", JStr "{{answer}}")];
     outputAs := Some "rows" |}.

Definition table_display : OutputDisplay :=
  {| display_type := "table"; columns := None; content := None |}.

Definition summary_table : Document :=
  {| export := {| version := "1.0"; name := "Summary table";
                  description := "Summarises an answer";
                  steps := [reply_step; summing_step] |};
     outputDisplay := Some table_display;
     metadata := None |}.

Definition chat_document : Document :=
  {| export := chat_workflow; outputDisplay := None; metadata := None |}.

(** The chat workflow as [JSON.parse] returns it, and the same with a
    first step that has lost its [inputs]. *)
Definition parsed_step (step : Step) : JSON :=
  JObj ([("id", JStr (id step)); ("module", JStr (module step));
         ("inputs", JObj (inputs step))]
        ++ match outputAs step with
           | Some o => [("outputAs", JStr o)]
           | None => []
           end).

Definition parsed_export (workflow : WorkflowExport) (items : list JSON) : JSON :=
  JObj [("version", JStr (version workflow)); ("name", JStr (name workflow));
        ("description", JStr (description workflow));
        ("config", JObj [("steps", JArr items)])].

Definition chat_parsed : JSON :=
  parsed_export chat_workflow (map parsed_step (steps chat_workflow)).

Definition without_inputs : JSON :=
  parsed_export chat_workflow
    (JObj [("id", JStr "reply"); ("module", JStr "ai.openai.generateText")]
     :: map parsed_step [shout_step; last_step]).

Definition parse_chat (text : string) : option JSON :=
  if String.eqb text "chat" then Some chat_parsed
  else if String.eqb text "no inputs" then Some without_inputs
  else None.

Definition always_valid (parsed : JSON) : Try Validation :=
  Got {| valid := true; errors := [] |}.

End ValidateScript.

(** * The OpenAI module: streaming, and the optional parameters

    [src/modules/ai/openai.ts]: [streamCompletion], and what the functions
    of the module send of [max_tokens] and [temperature]. *)

Module OpenAIStreaming.

Import Json OpenAI.

(** A request is bare when it carries neither of the two optional
    parameters. *)
Definition bare (p : ChatParams) : bool :=
  match p_max_tokens p, p_temperature p with
  | None, None => true
  | _, _ => false
  end.

(** The requests the comment in the source asks for: the models of the
    GPT-5, o1 and o3 families get no optional parameters. *)
Definition supported (p : ChatParams) : bool :=
  negb (isGPT5 (p_model p)) || bare p.

(** The stream a request with [stream: true] gives: for each chunk its
    [choices[0]?.delta?.content], and the error that ends the iteration,
    if one does. *)
Record ChunkStream := {
  chunks : list (option string);
  failure : option string;
}.

Section WithApi.

Variable OPENAI_API_KEY : option string.

(** The service on requests with [stream: true]. *)
Variable stream_service : nat -> ChatParams -> Completion ChunkStream.

(** What the loop [for await (const chunk of stream)] yields. *)
Fixpoint yields (l : list (option string)) : list string :=
  match l with
  | [] => []
  | content :: rest =>
      if truthy content then default "" content :: yields rest else yields rest
  end.

(** [streamCompletion], run to its end: the values it yields, in order,
    how it ends, and the world. *)
Definition streamCompletion (options : OpenAICompletionOptions) (w : World)
  : list string * Completion unit * World :=
  if negb (openaiClient OPENAI_API_KEY)
  then ([], Threw "OpenAI client not initialized. Set OPENAI_API_KEY.", w)
  else
    let model' := or_else (model options) "gpt-4o-mini" in
    let params :=
      {| p_model := model';
         p_messages := messages options;
         p_image_url := None;
         p_max_tokens := if isGPT5 model' then None else maxTokens options;
         p_temperature := if isGPT5 model' then None else temperature options |} in
    let w1 := record (Requested model' 60000) w in
    match stream_service (requests w) params with
    | Threw e => ([], Threw e, w1)
    | Returned stream =>
        (yields (chunks stream),
         match failure stream with
         | Some e => Threw e
         | None => Returned tt
         end,
         w1)
    end.

End WithApi.

(** The text of a list of pieces. *)
Definition text (pieces : list string) : string := fold_right String.append "" pieces.

(** Example data: a service that refuses the optional parameters for
    the models that do not take them, as the comment in the source says
    of the real one, and answers every other request. *)
Definition strict (n : nat) (p : ChatParams) : Completion ChatResponse :=
  if supported p
  then Returned {| message_content := Some "Hello"; finish_reason := Some "stop" |}
  else Threw "Unsupported parameter".

Definition reasoning_options : OpenAICompletionOptions :=
  {| messages := [{| role := user; body := "Say hello" |}];
     model := Some "o1-mini"; maxTokens := Some 100%Z;
     temperature := Some (7 # 10)%Q |}.

Definition hello_stream (n : nat) (p : ChatParams) : Completion ChunkStream :=
  Returned {| chunks := [None; Some "Hel"; Some ""; Some "lo"; None];
              failure := None |}.

End OpenAIStreaming.

(** * The BullMQ job setup

    [loadJobSettings], [initializeBullMQJobs] and [isBullMQAvailable] of
    the job setup that replaces node-cron when REDIS_URL is set. *)

Module ScheduledJobs.

Import Json JobsControl.

Definition JOBS_QUEUE : string := "scheduled-jobs".

(** A row of [appSettingsTable], as far as the code reads it. *)
Record Setting := {
  key : string;
  value : string;
}.

(** The object [acc] of the [reduce]: its own members, latest first, and
    its prototype. Assigning to the member [__proto__] replaces the
    prototype when the value is an object, an array or [null], and does
    nothing otherwise. *)
Inductive Prototype :=
| ObjectPrototype
| NullPrototype
| ObjectValue (fields : list (string * JSON))
| ArrayValue.

Record Accumulator := {
  members : list (string * JSON);
  proto : Prototype;
}.

Definition assign (acc : Accumulator) (k : string) (v : JSON) : Accumulator :=
  if String.eqb k "__proto__" then
    match v with
    | JObj fields => {| members := members acc; proto := ObjectValue fields |}
    | JArr _ => {| members := members acc; proto := ArrayValue |}
    | JNull => {| members := members acc; proto := NullPrototype |}
    | _ => acc
    end
  else {| members := (k, v) :: members acc; proto := proto acc |}.

(** The first entry of a list of members for a name. *)
Fixpoint first_member (k : string) (fields : list (string * JSON)) : option JSON :=
  match fields with
  | [] => None
  | (k', v) :: rest => if String.eqb k' k then Some v else first_member k rest
  end.

(** A member of a parsed object: the last of the entries for a name. *)
Definition parsed_member (k : string) (fields : list (string * JSON)) : option JSON :=
  first_member k (rev fields).

(** [acc.enabled] and [acc.interval]: an own member, or one of the
    prototype; neither name is a member of [Object.prototype] or of an
    array. *)
Definition get (acc : Accumulator) (k : string) : option JSON :=
  match first_member k (members acc) with
  | Some v => Some v
  | None =>
      match proto acc with
      | ObjectValue fields => parsed_member k fields
      | _ => None
      end
  end.

(** [key.replace(prefix, '')] on a key that starts with the prefix. *)
Definition without_prefix (prefix k : string) : string :=
  String.substring (String.length prefix) (String.length k - String.length prefix) k.

(** The truth of a JSON value in a condition. *)
Definition json_truthy (v : JSON) : bool :=
  match v with
  | JNull => false
  | JBool b => b
  | JNum n => negb (n =? 0)%Z
  | JStr s => negb (String.eqb s "")
  | JArr _ | JObj _ => true
  end.

Record JobSettings := {
  enabled : option JSON;
  interval : option JSON;
}.

Record JobConfig := {
  name : string;
  defaultSchedule : string;
  priority : Z;
}.

Definition jobConfigs : list JobConfig :=
  [ {| name := "generate-scheduled-content"; defaultSchedule := "0 */4 * * *"; priority := 2 |};
    {| name := "ai-tweet-generation"; defaultSchedule := "0 10 * * *"; priority := 1 |};
    {| name := "reply-to-tweets"; defaultSchedule := "0 */2 * * *"; priority := 1 |};
    {| name := "analyze-trends"; defaultSchedule := "0 8 * * *"; priority := 3 |};
    {| name := "check-youtube-comments"; defaultSchedule := "*/30 * * * *"; priority := 3 |};
    {| name := "fetch-youtube-comments-analysis"; defaultSchedule := "0 */6 * * *";
       priority := 4 |} ].

(** The [switch (job.name)] of the worker: the function it awaits, or
    nothing in the [default] branch. *)
Definition worker (jobName : string) : option JobFunction :=
  if String.eqb jobName "generate-scheduled-content" then Some generateScheduledContent
  else if String.eqb jobName "analyze-trends" then Some analyzeTrends
  else if String.eqb jobName "ai-tweet-generation" then Some generateAndPostTweet
  else if String.eqb jobName "reply-to-tweets" then Some replyToTweetsJob
  else if String.eqb jobName "check-youtube-comments"
  then Some checkAndReplyToYouTubeComments
  else if String.eqb jobName "fetch-youtube-comments-analysis"
  then Some fetchYouTubeCommentsForAnalysis
  else None.

(** A repeatable job handed to [addJob]. *)
Record Added := {
  queue : string;
  added_name : string;
  pattern : JSON;
  added_priority : Z;
}.

Section WithParser.

(** [JSON.parse], [None] when it throws. *)
Variable JSON_parse : string -> option JSON.

(** The callback of the [reduce]. *)
Definition collect (prefix : string) (acc : Accumulator) (setting : Setting)
  : Accumulator :=
  let settingKey := without_prefix prefix (key setting) in
  match JSON_parse (value setting) with
  | Some v => assign acc settingKey v
  | None => assign acc settingKey (JStr (value setting))
  end.

(** [loadJobSettings(jobName)] on the rows of the settings table, for a
    database that answers. *)
Definition loadJobSettings (jobName : string) (allSettings : list Setting) : JobSettings :=
  let prefix := jobName ++ "_" in
  let jobSettings :=
    foldl (collect prefix) {| members := []; proto := ObjectPrototype |}
      (List.filter (fun setting => String.prefix prefix (key setting)) allSettings) in
  {| enabled := get jobSettings "enabled";
     interval := get jobSettings "interval" |}.

(** A row that, read for the given prefix, can make [enabled] the
    value [true]: its key is the prefix followed by [enabled] and its text
    parses to [true], or its key is the prefix followed by [__proto__] and
    its text parses to an object whose member [enabled] is [true]. *)
Definition switches_on (prefix : string) (row : Setting) : Prop :=
  (without_prefix prefix (key row) = "enabled"
   /\ JSON_parse (value row) = Some (JBool true))
  \/ (without_prefix prefix (key row) = "__proto__"
      /\ exists fields,
           JSON_parse (value row) = Some (JObj fields)
           /\ parsed_member "enabled" fields = Some (JBool true)).

(** The body of the loop over [jobConfigs]: the job handed to [addJob]
    for one configuration, if its settings switch it on. *)
Definition schedule_job (allSettings : list Setting) (config : JobConfig) : list Added :=
  let dbSettings := loadJobSettings (name config) allSettings in
  match enabled dbSettings with
  | Some (JBool true) =>
      let schedule :=
        match interval dbSettings with
        | Some v => if json_truthy v then v else JStr (defaultSchedule config)
        | None => JStr (defaultSchedule config)
        end in
      [{| queue := JOBS_QUEUE; added_name := name config; pattern := schedule;
          added_priority := priority config |}]
  | _ => []
  end.

(** The queue layer, lib/queue, which is not among the sources:
    whether [createQueue] and [createWorker] return, whether the call of
    [addJob] that comes after [n] accepted ones resolves for the job it is
    given, and whether [startAllWorkers] resolves. Where one of them
    throws or rejects, the [catch] of [initializeBullMQJobs] answers
    false. *)
Variable queue_created : bool.
Variable addJob : nat -> Added -> bool.
Variable workers_started : bool.

(** The loop over [jobConfigs]: the jobs [addJob] accepted so far, and
    whether the loop came to its end. A rejected [addJob] ends it. *)
Fixpoint schedule_all (allSettings : list Setting) (configs : list JobConfig)
    (added : list Added) : bool * list Added :=
  match configs with
  | [] => (true, added)
  | config :: rest =>
      match schedule_job allSettings config with
      | [] => schedule_all allSettings rest added
      | job :: _ =>
          if addJob (length added) job
          then schedule_all allSettings rest (added ++ [job])
          else (false, added)
      end
  end.

(** [initializeBullMQJobs]: its result and the jobs the queue accepted,
    in order. *)
Definition initializeBullMQJobs (REDIS_URL : option string) (allSettings : list Setting)
  : bool * list Added :=
  if negb (truthy REDIS_URL) then (false, [])
  else if negb queue_created then (false, [])
  else
    let '(finished, added) := schedule_all allSettings jobConfigs [] in
    if finished then (workers_started, added) else (false, added).

(** [isBullMQAvailable]. *)
Definition isBullMQAvailable (REDIS_URL : option string) : bool := truthy REDIS_URL.

End WithParser.

(** Example data: a parser that knows the two texts it is given, and a
    settings table that switches the reply job on, every ten minutes. *)
Definition parse_setting (text : string) : option JSON :=
  if String.eqb text "true" then Some (JBool true)
  else if String.eqb text "false" then Some (JBool false)
  else None.

(** A queue layer that accepts everything, and one that accepts no job
    whose pattern is not a string. *)
Definition accepting (n : nat) (job : Added) : bool := true.

Definition strings_only (n : nat) (job : Added) : bool :=
  match pattern job with
  | JStr _ => true
  | _ => false
  end.

(** A parser that also reads the number 15, and a settings table that
    gives the first configured job that number as its interval. *)
Definition parse_number_setting (text : string) : option JSON :=
  if String.eqb text "15" then Some (JNum 15) else parse_setting text.

Definition numeric_settings : list Setting :=
  [ {| key := "generate-scheduled-content_enabled"; value := "true" |};
    {| key := "generate-scheduled-content_interval"; value := "15" |};
    {| key := "reply-to-tweets_enabled"; value := "true" |} ].

Definition reply_settings : list Setting :=
  [ {| key := "reply-to-tweets_enabled"; value := "true" |};
    {| key := "reply-to-tweets_interval"; value := "*/10 * * * *" |};
    {| key := "analyze-trends_enabled"; value := "false" |} ].

End ScheduledJobs.

(** * References and the text of a step

    Where the references that [validateVariableReferences] looks for
    stand in [JSON.stringify(step.inputs)]. *)

Module ValidateReferences.

Import Json Validate.

(** [t] stands somewhere in [s]. *)
Definition inside (t s : string) : Prop := exists a b, s = a ++ t ++ b.

(** [t] stands in a JSON value: in a string of it, at any depth, or in
    the name of a member. *)
Inductive occurs (t : string) : JSON -> Prop :=
| occurs_here pre post : occurs t (JStr (pre ++ t ++ post))
| occurs_item items v : In v items -> occurs t v -> occurs t (JArr items)
| occurs_member fields k v : In (k, v) fields -> occurs t v -> occurs t (JObj fields)
| occurs_key fields pre post v : In (pre ++ t ++ post, v) fields -> occurs t (JObj fields).

(** The characters [JSON.stringify] writes as they are. *)
Definition is_plain (c : ascii) : bool :=
  let n := nat_of_ascii c in
  (32 <=? n)%nat && negb (n =? 34)%nat && negb (n =? 92)%nat.

(** The two loops inside [stringify], by name. *)
Fixpoint elems (l : list JSON) : string :=
  match l with
  | [] => ""
  | x :: rest =>
      match rest with
      | [] => stringify x
      | _ => stringify x ++ "," ++ elems rest
      end
  end.

Fixpoint members (l : list (string * JSON)) : string :=
  match l with
  | [] => ""
  | (k, x) :: rest =>
      match rest with
      | [] => quote k ++ ":" ++ stringify x
      | _ => quote k ++ ":" ++ stringify x ++ "," ++ members rest
      end
  end.

(** Example data: a step that holds its references two levels down. *)
Definition nested_step : Step :=
  {| id := "notify";
     module := "communication.email.send";
     inputs :=
       [("message",
         JObj [("subject", JStr "News");
               ("lines", JArr [JStr "by {{author.name}}";
                               JStr "first: {{items[0]}}."])])];
     outputAs := None |}.

Definition nested_workflow : WorkflowExport :=
  {| version := "1.0"; name := "Notify"; description := "Sends the news";
     steps := [nested_step] |}.

End ValidateReferences.

(** * The automation settings route

    The POST handler of [/api/automation/settings], which writes the
    rows that [loadJobSettings] reads. *)

Module AutomationSettings.

Import Json ScheduledJobs.

(** The parsed request body. [settings] is [Object.entries(settings)]
    when the member is an object, and nothing when it is missing, falsy
    or no object. *)
Record Body := {
  jobName : option string;
  settings : option (list (string * JSON));
}.

Record Response := {
  status : nat;
  body : JSON;
}.

(** [insert(...).values(setting).onConflictDoUpdate({ target: key, ... })]:
    the row of that key takes the new value, or the row is added. *)
Fixpoint upsert (setting : Setting) (table : list Setting) : list Setting :=
  match table with
  | [] => [setting]
  | row :: rest =>
      if String.eqb (key row) (key setting)
      then setting :: rest
      else row :: upsert setting rest
  end.

(** The rows made of the entries of [settings]. *)
Definition settingsToUpsert (prefix : string) (entries : list (string * JSON))
  : list Setting :=
  map (fun '(k, v) => {| key := prefix ++ k; value := stringify v |}) entries.

(** The POST handler, for a database that answers. [rateLimitResult] is
    the answer of [checkStrictRateLimit], if it gives one; a body of
    [None] is the JSON value [null]. The [updatedAt] column is left out. *)
Definition POST (rateLimitResult : option Response) (session : bool)
    (request : option Body) (table : list Setting) : Response * list Setting :=
  match rateLimitResult with
  | Some limited => (limited, table)
  | None =>
      if negb session
      then ({| status := 401; body := JObj [("error", JStr "Unauthorized")] |}, table)
      else
        match request with
        | None =>
            ({| status := 500; body := JObj [("error", JStr "Failed to save settings")] |},
             table)
        | Some b =>
            match settings b with
            | Some entries =>
                if truthy (jobName b) then
                  let prefix := default "" (jobName b) ++ "_" in
                  ({| status := 200; body := JObj [("success", JBool true)] |},
                   foldl (fun t setting => upsert setting t) table
                     (settingsToUpsert prefix entries))
                else
                  ({| status := 400;
                      body := JObj [("error",
                                     JStr "Job name and settings object are required")] |},
                   table)
            | None =>
                ({| status := 400;
                    body := JObj [("error",
                                   JStr "Job name and settings object are required")] |},
                 table)
            end
        end
  end.

(** The value of the row of a key, if there is one. *)
Fixpoint find_key (k : string) (table : list Setting) : option string :=
  match table with
  | [] => None
  | row :: rest => if String.eqb (key row) k then Some (value row) else find_key k rest
  end.

(** A request that saves the entries for a job. *)
Definition save (job : string) (entries : list (string * JSON)) : option Body :=
  Some {| jobName := Some job; settings := Some entries |}.

(** Example data: the reply job switched on, every five minutes, and a
    parser for the two texts this writes. *)
Definition reply_switch : list (string * JSON) :=
  [("enabled", JBool true); ("interval", JStr "*/5 * * * *")].

Definition parse_switch (text : string) : option JSON :=
  if String.eqb text "true" then Some (JBool true)
  else if String.eqb text (quote "*/5 * * * *") then Some (JStr "*/5 * * * *")
  else None.

Definition old_settings : list Setting :=
  [ {| key := "reply-to-tweets_enabled"; value := "false" |};
    {| key := "analyze-trends_enabled"; value := "false" |} ].

End AutomationSettings.

(** * Properties *)

(** ** Scheduler *)

Module SchedulingFacts.

Import Scheduling.

Section WithCron.

Context {Task : Type} (cron_validate : string -> bool).

#[local] Abbreviation register := (Scheduling.register cron_validate).
#[local] Abbreviation registerOrUpdate := (Scheduling.registerOrUpdate cron_validate).
#[local] Abbreviation perform := (Scheduling.perform cron_validate).

Implicit Types (s : Scheduler Task) (job : ScheduledJob Task) (c : Call Task).

Lemma register_duplicate s job :
  is_Some (jobs s !! name job) -> register s job = s.
Proof.
  intros [t Ht]. unfold Scheduling.register. now rewrite Ht.
Qed.

Lemma register_invalid s job :
  cron_validate (schedule job) = false -> register s job = s.
Proof.
  intros Hv. unfold Scheduling.register.
  destruct (jobs s !! name job); [reflexivity|].
  destruct (disabled job); [reflexivity|].
  now rewrite Hv.
Qed.

Lemma register_disabled s job :
  enabled job = Some false -> register s job = s.
Proof.
  intros He. unfold Scheduling.register, disabled.
  destruct (jobs s !! name job); [reflexivity|]. now rewrite He.
Qed.

(** What a successful registration stores. *)
Lemma register_fresh s job :
  jobs s !! name job = None ->
  disabled job = false ->
  cron_validate (schedule job) = true ->
  register s job =
    with_jobs s (<[name job := task_stop (cron_schedule (schedule job) job)]> (jobs s)).
Proof.
  intros Hn Hd Hv. unfold Scheduling.register. now rewrite Hn, Hd, Hv.
Qed.

(** C4. [register] is a total function (it returns a scheduler on every
    input, it never throws); called with an expression the validator
    refuses, or with a name that is already registered, it returns the
    scheduler it was given: the job map has the same entries, and every
    registered task is in the state (started or stopped) it was in. *)
Theorem register_rejects_without_change s job :
  cron_validate (schedule job) = false \/ is_Some (jobs s !! name job) ->
  register s job = s /\
  jobs (register s job) = jobs s /\
  isInitialized (register s job) = isInitialized s.
Proof.
  intros [Hv | Hdup].
  - rewrite (register_invalid s job Hv). auto.
  - rewrite (register_duplicate s job Hdup). auto.
Qed.

(** The invariant behind C10: the task of a given name is absent or
    stopped. Every method other than the three starting ones keeps it. *)
Lemma live_with_jobs s m n :
  live (with_jobs s m) n =
    match m !! n with
    | Some t => running t
    | None => false
    end.
Proof. reflexivity. Qed.

Lemma register_keeps_quiet s job n :
  live s n = false -> live (register s job) n = false.
Proof.
  intros Hq. unfold Scheduling.register.
  destruct (jobs s !! name job) eqn:Hl; [assumption|].
  destruct (disabled job); [assumption|].
  destruct (cron_validate (schedule job)); simpl; [|assumption].
  rewrite live_with_jobs.
  destruct (decide (name job = n)) as [->|Hne].
  - now rewrite lookup_insert_eq.
  - rewrite lookup_insert_ne by assumption. exact Hq.
Qed.

Lemma stop_quiets s n : live (stop s) n = false.
Proof.
  unfold live, stop; simpl. rewrite lookup_fmap.
  now destruct (jobs s !! n).
Qed.

Lemma unregister_keeps_quiet s m n :
  live s n = false -> live (unregister s m) n = false.
Proof.
  intros Hq. unfold unregister.
  destruct (jobs s !! m) eqn:Hl; [|assumption].
  rewrite live_with_jobs.
  destruct (decide (m = n)) as [->|Hne].
  - now rewrite lookup_delete_eq.
  - rewrite lookup_delete_ne by assumption. exact Hq.
Qed.

Lemma stopJob_keeps_quiet s m n :
  live s n = false -> live (fst (stopJob s m)) n = false.
Proof.
  intros Hq. unfold stopJob.
  destruct (jobs s !! m) eqn:Hl; [|assumption].
  simpl. rewrite live_with_jobs.
  destruct (decide (m = n)) as [->|Hne].
  - now rewrite lookup_insert_eq.
  - rewrite lookup_insert_ne by assumption. exact Hq.
Qed.

Lemma perform_keeps_quiet s c n :
  starting c = false -> live s n = false -> live (perform s c) n = false.
Proof.
  destruct c; simpl; intros Hc Hq; try discriminate.
  - now apply register_keeps_quiet.
  - apply stop_quiets.
  - now apply unregister_keeps_quiet.
  - now apply stopJob_keeps_quiet.
Qed.

Lemma performs_keep_quiet cs : forall s n,
  Forall (fun c => starting c = false) cs ->
  live s n = false -> live (foldl perform s cs) n = false.
Proof.
  induction cs as [|c cs IH]; intros s n Hcs Hq; simpl; [assumption|].
  inversion Hcs; subst. apply IH; [assumption|].
  now apply perform_keeps_quiet.
Qed.

Lemma fires_live {Instant} (cron_matches : string -> Instant -> bool) s n now :
  live s n = false -> fires cron_matches s n now = false.
Proof.
  unfold live, fires. destruct (jobs s !! n) as [t|]; [|reflexivity].
  now intros ->.
Qed.

(** C10. [register] stores the task it has scheduled only after
    stopping it, whatever the scheduler's [isInitialized] flag says. A job
    added by [register] therefore is not started, and stays stopped under
    every sequence of calls that contains none of [start], [startJob] and
    [registerOrUpdate]: at no clock point does its task fire. *)
Theorem register_never_starts {Instant} (cron_matches : string -> Instant -> bool)
    s job cs now :
  jobs s !! name job = None ->
  Forall (fun c => starting c = false) cs ->
  (jobs (register s job) !! name job = None \/
   jobs (register s job) !! name job
     = Some (task_stop (cron_schedule (schedule job) job))) /\
  live (register s job) (name job) = false /\
  live (foldl perform (register s job) cs) (name job) = false /\
  fires cron_matches (foldl perform (register s job) cs) (name job) now = false.
Proof.
  intros Hfresh Hcs.
  assert (Hq : live (register s job) (name job) = false).
  { apply register_keeps_quiet. unfold live. now rewrite Hfresh. }
  assert (Hq' : live (foldl perform (register s job) cs) (name job) = false)
    by now apply performs_keep_quiet.
  split; [|auto using fires_live].
  unfold Scheduling.register. rewrite Hfresh.
  destruct (disabled job); [now left|].
  destruct (cron_validate (schedule job)); cbn [negb]; [|now left].
  right. cbn [with_jobs jobs]. apply lookup_insert_eq.
Qed.

(** [start] after the scheduler counts as started does not start a
    task registered in between. *)
Lemma start_when_initialized s : isInitialized s = true -> start s = s.
Proof. intros H. unfold start. now rewrite H. Qed.

Lemma unregister_jobs s n : jobs (unregister s n) = delete n (jobs s).
Proof.
  unfold unregister. destruct (jobs s !! n) eqn:Hl; [reflexivity|].
  symmetry. now apply delete_id.
Qed.

Lemma unregister_flag s n : isInitialized (unregister s n) = isInitialized s.
Proof. unfold unregister. now destruct (jobs s !! n). Qed.

(** The scheduler [registerOrUpdate] registers into. *)
Lemma registerOrUpdate_cleared s job :
  match jobs s !! name job with
  | Some _ => unregister s (name job)
  | None => s
  end = with_jobs s (delete (name job) (jobs s)).
Proof.
  destruct (jobs s !! name job) eqn:Hl.
  - unfold unregister. now rewrite Hl.
  - rewrite delete_id by assumption. now destruct s.
Qed.

(** C5, as the code has it. For a job that is not disabled and whose
    expression passes validation, [registerOrUpdate] leaves the name bound
    to a started task for the new schedule and job, keeps every other
    registration, and sets [isInitialized]. For a disabled job it removes
    the registration of that name, registers nothing and leaves
    [isInitialized] as it was. *)
Theorem registerOrUpdate_replaces s job :
  (disabled job = false -> cron_validate (schedule job) = true ->
   registerOrUpdate s job =
     {| jobs := <[name job := cron_schedule (schedule job) job]> (jobs s);
        isInitialized := true |}) /\
  (disabled job = true ->
   registerOrUpdate s job = with_jobs s (delete (name job) (jobs s))).
Proof.
  split.
  - intros Hd Hv. unfold Scheduling.registerOrUpdate.
    rewrite registerOrUpdate_cleared, Hd. simpl.
    rewrite register_fresh; simpl; try assumption; [|apply lookup_delete_eq].
    unfold startJob. simpl. rewrite lookup_insert_eq. simpl.
    rewrite insert_insert_eq, insert_delete_eq.
    unfold with_jobs, task_start, task_stop, cron_schedule; simpl.
    destruct (isInitialized s); reflexivity.
  - intros Hd. unfold Scheduling.registerOrUpdate.
    rewrite registerOrUpdate_cleared, Hd. simpl.
    unfold Scheduling.register. simpl. rewrite lookup_delete_eq. now rewrite Hd.
Qed.

(** An update whose expression fails validation drops the old
    registration and still sets [isInitialized]. *)
Lemma registerOrUpdate_invalid s job :
  disabled job = false -> cron_validate (schedule job) = false ->
  registerOrUpdate s job =
    {| jobs := delete (name job) (jobs s); isInitialized := true |}.
Proof.
  intros Hd Hv. unfold Scheduling.registerOrUpdate.
  rewrite registerOrUpdate_cleared, Hd. simpl.
  rewrite register_invalid by assumption.
  unfold startJob. simpl. rewrite lookup_delete_eq. simpl.
  unfold with_jobs; simpl.
  destruct (isInitialized s); reflexivity.
Qed.

End WithCron.

(** C4 on a started scheduler that holds the running tweet job: it is
    handed the reply job with the expression of three fields, and the
    tweet job a second time. *)
Lemma register_rejects_witness :
  five_or_six_fields (schedule reply_job_three_fields) = false /\
  register five_or_six_fields started reply_job_three_fields = started /\
  live started "ai-tweet-generation" = true /\
  register five_or_six_fields started tweet_job = started.
Proof.
  split; [reflexivity|]. split; [|split; [reflexivity|]].
  - apply (register_rejects_without_change five_or_six_fields started
             reply_job_three_fields).
    left. reflexivity.
  - apply (register_rejects_without_change five_or_six_fields started tweet_job).
    right. eexists. reflexivity.
Defined.

(** C10 on a scheduler that is already started: the reply job is
    registered, and a second register, a stopJob and an unregister of the
    other job follow. *)
Lemma register_never_starts_witness :
  isInitialized started = true /\
  jobs (register five_or_six_fields started reply_job) !! "reply-to-tweets"
    = Some (task_stop (cron_schedule "0 */2 * * *" reply_job)) /\
  live (register five_or_six_fields started reply_job) "reply-to-tweets" = false /\
  live (foldl (perform five_or_six_fields)
          (register five_or_six_fields started reply_job)
          [CallRegister reply_job; CallStopJob "ai-tweet-generation";
           CallUnregister "ai-tweet-generation"])
       "reply-to-tweets" = false /\
  fires every_minute
    (foldl (perform five_or_six_fields)
       (register five_or_six_fields started reply_job)
       [CallRegister reply_job; CallStopJob "ai-tweet-generation";
        CallUnregister "ai-tweet-generation"])
    "reply-to-tweets" 0 = false.
Proof.
  split; [reflexivity|].
  destruct (register_never_starts five_or_six_fields every_minute started reply_job
              [CallRegister reply_job; CallStopJob "ai-tweet-generation";
               CallUnregister "ai-tweet-generation"] 0) as (_ & Hrest).
  - reflexivity.
  - repeat constructor.
  - split; [reflexivity | exact Hrest].
Defined.

(** C5 fails as stated: updating a registered, running job with a
    definition that is switched off removes the name and does not mark the
    scheduler started; updating it with an expression of three fields
    removes the name as well. *)
Lemma registerOrUpdate_loses_name :
  hasJob registered_only "ai-tweet-generation" = true /\
  hasJob (registerOrUpdate five_or_six_fields registered_only tweet_job_disabled)
    "ai-tweet-generation" = false /\
  isInitialized (registerOrUpdate five_or_six_fields registered_only tweet_job_disabled)
    = false /\
  hasJob started "ai-tweet-generation" = true /\
  hasJob (registerOrUpdate five_or_six_fields started tweet_job_three_fields)
    "ai-tweet-generation" = false.
Proof. vm_compute. repeat split. Qed.

(** C5 on the tweet job: the job registered for ten o'clock is updated
    to nine o'clock on a scheduler that was never started. *)
Lemma registerOrUpdate_replaces_witness :
  registerOrUpdate five_or_six_fields registered_only
    {| name := "ai-tweet-generation"; schedule := "0 9 * * *";
       task := "generateAndPostTweet"; enabled := Some true |} =
  {| jobs := <["ai-tweet-generation" :=
               cron_schedule "0 9 * * *"
                 {| name := "ai-tweet-generation"; schedule := "0 9 * * *";
                    task := "generateAndPostTweet"; enabled := Some true |}]>
             (jobs registered_only);
     isInitialized := true |}.
Proof.
  apply (proj1 (registerOrUpdate_replaces five_or_six_fields registered_only
           {| name := "ai-tweet-generation"; schedule := "0 9 * * *";
              task := "generateAndPostTweet"; enabled := Some true |}));
    reflexivity.
Defined.

End SchedulingFacts.

(** ** Workflow queue *)

Module WorkflowQueueFacts.

Import Json WorkflowQueue.

Lemma countIn_split (q : Queue) :
  countIn Waiting q + countIn Active q + countIn Delayed q
    + countIn Completed q + countIn Failed q = length (held q).
Proof.
  unfold countIn. induction (held q) as [|j l IH]; [reflexivity|].
  simpl. destruct (state j); simpl; lia.
Qed.

(** C9. When the queue exists, [getWorkflowQueueStats] reports the five
    counts, and its [total] is [waiting + active + delayed]: the jobs of
    the queue that are neither completed nor failed. *)
Theorem stats_total_excludes_finished (w : World) (queue : Queue) :
  queues w !! WORKFLOW_QUEUE_NAME = Some queue ->
  exists st,
    getWorkflowQueueStats w = Some st /\
    waiting st = getWaitingCount queue /\
    active st = getActiveCount queue /\
    completed st = getCompletedCount queue /\
    failed st = getFailedCount queue /\
    delayed st = getDelayedCount queue /\
    total st = waiting st + active st + delayed st /\
    total st + completed st + failed st = length (held queue).
Proof.
  intros Hq. unfold getWorkflowQueueStats. rewrite Hq.
  eexists. split; [reflexivity|]. simpl.
  repeat (split; [reflexivity|]).
  unfold getWaitingCount, getActiveCount, getDelayedCount,
    getCompletedCount, getFailedCount.
  pose proof (countIn_split queue). lia.
Qed.

(** [getWorkflowQueueStats] returns [null] when the workflow queue
    has not been created. *)
Lemma stats_without_queue (w : World) :
  queues w !! WORKFLOW_QUEUE_NAME = None -> getWorkflowQueueStats w = None.
Proof. intros Hq. unfold getWorkflowQueueStats. now rewrite Hq. Qed.

Lemma executions_record_exec d w :
  executions (record (Executed d) w) = S (executions w).
Proof.
  unfold executions, record; simpl.
  rewrite List.filter_app, length_app. simpl. lia.
Qed.

Lemma executions_record_other e w :
  is_execution e = false -> executions (record e w) = executions w.
Proof.
  intros He. unfold executions, record; simpl.
  rewrite List.filter_app, length_app. simpl. rewrite He. simpl. lia.
Qed.

Section WithExecutor.

Variable executeWorkflow : nat -> WorkflowJobData -> Completion ExecutionResult.

#[local] Abbreviation processor := (WorkflowQueue.processor executeWorkflow).
#[local] Abbreviation queueWorkflowExecution :=
  (WorkflowQueue.queueWorkflowExecution executeWorkflow).
#[local] Abbreviation pass := (WorkflowQueue.pass executeWorkflow).
#[local] Abbreviation work := (WorkflowQueue.work executeWorkflow).

(** C6. Without REDIS_URL, [queueWorkflowExecution] runs [executeWorkflow]
    once, at once, and does nothing else: the queues are not touched, no
    job is added and no retry is scheduled. When the executor returns,
    whatever the result says, the call returns the job id
    direct-execution with [queued] false; when the executor throws, the
    error is thrown on to the caller. *)
Theorem direct_execution_without_backend env d options w :
  truthy (REDIS_URL env) = false ->
  history (snd (queueWorkflowExecution env d options w)) = (history w ++ [Executed d])%list /\
  executions (snd (queueWorkflowExecution env d options w)) = S (executions w) /\
  queues (snd (queueWorkflowExecution env d options w)) = queues w /\
  fst (queueWorkflowExecution env d options w) =
    match executeWorkflow (executions w) d with
    | Returned _ => Returned {| jobId := "direct-execution"; queued := false |}
    | Threw e => Threw e
    end.
Proof.
  intros Henv. unfold WorkflowQueue.queueWorkflowExecution. rewrite Henv. simpl.
  destruct (executeWorkflow (executions w) d); simpl;
    rewrite executions_record_exec; auto.
Qed.

(** With a backend, the request is queued and nothing is executed by the
    call itself: the job added carries the queue's default options and no
    attempt yet. *)
Lemma queueWorkflowExecution_enqueues env d options w q :
  truthy (REDIS_URL env) = true ->
  queues w !! WORKFLOW_QUEUE_NAME = Some q ->
  exists job,
    fst (queueWorkflowExecution env d options w)
      = Returned {| jobId := if truthy (Some (id job)) then id job else "unknown";
                    queued := true |} /\
    data job = d /\ opts job = defaultOptions q /\ attemptsMade job = 0 /\
    priority job = priority_or_default options /\
    executions (snd (queueWorkflowExecution env d options w)) = executions w /\
    queues (snd (queueWorkflowExecution env d options w)) !! WORKFLOW_QUEUE_NAME
      = Some {| defaultOptions := defaultOptions q; held := held q ++ [job] |}.
Proof.
  intros Henv Hq. unfold WorkflowQueue.queueWorkflowExecution, addJob.
  rewrite Henv, Hq. cbn [negb]. eexists. cbn [fst snd].
  split; [reflexivity|]. cbn [data opts attemptsMade priority].
  repeat (split; [reflexivity|]). split.
  - now rewrite executions_record_other.
  - cbn [record queues]. apply lookup_insert_eq.
Qed.

(** The queue [initializeWorkflowQueue] creates hands its jobs three
    attempts and an exponential backoff from 10000 ms. *)
Lemma initializeWorkflowQueue_options env w :
  truthy (REDIS_URL env) = true ->
  fst (initializeWorkflowQueue env w) = true /\
  queues (snd (initializeWorkflowQueue env w)) !! WORKFLOW_QUEUE_NAME
    = Some {| defaultOptions := defaultJobOptions; held := [] |}.
Proof.
  intros Henv. unfold initializeWorkflowQueue. rewrite Henv. cbn [negb fst snd queues].
  split; [reflexivity | apply lookup_insert_eq].
Qed.

Lemma prefix_app (t b : string) : String.prefix t (t ++ b) = true.
Proof.
  induction t as [|c t IH].
  - change ("" ++ b) with b. now destruct b.
  - change (String c t ++ b) with (String c (t ++ b)). cbn [String.prefix].
    destruct (ascii_dec c c); [exact IH | congruence].
Qed.

Lemma contains_prefix (t s : string) : String.prefix t s = true -> contains t s = true.
Proof. intros H. destruct s; cbn [contains]; now rewrite H. Qed.

Lemma contains_app (t a b : string) : contains t (a ++ t ++ b) = true.
Proof.
  induction a as [|c a IH].
  - change ("" ++ t ++ b) with (t ++ b). apply contains_prefix, prefix_app.
  - change (String c a ++ t ++ b) with (String c (a ++ t ++ b)).
    cbn [contains]. rewrite IH. apply orb_true_r.
Qed.

Lemma contains_app_r (t a s : string) : contains t s = true -> contains t (a ++ s) = true.
Proof.
  intros H. induction a as [|c a IH]; [exact H|].
  change (String c a ++ s) with (String c (a ++ s)).
  cbn [contains]. rewrite IH. apply orb_true_r.
Qed.

Lemma processor_returned job w result :
  executeWorkflow (executions w) (data job) = Returned result ->
  processor job w =
    (if negb (success result) then Threw (failureMessage result) else Returned result,
     record (Executed (data job)) w).
Proof.
  intros He. unfold WorkflowQueue.processor, run_executeWorkflow. rewrite He.
  now destruct (success result).
Qed.

(** An error thrown by the executor itself is thrown on by the
    processor as it is, after the one execution. *)
Lemma processor_rethrows job w e :
  executeWorkflow (executions w) (data job) = Threw e ->
  processor job w = (Threw e, record (Executed (data job)) w).
Proof.
  intros He. unfold WorkflowQueue.processor, run_executeWorkflow. now rewrite He.
Qed.

(** C7, as the code has it. When the executor returns a result that
    reports failure, the processor throws an error whose message is the
    fixed prefix, the result's error text (the word undefined when there
    is none) and a blank, followed by the step in parentheses exactly
    when the result carries a non-empty [errorStep]. The four cases: with
    an error text and a step the message holds both; with an error text
    and no step it holds the error text and ends after the blank; with a
    step and no error text it holds the word undefined and the step; with
    neither it is the prefix, the word undefined and a blank. *)
Theorem failure_message_of_processor job w result :
  executeWorkflow (executions w) (data job) = Returned result ->
  success result = false ->
  fst (processor job w) = Threw (failureMessage result) /\
  (forall e step,
     error result = Some e -> errorStep result = Some step -> step <> "" ->
     failureMessage result
       = "Workflow execution failed: " ++ e ++ " (step: " ++ step ++ ")" /\
     contains e (failureMessage result) = true /\
     contains step (failureMessage result) = true) /\
  (forall e,
     error result = Some e -> truthy (errorStep result) = false ->
     failureMessage result = "Workflow execution failed: " ++ e ++ " " /\
     contains e (failureMessage result) = true) /\
  (forall step,
     error result = None -> errorStep result = Some step -> step <> "" ->
     failureMessage result
       = "Workflow execution failed: undefined (step: " ++ step ++ ")" /\
     contains step (failureMessage result) = true) /\
  (error result = None -> truthy (errorStep result) = false ->
   failureMessage result = "Workflow execution failed: undefined ").
Proof.
  intros He Hs.
  assert (Hstep : forall step, errorStep result = Some step -> step <> "" ->
            failureMessage result =
              "Workflow execution failed: " ++ show (error result)
              ++ " (step: " ++ step ++ ")").
  { intros step Hstep Hne. unfold failureMessage. rewrite Hstep. cbn [truthy show].
    destruct (String.eqb_spec step ""); [contradiction|]. reflexivity. }
  assert (Hnone : truthy (errorStep result) = false ->
            failureMessage result = "Workflow execution failed: " ++ show (error result) ++ " ").
  { intros Ht. unfold failureMessage. rewrite Ht. reflexivity. }
  split; [|split; [|split; [|split]]].
  - rewrite (processor_returned job w result He), Hs. reflexivity.
  - intros e step Herr Hst Hne. rewrite (Hstep step Hst Hne), Herr. cbn [show].
    split; [reflexivity|]. split.
    + apply contains_app.
    + do 3 apply contains_app_r. apply contains_prefix, prefix_app.
  - intros e Herr Ht. rewrite (Hnone Ht), Herr. cbn [show].
    split; [reflexivity | apply contains_app].
  - intros step Herr Hst Hne. rewrite (Hstep step Hst Hne), Herr. cbn [show].
    split; [reflexivity|].
    apply (contains_app_r step "Workflow execution failed: undefined (step: ").
    apply contains_prefix, prefix_app.
  - intros Herr Ht. rewrite (Hnone Ht), Herr. reflexivity.
Qed.

(** One pass over a runnable job, case by case. *)
Lemma pass_runnable j w :
  runnable j = true ->
  pass j w =
    let w1 := record (Executed (data j)) w in
    let made := S (attemptsMade j) in
    if fails (executeWorkflow (executions w) (data j)) then
      if (made <? attempts (opts j))%nat then
        let j' := settled j made Delayed (backoffDelay (opts j) made) in
        (j', notify (onFailed (Some j'))
               (record (MovedToDelayed (id j) (backoffDelay (opts j) made)) w1))
      else
        let j' := settled j made Failed 0 in
        (j', notify (onFailed (Some j')) (record (MovedToFailed (id j)) w1))
    else (settled j made Completed 0, record (MovedToCompleted (id j)) w1).
Proof.
  intros Hr. unfold WorkflowQueue.pass, WorkflowQueue.processor, run_executeWorkflow.
  rewrite Hr. cbn [data settled].
  destruct (executeWorkflow (executions w) (data j)) as [result|e]; cbn [fails].
  - destruct (success result); cbn [negb finish]; [reflexivity|].
    destruct (S (attemptsMade j) <? attempts (opts j))%nat; reflexivity.
  - cbn [finish].
    destruct (S (attemptsMade j) <? attempts (opts j))%nat; reflexivity.
Qed.

Lemma pass_settled j w : runnable j = false -> pass j w = (j, w).
Proof. intros Hr. unfold WorkflowQueue.pass. now rewrite Hr. Qed.

(** A job that is completed or failed is never picked up again. *)
Lemma work_settled n : forall j w, runnable j = false -> work n j w = (j, w).
Proof.
  induction n as [|n IH]; intros j w Hr; [reflexivity|].
  cbn [WorkflowQueue.work]. rewrite (pass_settled j w Hr). now apply IH.
Qed.

Lemma work_S n j w :
  work (S n) j w = work n (fst (pass j w)) (snd (pass j w)).
Proof. cbn [WorkflowQueue.work]. now destruct (pass j w). Qed.

Lemma executions_notify o w : executions (notify o w) = executions w.
Proof. destruct o; [now apply executions_record_other | reflexivity]. Qed.

(** [within_attempts] is kept by every pass, and the executor runs
    once per attempt. *)
Lemma pass_within_attempts j w :
  within_attempts j ->
  within_attempts (fst (pass j w)) /\
  (executions (snd (pass j w)) + attemptsMade j
     = executions w + attemptsMade (fst (pass j w)))%nat.
Proof.
  intros (Ho & Hle & Hrun).
  destruct (runnable j) eqn:Hr.
  - specialize (Hrun eq_refl). rewrite (pass_runnable j w Hr). cbv zeta.
    rewrite Ho. cbn [attempts defaultJobOptions].
    destruct (fails _).
    + destruct (Nat.ltb_spec (S (attemptsMade j)) 3); cbn [fst snd];
        rewrite executions_notify, executions_record_other, executions_record_exec
          by reflexivity;
        unfold within_attempts; cbn [opts attemptsMade settled runnable state];
        repeat split; auto; try lia; try discriminate.
    + cbn [fst snd].
      rewrite executions_record_other, executions_record_exec by reflexivity.
      unfold within_attempts; cbn [opts attemptsMade settled runnable state].
      repeat split; auto; try lia; try discriminate.
  - rewrite (pass_settled j w Hr). cbn [fst snd].
    split; [|lia]. unfold within_attempts. rewrite Hr. repeat split; auto; discriminate.
Qed.

Lemma work_within_attempts n : forall j w,
  within_attempts j ->
  within_attempts (fst (work n j w)) /\
  (executions (snd (work n j w)) + attemptsMade j
     = executions w + attemptsMade (fst (work n j w)))%nat.
Proof.
  induction n as [|n IH]; intros j w Hj.
  - cbn [WorkflowQueue.work fst snd]. split; [assumption | lia].
  - rewrite work_S.
    destruct (pass_within_attempts j w Hj) as [Hj' He].
    destruct (IH _ (snd (pass j w)) Hj') as [Hj'' He'].
    split; [assumption | lia].
Qed.

(** The first two failures of a fresh job with the default options. *)
Lemma first_failure j w :
  opts j = defaultJobOptions -> attemptsMade j = 0 -> runnable j = true ->
  fails (executeWorkflow (executions w) (data j)) = true ->
  pass j w =
    (settled j 1 Delayed 10000,
     record (RetryLogged {| noticeJob := id j; attempt := 2; nextRetryIn := 20 |})
       (record (MovedToDelayed (id j) 10000) (record (Executed (data j)) w))).
Proof.
  intros Ho Ha Hr Hf. rewrite (pass_runnable j w Hr). cbv zeta.
  rewrite Hf, Ho, Ha. reflexivity.
Qed.

Lemma second_failure j w :
  opts j = defaultJobOptions -> attemptsMade j = 1 -> runnable j = true ->
  fails (executeWorkflow (executions w) (data j)) = true ->
  pass j w =
    (settled j 2 Delayed 20000,
     record (RetryLogged {| noticeJob := id j; attempt := 3; nextRetryIn := 40 |})
       (record (MovedToDelayed (id j) 20000) (record (Executed (data j)) w))).
Proof.
  intros Ho Ha Hr Hf. rewrite (pass_runnable j w Hr). cbv zeta.
  rewrite Hf, Ho, Ha. reflexivity.
Qed.

Lemma third_failure j w :
  opts j = defaultJobOptions -> attemptsMade j = 2 -> runnable j = true ->
  fails (executeWorkflow (executions w) (data j)) = true ->
  pass j w =
    (settled j 3 Failed 0, record (MovedToFailed (id j)) (record (Executed (data j)) w)).
Proof.
  intros Ho Ha Hr Hf. rewrite (pass_runnable j w Hr). cbv zeta.
  rewrite Hf, Ho, Ha. reflexivity.
Qed.

Lemma success_at j w :
  runnable j = true ->
  fails (executeWorkflow (executions w) (data j)) = false ->
  pass j w =
    (settled j (S (attemptsMade j)) Completed 0,
     record (MovedToCompleted (id j)) (record (Executed (data j)) w)).
Proof.
  intros Hr Hf. rewrite (pass_runnable j w Hr). cbv zeta. now rewrite Hf.
Qed.

Lemma executions_after_failure x y d w :
  is_execution x = false -> is_execution y = false ->
  executions (record x (record y (record (Executed d) w))) = S (executions w).
Proof.
  intros Hx Hy.
  rewrite (executions_record_other x) by assumption.
  rewrite (executions_record_other y) by assumption.
  apply executions_record_exec.
Qed.

(** What the worker does with a job as it was queued, whatever the
    executor does. *)
Lemma retries_of_a_queued_job j w n :
  newly_queued j ->
  let d := data j in
  let k := executions w in
  let first := [Executed d; MovedToDelayed (id j) 10000;
                RetryLogged {| noticeJob := id j; attempt := 2; nextRetryIn := 20 |}] in
  let second := [Executed d; MovedToDelayed (id j) 20000;
                 RetryLogged {| noticeJob := id j; attempt := 3; nextRetryIn := 40 |}] in
  (attemptsMade (fst (work n j w)) <= 3)%nat /\
  (executions (snd (work n j w)) <= k + 3)%nat /\
  ((3 <= n)%nat ->
   fails (executeWorkflow k d) = true ->
   fails (executeWorkflow (S k) d) = true ->
   fails (executeWorkflow (S (S k)) d) = false ->
   state (fst (work n j w)) = Completed /\
   attemptsMade (fst (work n j w)) = 3 /\
   history (snd (work n j w)) =
     (history w ++ first ++ second ++ [Executed d; MovedToCompleted (id j)])%list) /\
  ((3 <= n)%nat ->
   fails (executeWorkflow k d) = true ->
   fails (executeWorkflow (S k) d) = true ->
   fails (executeWorkflow (S (S k)) d) = true ->
   state (fst (work n j w)) = Failed /\
   attemptsMade (fst (work n j w)) = 3 /\
   history (snd (work n j w)) =
     (history w ++ first ++ second ++ [Executed d; MovedToFailed (id j)])%list).
Proof.
  intros (Ho & Ha & Hs) d k first second.
  assert (Hr : runnable j = true) by (unfold runnable; now destruct Hs as [-> | ->]).
  assert (Hw : within_attempts j).
  { unfold within_attempts. rewrite Ha. repeat split; auto; lia. }
  destruct (work_within_attempts n j w Hw) as [(_ & Hle & _) He].
  split; [exact Hle|]. split; [fold k in He; lia|].
  assert (Hsteps : forall c3,
    (3 <= n)%nat ->
    fails (executeWorkflow k d) = true ->
    fails (executeWorkflow (S k) d) = true ->
    fails (executeWorkflow (S (S k)) d) = c3 ->
    work n j w =
      (settled j 3 (if c3 then Failed else Completed) 0,
       record (if c3 then MovedToFailed (id j) else MovedToCompleted (id j))
         (record (Executed d)
           (record (RetryLogged {| noticeJob := id j; attempt := 3; nextRetryIn := 40 |})
             (record (MovedToDelayed (id j) 20000)
               (record (Executed d)
                 (record (RetryLogged {| noticeJob := id j; attempt := 2; nextRetryIn := 20 |})
                   (record (MovedToDelayed (id j) 10000)
                     (record (Executed d) w))))))))).
  { intros c3 Hn H1 H2 H3.
    destruct n as [|[|[|m]]]; try lia.
    rewrite work_S, (first_failure j w Ho Ha Hr H1). cbn [fst snd].
    rewrite work_S, second_failure; cbn [fst snd opts attemptsMade settled data id];
      try reflexivity; try assumption;
      [|rewrite executions_after_failure by reflexivity; exact H2].
    rewrite work_S.
    destruct c3.
    - rewrite third_failure; cbn [fst snd opts attemptsMade settled data id];
        try reflexivity; try assumption;
        [|rewrite !executions_after_failure by reflexivity; exact H3].
      now apply work_settled.
    - rewrite success_at; cbn [fst snd opts attemptsMade settled data id];
        try reflexivity;
        [|rewrite !executions_after_failure by reflexivity; exact H3].
      now apply work_settled. }
  split; intros Hn H1 H2 H3; rewrite (Hsteps _ Hn H1 H2 H3);
    cbn [fst snd state attemptsMade settled record history];
    (split; [reflexivity|]); (split; [reflexivity|]);
    rewrite <- !app_assoc; reflexivity.
Qed.


(** The job [queueWorkflowExecution] adds to an existing queue. *)
Lemma queueWorkflowExecution_adds env d options w q :
  truthy (REDIS_URL env) = true ->
  queues w !! WORKFLOW_QUEUE_NAME = Some q ->
  exists job,
    queues (snd (queueWorkflowExecution env d options w)) !! WORKFLOW_QUEUE_NAME
      = Some {| defaultOptions := defaultOptions q; held := held q ++ [job] |} /\
    data job = d /\ opts job = defaultOptions q /\ attemptsMade job = 0 /\
    (state job = Waiting \/ state job = Delayed).
Proof.
  intros Henv Hq. unfold WorkflowQueue.queueWorkflowExecution, addJob.
  rewrite Henv, Hq. cbn [negb]. eexists. cbn [fst snd].
  split; [cbn [record queues]; apply lookup_insert_eq|].
  cbn [data opts attemptsMade state]. repeat (split; [reflexivity|]).
  destruct (0 <? default 0%Z (delay_of options))%Z; auto.
Qed.

(** Queueing keeps the queue's options, adds one job per request and
    leaves every job newly queued. *)
Lemma queue_all_holds env requests : forall w q,
  truthy (REDIS_URL env) = true ->
  queues w !! WORKFLOW_QUEUE_NAME = Some q ->
  defaultOptions q = defaultJobOptions ->
  Forall newly_queued (held q) ->
  exists q',
    queues (queue_all executeWorkflow env requests w) !! WORKFLOW_QUEUE_NAME = Some q' /\
    defaultOptions q' = defaultJobOptions /\
    Forall newly_queued (held q') /\
    map data (held q') = (map data (held q) ++ map fst requests)%list.
Proof.
  induction requests as [|[d options] requests IH]; intros w q Henv Hq Ho Hall.
  - exists q. cbn [queue_all foldl map]. rewrite app_nil_r. auto.
  - destruct (queueWorkflowExecution_adds env d options w q Henv Hq)
      as (job & Hq' & Hd & Hopts & Hmade & Hstate).
    destruct (IH _ _ Henv Hq') as (q'' & Hl & Ho'' & Hall'' & Hdata).
    + exact Ho.
    + cbn [held]. apply Forall_app. split; [exact Hall|].
      constructor; [|constructor]. unfold newly_queued. rewrite Hopts, Ho. auto.
    + exists q''. split; [exact Hl|]. split; [exact Ho''|]. split; [exact Hall''|].
      rewrite Hdata. cbn [held fst map]. rewrite map_app. cbn [map].
      rewrite Hd, <- app_assoc. reflexivity.
Qed.

(** C2. With REDIS_URL set, take the queue [initializeWorkflowQueue]
    creates and any series of calls of [queueWorkflowExecution]. Every
    request is queued, and every job in the queue, waiting or delayed,
    has three attempts and the exponential backoff from 10000 ms. When the
    worker takes it up it is attempted at most three times, whatever the
    executor does. If the first two attempts fail and the third succeeds,
    the job ends completed with exactly three attempts, after waiting
    10000 ms and then 20000 ms. If all three attempts fail, the job ends
    failed after exactly three attempts, and however long the worker keeps
    running it is not executed again. *)
Theorem three_attempts_with_doubling_backoff env requests w :
  truthy (REDIS_URL env) = true ->
  exists q,
    queues (queue_all executeWorkflow env requests (snd (initializeWorkflowQueue env w)))
      !! WORKFLOW_QUEUE_NAME = Some q /\
    map data (held q) = map fst requests /\
    forall j, In j (held q) ->
      newly_queued j /\
      forall w' n,
        let d := data j in
        let k := executions w' in
        let first := [Executed d; MovedToDelayed (id j) 10000;
                      RetryLogged {| noticeJob := id j; attempt := 2; nextRetryIn := 20 |}] in
        let second := [Executed d; MovedToDelayed (id j) 20000;
                       RetryLogged {| noticeJob := id j; attempt := 3; nextRetryIn := 40 |}] in
        (attemptsMade (fst (work n j w')) <= 3)%nat /\
        (executions (snd (work n j w')) <= k + 3)%nat /\
        ((3 <= n)%nat ->
         fails (executeWorkflow k d) = true ->
         fails (executeWorkflow (S k) d) = true ->
         fails (executeWorkflow (S (S k)) d) = false ->
         state (fst (work n j w')) = Completed /\
         attemptsMade (fst (work n j w')) = 3 /\
         history (snd (work n j w')) =
           (history w' ++ first ++ second ++ [Executed d; MovedToCompleted (id j)])%list) /\
        ((3 <= n)%nat ->
         fails (executeWorkflow k d) = true ->
         fails (executeWorkflow (S k) d) = true ->
         fails (executeWorkflow (S (S k)) d) = true ->
         state (fst (work n j w')) = Failed /\
         attemptsMade (fst (work n j w')) = 3 /\
         history (snd (work n j w')) =
           (history w' ++ first ++ second ++ [Executed d; MovedToFailed (id j)])%list).
Proof.
  intros Henv.
  destruct (initializeWorkflowQueue_options env w Henv) as [_ Hq].
  destruct (queue_all_holds env requests _ _ Henv Hq eq_refl (List.Forall_nil _))
    as (q & Hl & _ & Hall & Hdata).
  exists q. split; [exact Hl|]. split; [exact Hdata|].
  intros j Hj. rewrite Forall_forall in Hall.
  assert (Hnew : newly_queued j) by (apply Hall; now apply list_elem_of_In).
  split; [exact Hnew|]. intros w' n. now apply retries_of_a_queued_job.
Qed.

End WithExecutor.

(** C9 on a queue of eight jobs: the total is four. *)
Lemma stats_total_witness :
  exists st,
    getWorkflowQueueStats busy = Some st /\
    waiting st = 2 /\ active st = 1 /\ completed st = 3 /\
    failed st = 1 /\ delayed st = 1 /\
    total st = waiting st + active st + delayed st /\
    total st + completed st + failed st = 8.
Proof.
  apply (stats_total_excludes_finished busy
           {| defaultOptions := defaultJobOptions;
              held := [job_in Waiting 0; job_in Completed 1; job_in Active 0;
                       job_in Completed 1; job_in Delayed 1; job_in Failed 3;
                       job_in Waiting 0; job_in Completed 2] |}).
  reflexivity.
Defined.

(** C6 on an executor whose workflow fails: one execution, and the
    caller is told the request ran directly. *)
Lemma direct_execution_witness :
  history (snd (queueWorkflowExecution always_fails no_redis daily_digest None blank))
    = [Executed daily_digest] /\
  executions (snd (queueWorkflowExecution always_fails no_redis daily_digest None blank))
    = 1 /\
  queues (snd (queueWorkflowExecution always_fails no_redis daily_digest None blank))
    = queues blank /\
  fst (queueWorkflowExecution always_fails no_redis daily_digest None blank)
    = Returned {| jobId := "direct-execution"; queued := false |}.
Proof.
  apply (direct_execution_without_backend always_fails no_redis daily_digest None blank).
  reflexivity.
Defined.

(** C7 fails as stated: a failing result without [errorStep] surfaces
    with the error text and no step id, and a failing result with
    neither an error text nor a step surfaces as the bare prefix with the
    word undefined. *)
Lemma failure_without_step_id :
  (fst (processor never_finds fresh_job blank)
     = Threw "Workflow execution failed: Workflow not found " /\
   contains "Workflow not found" "Workflow execution failed: Workflow not found " = true /\
   contains "step" "Workflow execution failed: Workflow not found " = false) /\
  fst (processor fails_bare fresh_job blank)
    = Threw "Workflow execution failed: undefined ".
Proof. vm_compute. repeat split. Qed.

(** C7 on a result that names its error and its step. *)
Lemma failure_message_witness :
  fst (processor always_fails fresh_job blank)
    = Threw "Workflow execution failed: Rate limit exceeded (step: post-tweet)" /\
  contains "Rate limit exceeded"
    "Workflow execution failed: Rate limit exceeded (step: post-tweet)" = true /\
  contains "post-tweet"
    "Workflow execution failed: Rate limit exceeded (step: post-tweet)" = true.
Proof.
  destruct (failure_message_of_processor always_fails fresh_job blank step_failure
              eq_refl eq_refl) as (Hp & Hboth & _).
  destruct (Hboth "Rate limit exceeded" "post-tweet" eq_refl eq_refl ltac:(discriminate))
    as (_ & He & Hc).
  exact (conj Hp (conj He Hc)).
Defined.

(** C2 on two requests for the daily digest, the second with a delay of
    five seconds: on a workflow that fails twice and then succeeds the
    waiting job ends completed after three attempts, and on one that always
    fails the delayed job ends failed after three; the worker makes five
    passes. *)
Lemma three_attempts_witness :
  exists first second,
    queues (queue_all fails_twice with_redis
              [(daily_digest, None); (daily_digest, in_five_seconds)]
              (snd (initializeWorkflowQueue with_redis blank)))
      !! WORKFLOW_QUEUE_NAME
      = Some {| defaultOptions := defaultJobOptions; held := [first; second] |} /\
    state first = Waiting /\ state second = Delayed /\
    (state (fst (work fails_twice 5 first blank)) = Completed /\
     attemptsMade (fst (work fails_twice 5 first blank)) = 3 /\
     executions (snd (work fails_twice 5 first blank)) = 3) /\
    (state (fst (work always_fails 5 second blank)) = Failed /\
     attemptsMade (fst (work always_fails 5 second blank)) = 3 /\
     history (snd (work always_fails 5 second blank)) =
       [Executed daily_digest; MovedToDelayed "2" 10000;
        RetryLogged {| noticeJob := "2"; attempt := 2; nextRetryIn := 20 |};
        Executed daily_digest; MovedToDelayed "2" 20000;
        RetryLogged {| noticeJob := "2"; attempt := 3; nextRetryIn := 40 |};
        Executed daily_digest; MovedToFailed "2"]).
Proof.
  exists fresh_job,
    {| id := "2"; jobName := "workflow-daily-digest"; data := daily_digest;
       opts := defaultJobOptions; priority := 5; attemptsMade := 0;
       state := Delayed; waitMs := 5000 |}.
  split; [reflexivity|]. split; [reflexivity|]. split; [reflexivity|].
  destruct (three_attempts_with_doubling_backoff fails_twice with_redis
              [(daily_digest, None); (daily_digest, in_five_seconds)] blank eq_refl)
    as (q1 & Hq1 & _ & Hall1).
  destruct (three_attempts_with_doubling_backoff always_fails with_redis
              [(daily_digest, None); (daily_digest, in_five_seconds)] blank eq_refl)
    as (q2 & Hq2 & _ & Hall2).
  injection Hq1 as <-. injection Hq2 as <-.
  split.
  - destruct (Hall1 fresh_job (or_introl eq_refl)) as [_ Hwork].
    destruct (Hwork blank 5) as (_ & _ & Hok & _).
    destruct (Hok ltac:(lia) eq_refl eq_refl eq_refl) as (Hs & Ha & Hh).
    split; [exact Hs|]. split; [exact Ha|]. reflexivity.
  - destruct (Hall2 _ (or_intror (or_introl eq_refl))) as [_ Hwork].
    destruct (Hwork blank 5) as (_ & _ & _ & Hbad).
    exact (Hbad ltac:(lia) eq_refl eq_refl eq_refl).
Defined.

End WorkflowQueueFacts.

(** * More facts about the workflow queue *)

Module WorkflowQueueRequestFacts.

Import Json WorkflowQueue.

Section WithExecutor.

Variable executeWorkflow : nat -> WorkflowJobData -> Completion ExecutionResult.

#[local] Abbreviation queueWorkflowExecution :=
  (WorkflowQueue.queueWorkflowExecution executeWorkflow).

Lemma priority_or_default_nonzero options : priority_or_default options <> 0%Z.
Proof.
  unfold priority_or_default. destruct options as [o|]; [|discriminate].
  destruct (optPriority o) as [p|]; [|discriminate].
  destruct (Z.eqb_spec p 0); [discriminate | assumption].
Qed.

(** X23: no request is queued with priority 0. On an initialised queue
    the job that [queueWorkflowExecution] adds has the priority that was
    asked for, and priority 5 when none or 0 was asked for; the call
    itself executes nothing. *)
Theorem priority_zero_is_queued_as_five env d options w q :
  truthy (REDIS_URL env) = true ->
  queues w !! WORKFLOW_QUEUE_NAME = Some q ->
  exists job,
    queues (snd (queueWorkflowExecution env d options w)) !! WORKFLOW_QUEUE_NAME
      = Some {| defaultOptions := defaultOptions q; held := held q ++ [job] |}
    /\ data job = d
    /\ priority job <> 0%Z
    /\ priority job
       = match options with
         | Some {| optPriority := Some p |} => if (p =? 0)%Z then 5%Z else p
         | _ => 5%Z
         end
    /\ executions (snd (queueWorkflowExecution env d options w)) = executions w.
Proof.
  intros Henv Hq.
  destruct (WorkflowQueueFacts.queueWorkflowExecution_enqueues executeWorkflow
              env d options w q Henv Hq)
    as (job & _ & Hd & _ & _ & Hp & He & Hheld).
  exists job. split; [exact Hheld|]. split; [exact Hd|].
  split; [rewrite Hp; apply priority_or_default_nonzero|]. split; [|exact He].
  rewrite Hp. unfold priority_or_default.
  destruct options as [[[p|] ?]|]; reflexivity.
Qed.

End WithExecutor.

Lemma priority_zero_witness :
  exists job,
    queues (snd (queueWorkflowExecution all_succeed with_redis daily_digest urgent
                   (snd (initializeWorkflowQueue with_redis blank))))
      !! WORKFLOW_QUEUE_NAME
      = Some {| defaultOptions := defaultJobOptions; held := [job] |}
    /\ priority job = 5%Z.
Proof.
  destruct (priority_zero_is_queued_as_five all_succeed with_redis daily_digest urgent
              (snd (initializeWorkflowQueue with_redis blank))
              {| defaultOptions := defaultJobOptions; held := [] |} eq_refl)
    as (job & Hheld & _ & _ & Hp & _).
  - reflexivity.
  - exists job. split; [exact Hheld | exact Hp].
Defined.

End WorkflowQueueRequestFacts.

(** ** OpenAI module *)

Module OpenAIFacts.

Import Json OpenAI.

Lemma is_open_record breaker e w : is_open breaker (record e w) = is_open breaker w.
Proof. reflexivity. Qed.

Lemma requests_record_other e w :
  match e with Requested _ _ => False | _ => True end ->
  requests (record e w) = requests w.
Proof.
  intros He. unfold requests, record; simpl.
  rewrite List.filter_app, length_app.
  destruct e; simpl; try lia; contradiction.
Qed.

Section WithApi.

Variable OPENAI_API_KEY : option string.
Variable service : nat -> ChatParams -> Completion ChatResponse.

#[local] Abbreviation createCompletion := (OpenAI.createCompletion OPENAI_API_KEY service).
#[local] Abbreviation createCompletionInternal :=
  (OpenAI.createCompletionInternal OPENAI_API_KEY service).
#[local] Abbreviation chat := (OpenAI.chat OPENAI_API_KEY service).
#[local] Abbreviation generateText := (OpenAI.generateText OPENAI_API_KEY service).

(** What the unprotected function adds to the trace. *)
Lemma createCompletionInternal_trace options w :
  trace (snd (createCompletionInternal options w)) =
    (trace w ++
     if truthy OPENAI_API_KEY
     then [Requested (or_else (model options) "gpt-4o-mini") 60000]
     else [])%list.
Proof.
  unfold OpenAI.createCompletionInternal, openaiClient, create.
  destruct (truthy OPENAI_API_KEY); cbn [negb].
  - cbn [p_model]. destruct (service _ _); reflexivity.
  - cbn [snd]. now rewrite app_nil_r.
Qed.

(** C8, as the code has it. A call of [createCompletion] goes through
    the rate limiter first, then through the circuit breaker, then has
    the breaker's 60000 ms timeout armed, and only then reaches the
    OpenAI client; when the breaker is open the call stops at the breaker
    with an error, and no request is made. *)
Theorem createCompletion_policy_order o w :
  trace (snd (createCompletion o w)) =
    (trace w ++
     LimiterAdmitted "openai" ::
     (if is_open "openai-completion" w
      then [BreakerRejected "openai-completion"]
      else BreakerPassed "openai-completion" ::
           TimerArmed "openai-completion" 60000 ::
           (if truthy OPENAI_API_KEY
            then [Requested (or_else (model o) "gpt-4o-mini") 60000]
            else [])))%list /\
  (if is_open "openai-completion" w
   then fst (createCompletion o w) = Threw "Breaker is open" /\
        requests (snd (createCompletion o w)) = requests w
   else True).
Proof.
  unfold OpenAI.createCompletion, createCompletionRateLimited, withRateLimit, fire.
  cbn [createCompletionWithBreaker createCircuitBreaker options guarded
       breakerName timeout openaiRateLimiter limiterId].
  rewrite is_open_record.
  destruct (is_open "openai-completion" w).
  - cbn [fst snd]. split.
    + cbn [record trace]. now rewrite <- app_assoc.
    + split; [reflexivity|]. now rewrite !requests_record_other.
  - split; [|exact I].
    match goal with
    | |- context [createCompletionInternal ?o ?w'] =>
        pose proof (createCompletionInternal_trace o w') as Ht;
        destruct (createCompletionInternal o w') as [r w2]
    end.
    cbn [snd count_outcome trace] in *. rewrite Ht.
    cbn [record trace]. now rewrite <- !app_assoc.
Qed.

(** [chat] leaves the trace [createCompletion] leaves. *)
Lemma chat_trace messages' model' maxTokens' temperature' w :
  trace (snd (chat messages' model' maxTokens' temperature' w)) =
  trace (snd (createCompletion
                {| messages := messages';
                   model := Some (or_else model' "gpt-4o-mini");
                   maxTokens := maxTokens';
                   temperature := temperature' |} w)).
Proof.
  unfold OpenAI.chat.
  destruct (createCompletion _ w) as [[r|e] w1]; reflexivity.
Qed.

(** [generateText] reaches the client directly. *)
Lemma generateText_trace params w :
  truthy (apiKey params) || truthy OPENAI_API_KEY = true ->
  trace (snd (generateText params w)) =
    (trace w ++ [Requested (or_else (g_model params) "gpt-4o-mini") 60000])%list.
Proof.
  intros Hk. unfold OpenAI.generateText, openaiClient, create.
  destruct (truthy (apiKey params)); cbn [negb].
  - cbn [p_model]. destruct (service _ _); reflexivity.
  - cbn [orb] in Hk. rewrite Hk. cbn [negb p_model].
    destruct (service _ _); reflexivity.
Qed.

End WithApi.

(** C8 fails as stated: [generateText] performs the request without
    passing the rate limiter or the breaker, also while the breaker of
    the protected path is open and rejects [createCompletion]. *)
Lemma generateText_bypasses_policies :
  is_open "openai-completion" tripped = true /\
  trace (snd (generateText (Some "sk-test") answering say_hello_text tripped))
    = [Requested "gpt-4o-mini" 60000] /\
  trace (snd (createCompletion (Some "sk-test") answering say_hello tripped))
    = [LimiterAdmitted "openai"; BreakerRejected "openai-completion"] /\
  trace (snd (createCompletion (Some "sk-test") answering say_hello quiet))
    = [LimiterAdmitted "openai"; BreakerPassed "openai-completion";
       TimerArmed "openai-completion" 60000; Requested "gpt-4o-mini" 60000].
Proof. vm_compute. repeat split. Qed.

End OpenAIFacts.

(** ** Variable references *)

Module ValidateFacts.

Import Json Validate.

Lemma append_assoc (a b c : string) : (a ++ b) ++ c = a ++ b ++ c.
Proof.
  induction a as [|x a IH]; [reflexivity|].
  change (String x ((a ++ b) ++ c) = String x (a ++ b ++ c)).
  now rewrite IH.
Qed.

Lemma length_append (a b : string) :
  String.length (a ++ b) = String.length a + String.length b.
Proof.
  induction a as [|x a IH]; [reflexivity|].
  change (String x a ++ b) with (String x (a ++ b)). cbn [String.length].
  now rewrite IH.
Qed.

(** Reading a run of word characters inside a name. *)
Lemma scan_word_run w : forall st len tail,
  in_name st -> every is_word w = true ->
  scan st len (w ++ tail) = scan st (len + String.length w) tail.
Proof.
  induction w as [|c w IH]; intros st len tail Hst Hw.
  - change ("" ++ tail) with tail. cbn. now rewrite Nat.add_0_r.
  - cbn [every] in Hw. apply andb_true_iff in Hw as [Hc Hw].
    change (String c w ++ tail) with (String c (w ++ tail)).
    destruct Hst as [-> | ->]; cbn [scan]; rewrite Hc;
      (rewrite IH; [|(now left) || (now right)|assumption]);
      cbn [String.length]; f_equal; lia.
Qed.

Lemma scan_digit_run d : forall len tail,
  every is_digit d = true ->
  scan InIndex len (d ++ tail) = scan InIndex (len + String.length d) tail.
Proof.
  induction d as [|c d IH]; intros len tail Hd.
  - change ("" ++ tail) with tail. cbn. now rewrite Nat.add_0_r.
  - cbn [every] in Hd. apply andb_true_iff in Hd as [Hc Hd].
    change (String c d ++ tail) with (String c (d ++ tail)).
    cbn [scan]. rewrite Hc, IH by assumption.
    cbn [String.length]. f_equal. lia.
Qed.

Lemma scan_closing st len rest :
  closable st -> scan st len ("}}" ++ rest) = Some (len + 2).
Proof.
  change ("}}" ++ rest) with (String "}" (String "}" rest)).
  intros [-> | [-> | ->]]; cbn; f_equal; lia.
Qed.

Lemma scan_indices ixs : forall st len rest,
  closable st -> Forall number ixs ->
  scan st len (indices ixs ++ "}}" ++ rest)
    = Some (len + String.length (indices ixs) + 2).
Proof.
  induction ixs as [|i ixs IH]; intros st len rest Hst Hixs.
  - change (indices [] ++ "}}" ++ rest) with ("}}" ++ rest).
    rewrite scan_closing by assumption. cbn. f_equal. lia.
  - inversion Hixs as [|? ? [Hne Hd] Hrest]; subst.
    destruct i as [|c d]; [contradiction|].
    cbn [every] in Hd. apply andb_true_iff in Hd as [Hc Hd].
    change (indices (String c d :: ixs)) with ("[" ++ String c d ++ "]" ++ indices ixs).
    rewrite !append_assoc.
    change ("[" ++ String c d ++ "]" ++ indices ixs ++ "}}" ++ rest)
      with (String "[" (String c (d ++ String "]" (indices ixs ++ "}}" ++ rest)))).
    assert (Hopen : scan st len
              (String "[" (String c (d ++ String "]" (indices ixs ++ "}}" ++ rest))))
            = scan InIndex (S (S len)) (d ++ String "]" (indices ixs ++ "}}" ++ rest))).
    { destruct Hst as [-> | [-> | ->]]; cbn [scan]; cbn; now rewrite Hc. }
    rewrite Hopen, scan_digit_run by assumption.
    cbn [scan]. change (is_digit "]") with false. cbn.
    rewrite IH by (unfold closable; auto).
    f_equal. rewrite !length_append. cbn [String.length]. lia.
Qed.

Lemma in_name_closable st : in_name st -> closable st.
Proof. unfold in_name, closable. tauto. Qed.

Lemma scan_fields fs : forall st len ixs rest,
  in_name st -> Forall word fs -> Forall number ixs ->
  scan st len (fields fs ++ indices ixs ++ "}}" ++ rest)
    = Some (len + String.length (fields fs) + String.length (indices ixs) + 2).
Proof.
  induction fs as [|f fs IH]; intros st len ixs rest Hst Hfs Hixs.
  - change (fields [] ++ indices ixs ++ "}}" ++ rest) with (indices ixs ++ "}}" ++ rest).
    rewrite scan_indices by auto using in_name_closable. cbn. f_equal. lia.
  - inversion Hfs as [|? ? [Hne Hw] Hrest]; subst.
    destruct f as [|c w]; [contradiction|].
    cbn [every] in Hw. apply andb_true_iff in Hw as [Hc Hw].
    change (fields (String c w :: fs)) with ("." ++ String c w ++ fields fs).
    rewrite !append_assoc.
    change ("." ++ String c w ++ fields fs ++ indices ixs ++ "}}" ++ rest)
      with (String "." (String c (w ++ fields fs ++ indices ixs ++ "}}" ++ rest))).
    assert (Hdot : scan st len
              (String "." (String c (w ++ fields fs ++ indices ixs ++ "}}" ++ rest)))
            = scan InField (S (S len)) (w ++ fields fs ++ indices ixs ++ "}}" ++ rest)).
    { destruct Hst as [-> | ->]; cbn [scan]; cbn; now rewrite Hc. }
    rewrite Hdot, scan_word_run by (assumption || now right).
    rewrite IH by (assumption || now right).
    f_equal. rewrite !length_append. cbn [String.length]. lia.
Qed.

(** Every string of the expression's shape is matched where it stands,
    whatever follows it, and over its whole length. *)
Lemma scan_reference root fs ixs rest :
  word root -> Forall word fs -> Forall number ixs ->
  scan Start 0 (reference root fs ixs ++ rest)
    = Some (String.length (reference root fs ixs)).
Proof.
  intros [Hne Hw] Hfs Hixs. destruct root as [|c w]; [contradiction|].
  cbn [every] in Hw. apply andb_true_iff in Hw as [Hc Hw].
  unfold reference. rewrite !append_assoc.
  change ("{{" ++ String c w ++ fields fs ++ indices ixs ++ "}}" ++ rest)
    with (String "{" (String "{" (String c (w ++ fields fs ++ indices ixs ++ "}}" ++ rest)))).
  cbn [scan]. cbn. rewrite Hc.
  rewrite scan_word_run by (assumption || now left).
  rewrite scan_fields by (assumption || now left).
  f_equal.
  change ("{{" ++ String c w ++ fields fs ++ indices ixs ++ "}}")
    with (String "{" (String "{" (String c (w ++ fields fs ++ indices ixs ++ "}}")))).
  cbn [String.length]. rewrite !length_append. cbn [String.length]. lia.
Qed.

Lemma word_run_app w tail :
  every is_word w = true ->
  match tail with String c _ => is_word c = false | EmptyString => True end ->
  word_run (w ++ tail) = w.
Proof.
  intros Hw Htail. induction w as [|c w IH].
  - change ("" ++ tail) with tail. destruct tail as [|c t]; [reflexivity|].
    cbn. now rewrite Htail.
  - cbn [every] in Hw. apply andb_true_iff in Hw as [Hc Hw].
    change (String c w ++ tail) with (String c (w ++ tail)).
    cbn [word_run]. rewrite Hc. f_equal. now apply IH.
Qed.

Lemma tail_starts_outside_word fs ixs :
  Forall word fs -> Forall number ixs ->
  match fields fs ++ indices ixs ++ "}}" with
  | String c _ => is_word c = false
  | EmptyString => True
  end.
Proof.
  intros _ _. destruct fs as [|f fs]; [destruct ixs as [|i ixs]|]; reflexivity.
Qed.

(** The root the pass extracts from a match is the root of the
    reference. *)
Lemma varName_reference root fs ixs :
  word root -> Forall word fs -> Forall number ixs ->
  varName (reference root fs ixs) = Some root.
Proof.
  intros [Hne Hw] Hfs Hixs. unfold reference.
  change ("{{" ++ root ++ fields fs ++ indices ixs ++ "}}")
    with (String "{" (String "{" (root ++ fields fs ++ indices ixs ++ "}}"))).
  cbn [varName]. cbn.
  rewrite (word_run_app root _ Hw (tail_starts_outside_word fs ixs Hfs Hixs)).
  now destruct root.
Qed.

Lemma name_then_weaken s k : name_then true s k -> name_then false s k.
Proof.
  intros (w & fs & ixs & rest & _ & H). exists w, fs, ixs, rest.
  split; [discriminate | exact H].
Qed.

(** One more word character in front of a name. *)
Lemma name_then_cons c s k b :
  is_word c = true -> name_then b s k -> name_then true (String c s) (S k).
Proof.
  intros Hc (w & fs & ixs & rest & _ & Hw & Hfs & Hixs & -> & ->).
  exists (String c w), fs, ixs, rest.
  split; [discriminate|]. split; [cbn; now rewrite Hc|].
  repeat (split; [assumption|]). split; [reflexivity|].
  cbn [String.length]. lia.
Qed.

(** A dot and a field in front of what follows a name. *)
Lemma name_then_dot s k :
  name_then true s k -> name_then false (String "." s) (S k).
Proof.
  intros (w & fs & ixs & rest & Hne & Hw & Hfs & Hixs & -> & ->).
  exists "", (w :: fs), ixs, rest.
  split; [discriminate|]. split; [reflexivity|].
  split; [constructor; [split; auto | assumption]|].
  split; [assumption|]. split.
  - unfold after_name. change (fields (w :: fs)) with ("." ++ w ++ fields fs).
    now rewrite !append_assoc.
  - change (fields (w :: fs)) with (String "." (w ++ fields fs)).
    cbn [String.length]. rewrite length_append. lia.
Qed.

(** An index in front of what follows an index. *)
Lemma indexed_bracket s k :
  digits_then true s k ->
  exists ixs rest,
    Forall number ixs /\ String "[" s = after_index ixs rest /\
    S k = String.length (indices ixs) + 2.
Proof.
  intros (d & ixs & rest & Hne & Hd & Hixs & -> & ->).
  exists (d :: ixs), rest.
  split; [constructor; [split; auto | assumption]|]. split.
  - unfold after_index. change (indices (d :: ixs)) with ("[" ++ d ++ "]" ++ indices ixs).
    now rewrite !append_assoc.
  - change (indices (d :: ixs)) with (String "[" (d ++ "]" ++ indices ixs)).
    cbn [String.length]. rewrite !length_append. cbn [String.length]. lia.
Qed.

Lemma name_then_indexed s k :
  (exists ixs rest,
     Forall number ixs /\ s = after_index ixs rest /\
     k = String.length (indices ixs) + 2) ->
  name_then false s k.
Proof.
  intros (ixs & rest & Hixs & -> & ->).
  exists "", [], ixs, rest.
  split; [discriminate|]. split; [reflexivity|]. split; [constructor|].
  split; [assumption|]. split; [reflexivity|]. cbn. lia.
Qed.

Lemma digits_then_cons c s k b :
  is_digit c = true -> digits_then b s k -> digits_then true (String c s) (S k).
Proof.
  intros Hc (d & ixs & rest & _ & Hd & Hixs & -> & ->).
  exists (String c d), ixs, rest.
  split; [discriminate|]. split; [cbn; now rewrite Hc|].
  split; [assumption|]. split; [reflexivity|]. cbn [String.length]. lia.
Qed.

Lemma digits_then_close s k :
  (exists ixs rest,
     Forall number ixs /\ s = after_index ixs rest /\
     k = String.length (indices ixs) + 2) ->
  digits_then false (String "]" s) (S k).
Proof.
  intros (ixs & rest & Hixs & -> & ->).
  exists "", ixs, rest.
  split; [discriminate|]. split; [reflexivity|]. split; [assumption|].
  split; [reflexivity|]. cbn. lia.
Qed.

Lemma indexed_closing s k :
  (exists rest, s = String "}" rest /\ k = 1) ->
  exists ixs rest,
    Forall number ixs /\ String "}" s = after_index ixs rest /\
    S k = String.length (indices ixs) + 2.
Proof.
  intros (rest & -> & ->). exists [], rest. split; [constructor|]. split; reflexivity.
Qed.

(** Whatever the scanner accepts has the expression's shape. *)
Lemma scan_shape s : forall st len n,
  scan st len s = Some n -> exists k, n = len + k /\ shape st s k.
Proof.
  induction s as [|c s IH]; intros st len n H; [discriminate|].
  destruct st; cbn [scan] in H;
    repeat match type of H with
    | (if Ascii.eqb c ?x then _ else _) = _ =>
        destruct (Ascii.eqb_spec c x); [subst c|]
    | (if is_word c then _ else _) = _ => destruct (is_word c) eqn:?
    | (if is_digit c then _ else _) = _ => destruct (is_digit c) eqn:?
    end; try discriminate;
    try (apply IH in H as (k & -> & Hk); exists (S k); split; [lia|]; cbn [shape] in * ).
  - (* Start *) destruct Hk as (s' & k' & -> & -> & Hk). eauto.
  - (* Opened *) eauto.
  - (* RootDue *) eauto using name_then_cons.
  - (* InRoot, a word character *) eauto using name_then_weaken, name_then_cons.
  - (* InRoot, a dot *) eauto using name_then_dot.
  - (* InRoot, a bracket *) eauto using name_then_indexed, indexed_bracket.
  - (* InRoot, a brace *) eauto using name_then_indexed, indexed_closing.
  - (* FieldDue *) eauto using name_then_cons.
  - (* InField *) eauto using name_then_weaken, name_then_cons.
  - eauto using name_then_dot.
  - eauto using name_then_indexed, indexed_bracket.
  - eauto using name_then_indexed, indexed_closing.
  - (* IndexDue *) eauto using digits_then_cons.
  - (* InIndex *) destruct (digits_then_cons c s k false Heqb Hk) as (d & ixs & rest & _ & H').
    exists d, ixs, rest. split; [discriminate | exact H'].
  - eauto using digits_then_close.
  - (* Indexed *) eauto using indexed_bracket.
  - eauto using indexed_closing.
  - (* Closing *) injection H as <-. exists 1. split; [lia|]. cbn. eauto.
Qed.

(** The scanner accepts at the head of a string exactly the texts of
    the expression's shape, over their whole length. *)
Lemma scan_matches_expression s n :
  scan Start 0 s = Some n <->
  exists root fs ixs rest,
    word root /\ Forall word fs /\ Forall number ixs /\
    s = reference root fs ixs ++ rest /\
    n = String.length (reference root fs ixs).
Proof.
  split.
  - intros H. apply scan_shape in H as (k & -> & Hk). cbn [shape] in Hk.
    destruct Hk as (s' & k' & -> & -> & w & fs & ixs & rest & Hne & Hw & Hfs & Hixs & -> & ->).
    exists w, fs, ixs, rest.
    split; [split; auto|]. repeat (split; [assumption|]).
    unfold reference, after_name, after_index. split.
    + now rewrite !append_assoc.
    + change ("{{" ++ w ++ fields fs ++ indices ixs ++ "}}")
        with (String "{" (String "{" (w ++ fields fs ++ indices ixs ++ "}}"))).
      cbn [String.length]. rewrite !length_append. cbn [String.length]. lia.
  - intros (root & fs & ixs & rest & Hr & Hfs & Hixs & -> & ->).
    now apply scan_reference.
Qed.

Lemma substring_prefix (a b : string) : substring 0 (String.length a) (a ++ b) = a.
Proof.
  induction a as [|x a IH].
  - change ("" ++ b) with b. now destruct b.
  - change (String x a ++ b) with (String x (a ++ b)).
    cbn [String.length substring]. now rewrite IH.
Qed.

(** Passing over the rest of a match. *)
Lemma matches_from_skip (a b : string) :
  matches_from (String.length a) (a ++ b) = matches_from 0 b.
Proof.
  induction a as [|x a IH]; [reflexivity|].
  change (String x a ++ b) with (String x (a ++ b)).
  cbn [String.length matches_from]. exact IH.
Qed.

(** The search: nothing in the empty string; where the expression does
    not match, the search moves one character on; where it matches, the
    match is taken and the search goes on behind it. *)
Lemma variableRefs_empty : variableRefs "" = [].
Proof. reflexivity. Qed.

Lemma variableRefs_no_match c s :
  scan Start 0 (String c s) = None ->
  variableRefs (String c s) = variableRefs s.
Proof. intros H. unfold variableRefs. cbn [matches_from]. now rewrite H. Qed.

Lemma variableRefs_match t rest :
  scan Start 0 (t ++ rest) = Some (String.length t) ->
  variableRefs (t ++ rest) = t :: variableRefs rest.
Proof.
  intros H. unfold variableRefs. destruct t as [|c t].
  - apply scan_shape in H as (k & Hn & s' & k' & _ & -> & _). cbn in Hn. lia.
  - change (String c t ++ rest) with (String c (t ++ rest)) in *.
    cbn [matches_from]. rewrite H. f_equal.
    + change (String c (t ++ rest)) with (String c t ++ rest). apply substring_prefix.
    + cbn [String.length]. rewrite Nat.sub_succ, Nat.sub_0_r. apply matches_from_skip.
Qed.

(** A reference in the text is found, with its root, and the search goes
    on behind it. *)
Lemma variableRefs_reference root fs ixs rest :
  word root -> Forall word fs -> Forall number ixs ->
  variableRefs (reference root fs ixs ++ rest)
    = reference root fs ixs :: variableRefs rest /\
  omap varName (variableRefs (reference root fs ixs ++ rest))
    = root :: omap varName (variableRefs rest).
Proof.
  intros Hr Hfs Hixs.
  rewrite variableRefs_match by now apply scan_reference.
  split; [reflexivity|].
  change (omap varName (reference root fs ixs :: variableRefs rest))
    with (match varName (reference root fs ixs) with
          | Some v => v :: omap varName (variableRefs rest)
          | None => omap varName (variableRefs rest)
          end).
  now rewrite varName_reference.
Qed.

Lemma visit_fst index step errors declaredVariables :
  visit index step (errors, declaredVariables) =
    ((errors ++ check_step declaredVariables index step)%list,
     declares step ∪ declaredVariables).
Proof.
  unfold visit, check_step, declares.
  destruct (truthy (outputAs step)); [reflexivity|].
  now rewrite (left_id_L ∅ (∪)).
Qed.

Lemma declared_by_cons step l : declared_by (step :: l) = declares step ∪ declared_by l.
Proof. reflexivity. Qed.

(** The loop with its two accumulators, against the declarative reading:
    the step at position [i] is checked against the names the steps
    before it declare. *)
Lemma forEach_spec l : forall k errors declaredVariables,
  forEach l k (errors, declaredVariables) =
    ((errors ++ concat (imap (fun i step =>
                  check_step (declared_by (take i l) ∪ declaredVariables) (k + i) step) l))%list,
     declared_by l ∪ declaredVariables).
Proof.
  induction l as [|step l IH]; intros k errors declaredVariables.
  - cbn. rewrite app_nil_r. now rewrite (left_id_L ∅ (∪)).
  - cbn [forEach]. rewrite visit_fst, IH.
    rewrite declared_by_cons.
    assert (Hu : declared_by l ∪ (declares step ∪ declaredVariables)
                 = declares step ∪ declared_by l ∪ declaredVariables) by set_solver.
    rewrite Hu. f_equal.
    cbn [imap concat]. rewrite <- app_assoc. f_equal. f_equal.
    + cbn [take declared_by foldr]. rewrite Nat.add_0_r.
      now rewrite (left_id_L ∅ (∪)).
    + f_equal. apply imap_ext. intros i x _. cbn [compose take].
      rewrite declared_by_cons.
      replace (S k + i) with (k + S i) by lia.
      f_equal. set_solver.
Qed.

Lemma validateVariableReferences_unfold workflow :
  validateVariableReferences workflow =
    concat (imap (fun i step => check_step (declared_by (take i (steps workflow))) i step)
              (steps workflow)).
Proof.
  unfold validateVariableReferences. rewrite forEach_spec. cbn [fst app].
  f_equal. apply imap_ext. intros i step _. cbn.
  now rewrite (right_id_L ∅ (∪)).
Qed.

(** X1. [validateVariableReferences] returns, step by step in document
    order, the messages for the references of the step at position [i]
    checked against the output names of the steps before position [i]. *)
Theorem validateVariableReferences_in_document_order workflow :
  validateVariableReferences workflow =
    concat (imap (fun i step => check_step (declared_by (take i (steps workflow))) i step)
              (steps workflow)).
Proof. exact (validateVariableReferences_unfold workflow). Qed.

Lemma check_ref_accepts declaredVariables index step ref :
  (forall v, varName ref = Some v -> v = "user" \/ v ∈ declaredVariables) ->
  check_ref declaredVariables index step ref = [].
Proof.
  intros Hok. unfold check_ref. destruct (varName ref) as [v|]; [|reflexivity].
  destruct (Hok v eq_refl) as [-> | Hin].
  - cbn. now rewrite andb_false_r.
  - rewrite (bool_decide_eq_true_2 _ Hin). cbn. now rewrite andb_false_r.
Qed.

Lemma check_ref_rejects declaredVariables index step ref v :
  varName ref = Some v -> v <> "" -> v <> "user" -> v ∉ declaredVariables ->
  check_ref declaredVariables index step ref = [undeclared index step v].
Proof.
  intros Hv Hne Hu Hd. unfold check_ref. rewrite Hv.
  destruct (String.eqb_spec v ""); [contradiction|].
  destruct (String.eqb_spec v "user"); [contradiction|].
  now rewrite (bool_decide_eq_false_2 _ Hd).
Qed.

Lemma elem_of_roots step v :
  v ∈ roots step <->
  exists ref, ref ∈ variableRefs (stringify (JObj (inputs step))) /\ varName ref = Some v.
Proof. unfold roots. apply list_elem_of_omap. Qed.

Lemma flat_map_nil {A B} (f : A -> list B) l :
  (forall x, x ∈ l -> f x = []) -> flat_map f l = [].
Proof.
  induction l as [|x l IH]; intros Hf; [reflexivity|].
  cbn. rewrite (Hf x) by left. apply IH. intros y Hy. apply Hf. now right.
Qed.

(** The root of a reference is never empty. *)
Lemma varName_nonempty ref v : varName ref = Some v -> v <> "".
Proof.
  induction ref as [|c rest IH]; [discriminate|].
  cbn [varName]. destruct (Ascii.eqb c "{"); [|exact IH].
  destruct rest as [|c' rest']; [exact IH|].
  destruct (Ascii.eqb c' "{"); [|exact IH].
  destruct (word_run rest') eqn:Hw; [exact IH|].
  intros [= <-]. discriminate.
Qed.

(** X2. A workflow in which every reference the pass finds is rooted at
    [user] or at an output name declared by a strictly earlier step
    yields no message. *)
Theorem bound_references_accepted workflow :
  (forall i step v,
     steps workflow !! i = Some step -> v ∈ roots step ->
     v = "user" \/ v ∈ declared_by (take i (steps workflow))) ->
  validateVariableReferences workflow = [].
Proof.
  intros Hok. rewrite validateVariableReferences_unfold.
  apply concat_nil_Forall, Forall_lookup. intros i errs Hi.
  rewrite list_lookup_imap in Hi.
  destruct (steps workflow !! i) as [step|] eqn:Hstep; [|discriminate].
  cbn in Hi. injection Hi as <-.
  unfold check_step. apply flat_map_nil. intros ref Href.
  apply check_ref_accepts. intros v Hv.
  apply (Hok i step v Hstep). apply elem_of_roots. eauto.
Qed.

(** X3. A reference the pass finds whose root is neither [user] nor an
    output name declared by a strictly earlier step is reported, with
    the position and id of its step. *)
Theorem unbound_reference_reported workflow i step v :
  steps workflow !! i = Some step -> v ∈ roots step ->
  v <> "user" -> v ∉ declared_by (take i (steps workflow)) ->
  undeclared i step v ∈ validateVariableReferences workflow.
Proof.
  intros Hstep Hroot Hu Hd. rewrite validateVariableReferences_unfold.
  apply elem_of_roots in Hroot as (ref & Href & Hv).
  apply list_elem_of_In, in_concat.
  exists (check_step (declared_by (take i (steps workflow))) i step). split.
  - apply list_elem_of_In, elem_of_lookup_imap. eauto.
  - unfold check_step. apply in_flat_map. exists ref. split.
    + now apply list_elem_of_In.
    + rewrite (check_ref_rejects _ i step ref v Hv (varName_nonempty _ _ Hv) Hu Hd).
      now left.
Qed.

(** C3 on the chat workflow. The first step reads the trigger payload
    and a credential, as the workflow builder's guide writes them, and
    both references are reported as undeclared. In the second step the
    reference to the first step's output and the one rooted at [user]
    pass, while the one to the third step's output is reported. The
    reference in the third step names no declared output and is not
    reported: the expression does not match a bracket followed by a
    field. *)
Theorem trigger_reference_reported :
  validateVariableReferences chat_workflow =
    [ "Step 1 (reply): References undeclared variable "
        ++ String dquote ("trigger" ++ String dquote "");
      "Step 1 (reply): References undeclared variable "
        ++ String dquote ("credential" ++ String dquote "");
      "Step 2 (shout): References undeclared variable "
        ++ String dquote ("later" ++ String dquote "") ].
Proof. vm_compute. reflexivity. Qed.

Lemma declared_before_digest :
  declared_by (take 1 (steps tidy_workflow)) = {[ "tweets" ]}.
Proof. cbn [take steps tidy_workflow declared_by foldr]. unfold declares. cbn [truthy outputAs]. cbn. set_solver. Qed.

(** X2 on the tweet digest. *)
Lemma bound_references_accepted_witness :
  validateVariableReferences tidy_workflow = [].
Proof.
  apply (bound_references_accepted tidy_workflow).
  intros i step v Hstep Hroot.
  destruct i as [|[|i]]; cbn in Hstep; try discriminate;
    injection Hstep as <-; apply list_elem_of_In in Hroot; vm_compute in Hroot.
  - destruct Hroot as [<-|[]]. now left.
  - right. rewrite declared_before_digest.
    destruct Hroot as [<-|[<-|[]]]; set_solver.
Defined.

(** X3 on the chat workflow: the second step reads the output of the
    third. *)
Lemma unbound_reference_reported_witness :
  undeclared 1 shout_step "later" ∈ validateVariableReferences chat_workflow.
Proof.
  apply (unbound_reference_reported chat_workflow 1 shout_step "later").
  - reflexivity.
  - apply list_elem_of_In. vm_compute. tauto.
  - discriminate.
  - cbn [take steps chat_workflow declared_by foldr]. unfold declares.
    cbn [truthy outputAs reply_step]. cbn. set_solver.
Defined.

End ValidateFacts.

(** * The references the variable pass finds are the references of the text *)

Module ValidateReferencesFacts.

Import Json Validate ValidateReferences.

Lemma inside_refl t : inside t t.
Proof.
  exists "", "". change ("" ++ t ++ "") with (t ++ "").
  induction t as [|c t IH]; [reflexivity|].
  change (String c t ++ "") with (String c (t ++ "")). now rewrite <- IH.
Qed.

Lemma inside_app_l t a s : inside t s -> inside t (a ++ s).
Proof.
  intros (x & y & ->). exists (a ++ x), y. now rewrite ValidateFacts.append_assoc.
Qed.

Lemma inside_app_r t s b : inside t s -> inside t (s ++ b).
Proof.
  intros (x & y & ->). exists x, (y ++ b). now rewrite !ValidateFacts.append_assoc.
Qed.

Lemma inside_cons t c s : inside t s -> inside t (String c s).
Proof. apply (inside_app_l t (String c "") s). Qed.

Lemma every_app p a b : every p (a ++ b) = every p a && every p b.
Proof.
  induction a as [|c a IH]; [reflexivity|].
  change (String c a ++ b) with (String c (a ++ b)). cbn [every].
  now rewrite IH, andb_assoc.
Qed.

Lemma every_impl (p q : ascii -> bool) s :
  (forall c, p c = true -> q c = true) -> every p s = true -> every q s = true.
Proof.
  intros Hpq. induction s as [|c s IH]; [reflexivity|]. cbn [every].
  intros [Hc Hs]%andb_true_iff. now rewrite (Hpq c Hc), IH.
Qed.

Lemma digit_plain c : is_digit c = true -> is_plain c = true.
Proof.
  unfold is_digit, is_plain. cbv zeta.
  generalize (nat_of_ascii c). intros n.
  destruct (Nat.leb_spec 48 n), (Nat.leb_spec n 57); try discriminate. intros _.
  destruct (Nat.leb_spec 32 n), (Nat.eqb_spec n 34), (Nat.eqb_spec n 92);
    try reflexivity; lia.
Qed.

Lemma word_plain c : is_word c = true -> is_plain c = true.
Proof.
  unfold is_word, is_digit, is_plain. cbv zeta.
  generalize (nat_of_ascii c). intros n.
  destruct (Nat.leb_spec 32 n), (Nat.eqb_spec n 34), (Nat.eqb_spec n 92);
    try reflexivity; intros Hword; exfalso;
    destruct (Nat.leb_spec 48 n), (Nat.leb_spec n 57), (Nat.leb_spec 65 n),
      (Nat.leb_spec n 90), (Nat.leb_spec 97 n), (Nat.leb_spec n 122),
      (Nat.eqb_spec n 95); cbn in Hword; try discriminate; lia.
Qed.

Lemma plain_fields fs : Forall word fs -> every is_plain (fields fs) = true.
Proof.
  induction 1 as [|f fs [_ Hf] _ IH]; [reflexivity|].
  cbn [fields fold_right]. fold (fields fs).
  change ("." ++ f ++ fields fs) with (String "." (f ++ fields fs)).
  cbn [every]. rewrite every_app, IH, (every_impl _ _ _ word_plain Hf). reflexivity.
Qed.

Lemma plain_indices ixs : Forall number ixs -> every is_plain (indices ixs) = true.
Proof.
  induction 1 as [|d ixs [_ Hd] _ IH]; [reflexivity|].
  cbn [indices fold_right]. fold (indices ixs).
  change ("[" ++ d ++ "]" ++ indices ixs) with (String "[" (d ++ String "]" (indices ixs))).
  cbn [every]. rewrite every_app. cbn [every].
  rewrite IH, (every_impl _ _ _ digit_plain Hd). reflexivity.
Qed.

Lemma plain_reference root fs ixs :
  word root -> Forall word fs -> Forall number ixs ->
  every is_plain (reference root fs ixs) = true.
Proof.
  intros [_ Hr] Hfs Hixs. unfold reference.
  change ("{{" ++ root ++ fields fs ++ indices ixs ++ "}}")
    with (String "{" (String "{" (root ++ fields fs ++ indices ixs ++ "}}"))).
  cbn [every]. rewrite !every_app.
  rewrite (every_impl _ _ _ word_plain Hr), plain_fields, plain_indices by assumption.
  reflexivity.
Qed.

Lemma escape_app a b : escape (a ++ b) = escape a ++ escape b.
Proof.
  induction a as [|c a IH]; [reflexivity|].
  change (String c a ++ b) with (String c (a ++ b)). cbn [escape].
  now rewrite IH, ValidateFacts.append_assoc.
Qed.

Lemma escape_char_plain c : is_plain c = true -> escape_char c = String c "".
Proof.
  unfold is_plain, escape_char. cbv zeta. generalize (nat_of_ascii c). intros n.
  intros [[H32 H34]%andb_true_iff H92]%andb_true_iff.
  apply Nat.leb_le in H32. apply negb_true_iff in H34, H92. rewrite H34, H92.
  destruct (Nat.eqb_spec n 8); [lia|]. destruct (Nat.eqb_spec n 12); [lia|].
  destruct (Nat.eqb_spec n 10); [lia|]. destruct (Nat.eqb_spec n 13); [lia|].
  destruct (Nat.eqb_spec n 9); [lia|]. destruct (Nat.ltb_spec n 32); [lia|].
  reflexivity.
Qed.

Lemma escape_plain s : every is_plain s = true -> escape s = s.
Proof.
  induction s as [|c s IH]; [reflexivity|]. cbn [every escape].
  intros [Hc Hs]%andb_true_iff. now rewrite (escape_char_plain c Hc), IH.
Qed.

Lemma quote_inside t pre post : escape t = t -> inside t (quote (pre ++ t ++ post)).
Proof.
  intros Ht. unfold quote. rewrite !escape_app, Ht.
  apply inside_cons, inside_app_r, inside_app_l, inside_app_r, inside_refl.
Qed.

Lemma stringify_arr items : stringify (JArr items) = "[" ++ elems items ++ "]".
Proof.
  reflexivity.
Qed.

Lemma stringify_obj fields : stringify (JObj fields) = "{" ++ members fields ++ "}".
Proof.
  reflexivity.
Qed.

Lemma elems_inside t items v :
  In v items -> inside t (stringify v) -> inside t (elems items).
Proof.
  intros Hin Hv. induction items as [|x rest IH]; [destruct Hin|].
  cbn [elems]. destruct Hin as [-> | Hin].
  - destruct rest; [exact Hv | now apply inside_app_r].
  - destruct rest as [|y rest]; [destruct Hin|].
    apply inside_app_l, inside_app_l. now apply IH.
Qed.

Lemma members_inside t fields k v :
  In (k, v) fields ->
  inside t (quote k) \/ inside t (stringify v) ->
  inside t (members fields).
Proof.
  intros Hin Hv. induction fields as [|[k' x] rest IH]; [destruct Hin|].
  cbn [members]. destruct Hin as [[= -> ->] | Hin].
  - assert (H : inside t (quote k ++ ":" ++ stringify v)).
    { destruct Hv as [Hk | Hv].
      - now apply inside_app_r.
      - now apply inside_app_l, inside_app_l. }
    destruct rest; [exact H|].
    rewrite <- (ValidateFacts.append_assoc (":") (stringify v)).
    rewrite <- (ValidateFacts.append_assoc (quote k)).
    now apply inside_app_r.
  - destruct rest as [|y rest]; [destruct Hin|].
    do 4 apply inside_app_l. now apply IH.
Qed.

(** A text of plain characters that stands in a value stands in what
    [JSON.stringify] writes for it. *)
Lemma stringify_occurs t v : escape t = t -> occurs t v -> inside t (stringify v).
Proof.
  intros Ht. induction 1 as [pre post | items v Hin _ IH | fields k v Hin _ IH
                            | fields pre post v Hin].
  - cbn [stringify]. now apply quote_inside.
  - rewrite stringify_arr. apply inside_app_l, inside_app_r.
    now apply (elems_inside t items v).
  - rewrite stringify_obj. apply inside_app_l, inside_app_r.
    apply (members_inside t fields k v); auto.
  - rewrite stringify_obj. apply inside_app_l, inside_app_r.
    apply (members_inside t fields _ v Hin). left. now apply quote_inside.
Qed.

(** A match that starts before two opening braces ends before them:
    behind its first two characters a match holds no opening brace. *)
Lemma scan_stops_before_braces p : forall st len rest n,
  (st = Start -> p <> "") ->
  scan st len (p ++ "{{" ++ rest) = Some n -> (n <= len + String.length p)%nat.
Proof.
  induction p as [|c p IH]; intros st len rest n Hst.
  - change ("" ++ "{{" ++ rest) with (String "{" (String "{" rest)).
    destruct st; cbn; try discriminate. now destruct Hst.
  - change (String c p ++ "{{" ++ rest) with (String c (p ++ "{{" ++ rest)).
    cbn [scan String.length].
    destruct st;
      repeat match goal with
             | |- context [if ?b then _ else _] => destruct b
             end;
      try discriminate;
      try (intros H; apply IH in H; [lia | discriminate]);
      intros [= <-]; lia.
Qed.

Lemma split_at (s : string) k :
  (k <= String.length s)%nat -> exists a b, s = a ++ b /\ String.length a = k.
Proof.
  revert s. induction k as [|k IH]; intros s Hk.
  - now exists "", s.
  - destruct s as [|c s]; [cbn in Hk; lia|].
    destruct (IH s) as (a & b & -> & Ha); [cbn in Hk; lia|].
    exists (String c a), b. cbn [String.length]. now rewrite Ha.
Qed.

(** The search finds a reference wherever it stands in the text. *)
Lemma found_behind root fs ixs post n : forall pre,
  word root -> Forall word fs -> Forall number ixs ->
  (String.length pre <= n)%nat ->
  reference root fs ixs ∈ matches_from 0 (pre ++ reference root fs ixs ++ post).
Proof.
  induction n as [|n IH]; intros pre Hr Hfs Hixs Hn.
  - destruct pre; [|cbn in Hn; lia].
    change ("" ++ reference root fs ixs ++ post) with (reference root fs ixs ++ post).
    fold (variableRefs (reference root fs ixs ++ post)).
    rewrite (proj1 (ValidateFacts.variableRefs_reference root fs ixs post Hr Hfs Hixs)).
    left.
  - destruct pre as [|c pre].
    { apply (IH ""); auto. cbn. lia. }
    change (String c pre ++ reference root fs ixs ++ post)
      with (String c (pre ++ reference root fs ixs ++ post)).
    cbn [matches_from].
    destruct (scan Start 0 (String c (pre ++ reference root fs ixs ++ post)))
      as [len|] eqn:Hscan.
    + right.
      assert (Hlen : (len <= 0 + String.length (String c pre))%nat).
      { apply (scan_stops_before_braces (String c pre) Start 0
                 ((root ++ fields fs ++ indices ixs ++ "}}") ++ post) len);
          [discriminate | exact Hscan]. }
      cbn [String.length] in Hlen, Hn.
      destruct (split_at pre (len - 1)) as (a & b & -> & Ha); [lia|].
      rewrite ValidateFacts.append_assoc, <- Ha, ValidateFacts.matches_from_skip.
      apply IH; auto.
      rewrite ValidateFacts.length_append in Hn. lia.
    + apply IH; auto. cbn [String.length] in Hn. lia.
Qed.

Lemma reference_found root fs ixs s :
  word root -> Forall word fs -> Forall number ixs ->
  inside (reference root fs ixs) s ->
  reference root fs ixs ∈ variableRefs s.
Proof.
  intros Hr Hfs Hixs (pre & post & ->).
  now apply (found_behind root fs ixs post (String.length pre)).
Qed.

(** What the search finds stands in the text and is a reference. *)
Lemma matches_from_sound s : forall k ref,
  ref ∈ matches_from k s ->
  inside ref s
  /\ exists root fs ixs,
       word root /\ Forall word fs /\ Forall number ixs /\ ref = reference root fs ixs.
Proof.
  induction s as [|c s IH]; intros k ref; cbn [matches_from].
  - intros H. inversion H.
  - destruct k as [|k].
    + destruct (scan Start 0 (String c s)) as [len|] eqn:Hscan.
      * intros [-> | Hin]%elem_of_cons.
        -- apply ValidateFacts.scan_matches_expression in Hscan
             as (root & fs & ixs & rest & Hr & Hfs & Hixs & Hs & ->).
           rewrite Hs, ValidateFacts.substring_prefix. split.
           ++ apply inside_app_r, inside_refl.
           ++ exists root, fs, ixs. auto.
        -- destruct (IH _ _ Hin) as [Hi Hshape]. split; [now apply inside_cons | exact Hshape].
      * intros Hin. destruct (IH _ _ Hin) as [Hi Hshape].
        split; [now apply inside_cons | exact Hshape].
    + intros Hin. destruct (IH _ _ Hin) as [Hi Hshape].
      split; [now apply inside_cons | exact Hshape].
Qed.

(** X26: the pass misses no reference. A reference

      {{root.field...[index]...}}

    that stands anywhere in the inputs of a step, in a string at any
    depth or in the name of a member, and whose root is neither [user] nor
    an output name declared by a strictly earlier step, is reported with
    the position and id of the step. *)
Theorem reference_anywhere_is_reported workflow i step root fs ixs :
  steps workflow !! i = Some step ->
  word root -> Forall word fs -> Forall number ixs ->
  occurs (reference root fs ixs) (JObj (inputs step)) ->
  root <> "user" -> root ∉ declared_by (take i (steps workflow)) ->
  undeclared i step root ∈ validateVariableReferences workflow.
Proof.
  intros Hstep Hr Hfs Hixs Hocc Hu Hd.
  assert (Href : reference root fs ixs ∈ variableRefs (stringify (JObj (inputs step)))).
  { apply reference_found; try assumption.
    apply stringify_occurs; [|exact Hocc].
    now apply escape_plain, plain_reference. }
  pose proof (ValidateFacts.varName_reference root fs ixs Hr Hfs Hixs) as Hv.
  rewrite ValidateFacts.validateVariableReferences_unfold.
  apply list_elem_of_In, in_concat.
  exists (check_step (declared_by (take i (steps workflow))) i step). split.
  - apply list_elem_of_In, elem_of_lookup_imap. eauto.
  - unfold check_step. apply in_flat_map. exists (reference root fs ixs). split.
    + now apply list_elem_of_In.
    + rewrite (ValidateFacts.check_ref_rejects _ i step _ root Hv
                 (ValidateFacts.varName_nonempty _ _ Hv) Hu Hd).
      now left.
Qed.

(** X27: the pass reports nothing else. Every message of
    [validateVariableReferences] names the position and id of a step and
    the root of a reference that stands in the text of that step's inputs,
    a root that is neither [user] nor an output name declared by a
    strictly earlier step. *)
Theorem every_message_has_its_reference workflow msg :
  msg ∈ validateVariableReferences workflow ->
  exists i step root fs ixs,
    steps workflow !! i = Some step
    /\ word root /\ Forall word fs /\ Forall number ixs
    /\ inside (reference root fs ixs) (stringify (JObj (inputs step)))
    /\ root <> "user"
    /\ (root ∉ declared_by (take i (steps workflow)))
    /\ msg = undeclared i step root.
Proof.
  rewrite ValidateFacts.validateVariableReferences_unfold.
  intros Hmsg. apply list_elem_of_In, in_concat in Hmsg as (errs & Herrs & Hin).
  apply list_elem_of_In, elem_of_lookup_imap in Herrs as (i & step & -> & Hstep).
  unfold check_step in Hin. apply in_flat_map in Hin as (ref & Href & Hin).
  apply list_elem_of_In, matches_from_sound in Href
    as (Hinside & root & fs & ixs & Hr & Hfs & Hixs & ->).
  exists i, step, root, fs, ixs.
  unfold check_ref in Hin.
  rewrite (ValidateFacts.varName_reference root fs ixs Hr Hfs Hixs) in Hin.
  destruct (String.eqb_spec root ""); [destruct Hin|].
  case_bool_decide as Hd; [destruct Hin|].
  destruct (String.eqb_spec root "user"); [destruct Hin|].
  cbn [negb andb] in Hin. destruct Hin as [<- | []].
  repeat (split; [assumption|]). reflexivity.
Qed.

Lemma reference_anywhere_witness :
  undeclared 0 nested_step "items" ∈ validateVariableReferences nested_workflow.
Proof.
  apply (reference_anywhere_is_reported nested_workflow 0 nested_step "items" [] ["0"]).
  - reflexivity.
  - split; [discriminate | reflexivity].
  - constructor.
  - repeat constructor; discriminate.
  - apply (occurs_member _ _ "message"
             (JObj [("subject", JStr "News");
                    ("lines", JArr [JStr "by {{author.name}}";
                                    JStr "first: {{items[0]}}."])]));
      [cbn; auto|].
    apply (occurs_member _ _ "lines"
             (JArr [JStr "by {{author.name}}"; JStr "first: {{items[0]}}."]));
      [cbn; auto|].
    apply (occurs_item _ _ (JStr "first: {{items[0]}}.")); [cbn; auto|].
    apply (occurs_here "{{items[0]}}" "first: " ".").
  - discriminate.
  - cbn [take declared_by foldr]. set_solver.
Defined.

Lemma every_message_witness :
  exists i step root fs ixs,
    steps chat_workflow !! i = Some step
    /\ word root /\ Forall word fs /\ Forall number ixs
    /\ inside (reference root fs ixs) (stringify (JObj (inputs step)))
    /\ root <> "user"
    /\ (root ∉ declared_by (take i (steps chat_workflow)))
    /\ undeclared 0 reply_step "trigger" = undeclared i step root.
Proof.
  apply (every_message_has_its_reference chat_workflow).
  rewrite ValidateFacts.validateVariableReferences_unfold. vm_compute. left.
Defined.

End ValidateReferencesFacts.

(** ** Twitter usage windows *)

Module TwitterUsageFacts.

Import Json TwitterUsage.

Local Open Scope Z_scope.

Lemma is_window_true w r : is_window w r = true <-> windowType r = w.
Proof. unfold is_window. apply String.eqb_eq. Qed.

(** With one row per window, the rows of a window are none or one. *)
Lemma rows_of_window t w :
  one_row_per_window t ->
  List.filter (is_window w) t = [] \/ exists r, List.filter (is_window w) t = [r].
Proof.
  unfold one_row_per_window.
  induction t as [|r t IH]; intros Hnd; [now left|].
  cbn [map] in Hnd. apply NoDup_cons in Hnd as [Hnotin Hnd].
  cbn [List.filter]. destruct (is_window w r) eqn:Hr.
  - right. exists r. f_equal.
    apply is_window_true in Hr.
    destruct (List.filter (is_window w) t) as [|r' l] eqn:Hf; [reflexivity|].
    exfalso. apply Hnotin.
    assert (Hin : In r' (List.filter (is_window w) t)) by (rewrite Hf; now left).
    apply filter_In in Hin as [Hin Hw]. apply is_window_true in Hw.
    apply list_elem_of_In, in_map_iff. exists r'. split; [congruence | assumption].
  - now apply IH.
Qed.

(** The row the update selects is the row the report reads. *)
Lemma select_is_get t w :
  one_row_per_window t ->
  select_window t w =
    match windowMap_get t w with
    | Some r => [r]
    | None => []
    end.
Proof.
  intros Hnd. unfold select_window, windowMap_get.
  destruct (rows_of_window t w Hnd) as [-> | [r ->]]; reflexivity.
Qed.

Lemma get_none_not_in t w :
  windowMap_get t w = None -> w ∉ map windowType t.
Proof.
  unfold windowMap_get. intros Hl Hin.
  apply list_elem_of_In, in_map_iff in Hin as (r & Hw & Hin).
  assert (Hf : In r (List.filter (is_window w) t)).
  { apply filter_In. split; [assumption | now apply is_window_true]. }
  destruct (List.filter (is_window w) t) as [|x l]; [contradiction|].
  apply last_None in Hl. discriminate.
Qed.

Lemma last_map {A B} (f : A -> B) (l : list A) : last (map f l) = f <$> last l.
Proof.
  induction l as [|x l IH]; [reflexivity|].
  destruct l as [|y l]; [reflexivity|]. exact IH.
Qed.

Lemma update_window_types set w t :
  keeps_type set -> map windowType (update_window set w t) = map windowType t.
Proof.
  intros Hk. unfold update_window. rewrite map_map. apply map_ext.
  intros r. destruct (is_window w r); [apply Hk | reflexivity].
Qed.

Lemma filter_update_window set w w' t :
  keeps_type set ->
  List.filter (is_window w') (update_window set w t)
    = map (fun r => if is_window w r then set r else r) (List.filter (is_window w') t).
Proof.
  intros Hk. unfold update_window. induction t as [|r t IH]; [reflexivity|].
  cbn [map List.filter].
  assert (Hsame : is_window w' (if is_window w r then set r else r) = is_window w' r).
  { unfold is_window at 1 3. destruct (is_window w r); [now rewrite Hk | reflexivity]. }
  rewrite Hsame. destruct (is_window w' r); cbn [map]; now rewrite IH.
Qed.

Lemma get_update_window set w w' t :
  keeps_type set ->
  windowMap_get (update_window set w t) w'
    = (fun r => if is_window w r then set r else r) <$> windowMap_get t w'.
Proof.
  intros Hk. unfold windowMap_get. rewrite filter_update_window by assumption.
  apply last_map.
Qed.

Lemma get_window_type t w r : windowMap_get t w = Some r -> windowType r = w.
Proof.
  unfold windowMap_get. intros Hl.
  apply last_Some_elem_of, list_elem_of_In, filter_In in Hl as [_ Hw].
  now apply is_window_true.
Qed.

Lemma keeps_type_started ty now : keeps_type (fun r => started ty (windowType r) now).
Proof. intros r. reflexivity. Qed.

Lemma keeps_type_incremented ty now : keeps_type (incremented ty now).
Proof. intros r. reflexivity. Qed.

(** One pass of the loop body: the window it handles gets its next row,
    every other window keeps the row it has, and no window gets a second
    row. *)
Lemma trackWindow_get ty now t win w :
  one_row_per_window t ->
  windowMap_get (trackWindow ty now t win) w =
    if String.eqb w (type win)
    then Some (next_row ty now (type win) (duration win) (windowMap_get t (type win)))
    else windowMap_get t w.
Proof.
  intros Hnd. unfold trackWindow. rewrite (select_is_get t (type win) Hnd).
  destruct (windowMap_get t (type win)) as [r|] eqn:Hget; cbn [next_row].
  - pose proof (get_window_type _ _ _ Hget) as Hr.
    destruct (duration win <? now - windowStart r).
    + rewrite get_update_window by apply keeps_type_started.
      destruct (String.eqb_spec w (type win)) as [->|Hne].
      * rewrite Hget. cbn. unfold is_window. rewrite Hr, String.eqb_refl. reflexivity.
      * destruct (windowMap_get t w) as [r'|] eqn:Hget'; [|reflexivity]. cbn.
        pose proof (get_window_type _ _ _ Hget') as Hr'.
        unfold is_window. rewrite Hr'.
        destruct (String.eqb_spec w (type win)); [contradiction | reflexivity].
    + rewrite get_update_window by apply keeps_type_incremented.
      destruct (String.eqb_spec w (type win)) as [->|Hne].
      * rewrite Hget. cbn. unfold is_window. rewrite Hr, String.eqb_refl. reflexivity.
      * destruct (windowMap_get t w) as [r'|] eqn:Hget'; [|reflexivity]. cbn.
        pose proof (get_window_type _ _ _ Hget') as Hr'.
        unfold is_window. rewrite Hr'.
        destruct (String.eqb_spec w (type win)); [contradiction | reflexivity].
  - unfold windowMap_get. rewrite List.filter_app, last_app. cbn [List.filter].
    unfold is_window at 1. cbn [windowType started].
    rewrite (String.eqb_sym (type win) w).
    destruct (String.eqb_spec w (type win)) as [->|Hne]; reflexivity.
Qed.

Lemma trackWindow_one_row ty now t win :
  one_row_per_window t -> one_row_per_window (trackWindow ty now t win).
Proof.
  intros Hnd. unfold trackWindow. rewrite (select_is_get t (type win) Hnd).
  destruct (windowMap_get t (type win)) as [r|] eqn:Hget.
  - unfold one_row_per_window.
    destruct (duration win <? now - windowStart r);
      rewrite update_window_types;
      auto using keeps_type_started, keeps_type_incremented.
  - unfold one_row_per_window. rewrite map_app. cbn [map windowType started].
    apply NoDup_app. split; [exact Hnd|]. split.
    + intros x Hx Hx'. apply list_elem_of_singleton in Hx'. subst x.
      now apply (get_none_not_in t (type win) Hget).
    + apply NoDup_singleton.
Qed.

Lemma window_of_none ws w :
  w ∉ map type ws -> window_of ws w = None.
Proof.
  unfold window_of. induction ws as [|win ws IH]; intros Hn; [reflexivity|].
  cbn [List.find]. destruct (String.eqb_spec (type win) w) as [<-|Hne].
  - exfalso. apply Hn. cbn. left.
  - apply IH. intros Hin. apply Hn. cbn. now right.
Qed.

Lemma window_of_some ws w win : window_of ws w = Some win -> type win = w /\ In win ws.
Proof.
  unfold window_of. intros Hf. apply find_some in Hf as [Hin Heq].
  apply String.eqb_eq in Heq. auto.
Qed.

(** The loop over a list of distinct windows: each of them gets its
    next row from the row it had before the loop, every other window
    keeps its row, and no window gets a second row. *)
Lemma track_fold ty now ws : forall t,
  NoDup (map type ws) -> one_row_per_window t ->
  one_row_per_window (fold_left (trackWindow ty now) ws t) /\
  forall w,
    windowMap_get (fold_left (trackWindow ty now) ws t) w =
      match window_of ws w with
      | Some win =>
          Some (next_row ty now (type win) (duration win) (windowMap_get t (type win)))
      | None => windowMap_get t w
      end.
Proof.
  induction ws as [|win ws IH]; intros t Hws Hnd; [split; [assumption | reflexivity]|].
  cbn [map] in Hws. apply NoDup_cons in Hws as [Hnotin Hws].
  cbn [fold_left].
  destruct (IH (trackWindow ty now t win) Hws (trackWindow_one_row ty now t win Hnd))
    as [Hnd' Hget].
  split; [exact Hnd'|]. intros w. rewrite Hget.
  unfold window_of at 2. cbn [List.find]. fold (window_of ws w).
  destruct (String.eqb_spec (type win) w) as [<-|Hne].
  - rewrite (window_of_none ws (type win) Hnotin).
    rewrite trackWindow_get by assumption. now rewrite String.eqb_refl.
  - destruct (window_of ws w) as [win'|] eqn:Hw.
    + apply window_of_some in Hw as [<- Hin].
      rewrite trackWindow_get by assumption.
      destruct (String.eqb_spec (type win') (type win)); [congruence | reflexivity].
    + rewrite trackWindow_get by assumption.
      destruct (String.eqb_spec w (type win)); [congruence | reflexivity].
Qed.

Lemma windows_distinct : NoDup (map type windows).
Proof. cbn. repeat (apply NoDup_cons; split; [set_solver|]). apply NoDup_nil_2. Qed.

Lemma window_of_windows win : In win windows -> window_of windows (type win) = Some win.
Proof.
  intros [<-|[<-|[<-|[<-|[]]]]]; reflexivity.
Qed.

Lemma duration_positive win : In win windows -> 0 < duration win.
Proof. intros [<-|[<-|[<-|[<-|[]]]]]; reflexivity. Qed.

Lemma trackWindows_get ty now t win :
  one_row_per_window t -> In win windows ->
  windowMap_get (trackWindows ty now t) (type win)
    = Some (next_row ty now (type win) (duration win) (windowMap_get t (type win))).
Proof.
  intros Hnd Hin. unfold trackWindows.
  destruct (track_fold ty now windows t windows_distinct Hnd) as [_ Hget].
  now rewrite Hget, window_of_windows.
Qed.

Lemma trackWindows_one_row ty now t :
  one_row_per_window t -> one_row_per_window (trackWindows ty now t).
Proof. intros Hnd. apply (track_fold ty now windows t windows_distinct Hnd). Qed.

Lemma trackTwitterUsage_trackWindows server ty now t :
  trackTwitterUsage server ty now t = trackWindows ty now t.
Proof. destruct server, ty; reflexivity. Qed.

Lemma trackAll_one_row events : forall t,
  one_row_per_window t -> one_row_per_window (trackAll events t).
Proof.
  induction events as [|e events IH]; intros t Hnd; [exact Hnd|].
  apply (IH (trackWindows (fst e) (snd e) t)). now apply trackWindows_one_row.
Qed.

(** What a report says of a window after one tracked use, read off the
    row the window had. *)
Lemma count_after_tracking ty other now t win :
  one_row_per_window t -> In win windows ->
  count (windowData (column other) now (trackWindows ty now t) (type win) (duration win))
    = count (windowData (column other) now t (type win) (duration win))
      + (if decide (other = ty) then 1 else 0).
Proof.
  intros Hnd Hin. pose proof (duration_positive win Hin) as Hpos.
  unfold windowData. rewrite trackWindows_get by assumption.
  destruct (windowMap_get t (type win)) as [r|]; cbn [next_row].
  - destruct (Z.ltb_spec (duration win) (now - windowStart r)) as [Hlate|Hin_time].
    + cbn [started windowStart]. replace (now - now) with 0 by lia.
      destruct (Z.ltb_spec (duration win) 0); [lia|].
      destruct ty, other; cbn; repeat case_decide; congruence || reflexivity.
    + cbn [incremented windowStart].
      destruct (Z.ltb_spec (duration win) (now - windowStart r)); [lia|].
      destruct ty, other; cbn; repeat case_decide; congruence || lia.
  - cbn [started windowStart]. replace (now - now) with 0 by lia.
    destruct (Z.ltb_spec (duration win) 0); [lia|].
    destruct ty, other; cbn; repeat case_decide; congruence || reflexivity.
Qed.

Lemma counts_after_tracking ty other now t :
  one_row_per_window t ->
  counts (reported other (GET now (trackWindows ty now t)))
    = map (Z.add (if decide (other = ty) then 1 else 0)) (counts (reported other (GET now t))).
Proof.
  intros Hnd.
  assert (Hall : forall win, In win windows ->
    count (windowData (column other) now (trackWindows ty now t) (type win) (duration win))
    = (if decide (other = ty) then 1 else 0)
      + count (windowData (column other) now t (type win) (duration win))).
  { intros win Hin. rewrite (count_after_tracking ty other now t win Hnd Hin). lia. }
  pose proof (Hall _ (or_introl eq_refl)) as H1.
  pose proof (Hall _ (or_intror (or_introl eq_refl))) as H2.
  pose proof (Hall _ (or_intror (or_intror (or_introl eq_refl)))) as H3.
  pose proof (Hall _ (or_intror (or_intror (or_intror (or_introl eq_refl))))) as H4.
  cbn [type duration] in H1, H2, H3, H4.
  destruct other; unfold counts, reported, GET, usage, createWindowData, createReadWindowData;
    cbn [postUsage readUsage last15Minutes lastHour last24Hours lastMonth map column] in *;
    now rewrite H1, H2, H3, H4.
Qed.

(** X6: on a table with at most one row per window, tracking one use of
    a type, on the server or through the route, raises by one each of the
    four counts the GET handler reports for that type at that instant, and
    leaves the four counts of the other type as they were. *)
Theorem tracking_adds_one_to_each_window server ty now t :
  one_row_per_window t ->
  counts (reported ty (GET now (trackTwitterUsage server ty now t)))
    = map (Z.add 1) (counts (reported ty (GET now t)))
  /\ forall other, other <> ty ->
       counts (reported other (GET now (trackTwitterUsage server ty now t)))
         = counts (reported other (GET now t)).
Proof.
  intros Hnd. rewrite trackTwitterUsage_trackWindows. split.
  - rewrite counts_after_tracking by assumption. now rewrite decide_True.
  - intros other Hne. rewrite counts_after_tracking by assumption.
    rewrite decide_False by assumption.
    unfold counts. reflexivity.
Qed.

Lemma tracking_adds_one_witness :
  counts (reported post (GET 6000 (trackTwitterUsage true post 6000 [hour_row])))
    = [1; 8; 1; 1]
  /\ counts (reported read (GET 6000 (trackTwitterUsage true post 6000 [hour_row])))
    = [0; 2; 0; 0].
Proof.
  assert (Hnd : one_row_per_window [hour_row]).
  { unfold one_row_per_window. cbn. apply NoDup_singleton. }
  destruct (tracking_adds_one_to_each_window true post 6000 [hour_row] Hnd) as [Hp Hr].
  split.
  - rewrite Hp. reflexivity.
  - rewrite (Hr read) by discriminate. reflexivity.
Defined.

Lemma rows_of_got t w r :
  one_row_per_window t -> windowMap_get t w = Some r -> List.filter (is_window w) t = [r].
Proof.
  intros Hnd Hget. unfold windowMap_get in Hget.
  destruct (rows_of_window t w Hnd) as [He|[r' He]]; rewrite He in Hget |- *.
  - discriminate.
  - cbn in Hget. congruence.
Qed.

(** X7: the loop never gives a window a second row. From a table with at
    most one row per window, any sequence of tracked uses leaves at most
    one row per window, and once a use was tracked each of the four windows
    has exactly one row. *)
Theorem one_row_per_window_kept events t :
  one_row_per_window t ->
  one_row_per_window (trackAll events t)
  /\ (events <> [] ->
      forall win, In win windows ->
        length (List.filter (is_window (type win)) (trackAll events t)) = 1%nat).
Proof.
  intros Hnd. split; [now apply trackAll_one_row|].
  intros Hne win Hin.
  destruct (exists_last Hne) as [front [e ->]].
  unfold trackAll. rewrite fold_left_app. cbn [fold_left].
  fold (trackAll front t).
  pose proof (trackAll_one_row front t Hnd) as Hnd'.
  rewrite (rows_of_got _ _ _ (trackWindows_one_row (fst e) (snd e) _ Hnd')
             (trackWindows_get (fst e) (snd e) _ win Hnd' Hin)).
  reflexivity.
Qed.

Lemma one_row_per_window_witness :
  one_row_per_window (trackAll burst [hour_row])
  /\ length (List.filter (is_window "last_hour") (trackAll burst [hour_row])) = 1%nat.
Proof.
  assert (Hnd : one_row_per_window [hour_row]).
  { unfold one_row_per_window. cbn. apply NoDup_singleton. }
  destruct (one_row_per_window_kept burst [hour_row] Hnd) as [Hk Hone].
  split; [exact Hk|].
  apply (Hone ltac:(discriminate) {| type := "last_hour"; duration := 60 * 60 * 1000 |}).
  cbn. auto.
Defined.

Lemma count_of_cons ty e events :
  count_of ty (e :: events)
    = (if decide (ty = fst e) then 1 else 0) + count_of ty events.
Proof.
  unfold count_of. cbn [List.filter].
  destruct e as [[] ?], ty; cbn [fst length]; case_decide; try congruence; lia.
Qed.

(** A window whose row is in time for every event of a sequence counts
    each of them. *)
Lemma trackAll_in_time win events : forall t r,
  In win windows -> one_row_per_window t ->
  windowMap_get t (type win) = Some r ->
  (forall e, In e events -> snd e - windowStart r <= duration win) ->
  exists r', windowMap_get (trackAll events t) (type win) = Some r'
    /\ windowStart r' = windowStart r
    /\ forall ty, column ty r' = column ty r + count_of ty events.
Proof.
  induction events as [|e events IH]; intros t r Hin Hnd Hget Hall.
  - exists r. split; [exact Hget|]. split; [reflexivity|].
    intros ty. unfold count_of. cbn. lia.
  - cbn [trackAll fold_left].
    fold (trackAll events (trackWindows (fst e) (snd e) t)).
    pose proof (trackWindows_get (fst e) (snd e) t win Hnd Hin) as Hnext.
    rewrite Hget in Hnext. cbn [next_row] in Hnext.
    destruct (Z.ltb_spec (duration win) (snd e - windowStart r)) as [Hlate|_].
    { specialize (Hall e (or_introl eq_refl)). lia. }
    destruct (IH _ _ Hin (trackWindows_one_row (fst e) (snd e) t Hnd) Hnext)
      as (r' & Hget' & Hstart & Hcol).
    { intros e' He'. cbn [incremented windowStart]. apply Hall. now right. }
    exists r'. split; [exact Hget'|]. split; [exact Hstart|].
    intros ty. rewrite Hcol, count_of_cons.
    destruct e as [[] ?], ty; cbn; case_decide; try congruence; lia.
Qed.

(** X8: a window that is missing or expired when the first of a sequence
    of uses is tracked starts at that instant; if every later use comes no
    more than the window's duration after the first, a report made within
    the duration gives, for each type, the number of uses of that type in
    the sequence. *)
Theorem uses_within_a_window_are_counted win first events t now ty :
  In win windows ->
  one_row_per_window t ->
  (forall r, windowMap_get t (type win) = Some r ->
     duration win < snd first - windowStart r) ->
  (forall e, In e events -> snd e - snd first <= duration win) ->
  now - snd first <= duration win ->
  windowData (column ty) now (trackAll (first :: events) t) (type win) (duration win)
    = {| count := count_of ty (first :: events);
         since := Stored (snd first);
         windowDuration := duration win |}.
Proof.
  intros Hin Hnd Hstale Hall Hnow.
  cbn [trackAll fold_left].
  fold (trackAll events (trackWindows (fst first) (snd first) t)).
  pose proof (trackWindows_get (fst first) (snd first) t win Hnd Hin) as Hnext.
  assert (Hstarted : next_row (fst first) (snd first) (type win) (duration win)
                       (windowMap_get t (type win))
                     = started (fst first) (type win) (snd first)).
  { destruct (windowMap_get t (type win)) as [r|] eqn:Hget; [|reflexivity].
    cbn [next_row]. specialize (Hstale r eq_refl).
    destruct (Z.ltb_spec (duration win) (snd first - windowStart r)); [|lia].
    now rewrite (get_window_type _ _ _ Hget). }
  rewrite Hstarted in Hnext.
  destruct (trackAll_in_time win events _ _ Hin
              (trackWindows_one_row (fst first) (snd first) t Hnd) Hnext)
    as (r' & Hget' & Hstart & Hcol).
  { intros e He. cbn [started windowStart]. now apply Hall. }
  unfold windowData. rewrite Hget'. cbn [started windowStart] in Hstart.
  rewrite Hstart.
  destruct (Z.ltb_spec (duration win) (now - snd first)); [lia|].
  rewrite Hcol, count_of_cons. f_equal.
  destruct first as [[] ?], ty; cbn; case_decide; try congruence; lia.
Qed.

Lemma uses_within_a_window_witness :
  windowData (column post) 900000 (trackAll ((post, 50000) :: burst) [hour_row])
    (type quarter) (duration quarter)
    = {| count := 3; since := Stored 50000; windowDuration := 900000 |}.
Proof.
  apply (uses_within_a_window_are_counted quarter (post, 50000) burst [hour_row] 900000 post).
  - cbn. auto.
  - unfold one_row_per_window. cbn. apply NoDup_singleton.
  - intros r Hr. vm_compute in Hr. discriminate.
  - intros e He. cbn in He. destruct He as [<-|[<-|[<-|[]]]]; cbn; lia.
  - cbn. lia.
Defined.

End TwitterUsageFacts.

(** * Facts about the scheduler's methods taken together *)

Module SchedulerMethodFacts.

Import Scheduling.

Section WithCron.

Context {Task : Type} (cron_validate : string -> bool).

#[local] Abbreviation register := (Scheduling.register (Task:=Task) cron_validate).
#[local] Abbreviation registerOrUpdate := (Scheduling.registerOrUpdate (Task:=Task) cron_validate).

Implicit Types (s : Scheduler Task) (job : ScheduledJob Task).

Lemma hasJob_lookup s n :
  hasJob s n = match jobs s !! n with Some _ => true | None => false end.
Proof.
  unfold hasJob. destruct (jobs s !! n) eqn:Hl.
  - apply bool_decide_eq_true_2. eauto.
  - apply bool_decide_eq_false_2. intros [? ?]. discriminate.
Qed.

(** [registerOrUpdate] of a job that is not disabled, by the verdict of
    the validator. *)
Lemma registerOrUpdate_enabled s job :
  disabled job = false ->
  registerOrUpdate s job =
    {| jobs := if cron_validate (schedule job)
               then <[name job := cron_schedule (schedule job) job]> (jobs s)
               else delete (name job) (jobs s);
       isInitialized := true |}.
Proof.
  intros Hd.
  destruct (cron_validate (schedule job)) eqn:Hv.
  - unfold Scheduling.registerOrUpdate.
    rewrite SchedulingFacts.registerOrUpdate_cleared, Hd. simpl.
    rewrite SchedulingFacts.register_fresh; simpl; try assumption;
      [|apply lookup_delete_eq].
    unfold startJob. simpl. rewrite lookup_insert_eq. simpl.
    rewrite insert_insert_eq, insert_delete_eq.
    unfold with_jobs, task_start, task_stop, cron_schedule; simpl.
    destruct (isInitialized s); reflexivity.
  - now apply SchedulingFacts.registerOrUpdate_invalid.
Qed.

Lemma registerOrUpdate_others s job n :
  disabled job = false -> n <> name job ->
  jobs (registerOrUpdate s job) !! n = jobs s !! n.
Proof.
  intros Hd Hne. rewrite registerOrUpdate_enabled by assumption. cbn [jobs].
  destruct (cron_validate (schedule job)).
  - now rewrite lookup_insert_ne.
  - now rewrite lookup_delete_ne.
Qed.

(** X9: [stop()] followed by [start()] restarts the scheduler: every
    registered job is started, whether or not it was before, no job is
    added or dropped, and the scheduler counts as running. *)
Theorem restart_starts_every_job s n :
  live (start (stop s)) n = hasJob s n /\
  hasJob (start (stop s)) n = hasJob s n /\
  isRunning (start (stop s)) = true.
Proof.
  rewrite !hasJob_lookup. unfold live, start, stop, isRunning. cbn.
  rewrite !lookup_fmap. destruct (jobs s !! n); auto.
Qed.

(** X10: once [registerOrUpdate] was called with a job that is not
    disabled, [start()] does nothing. Jobs that were registered before and
    not yet started are left stopped by both calls, so a later [start()]
    does not start them. *)
Theorem start_is_idle_after_dynamic_registration s job :
  disabled job = false ->
  start (registerOrUpdate s job) = registerOrUpdate s job /\
  forall n, n <> name job ->
    live (start (registerOrUpdate s job)) n = live s n.
Proof.
  intros Hd.
  assert (Hs : start (registerOrUpdate s job) = registerOrUpdate s job).
  { apply SchedulingFacts.start_when_initialized.
    now rewrite registerOrUpdate_enabled. }
  split; [exact Hs|].
  intros n Hne. rewrite Hs. unfold live.
  now rewrite registerOrUpdate_others.
Qed.

End WithCron.

Lemma start_is_idle_witness :
  live (start (Scheduling.registerOrUpdate five_or_six_fields registered_only reply_job))
    "ai-tweet-generation" = false
  /\ hasJob registered_only "ai-tweet-generation" = true.
Proof.
  split; [|reflexivity].
  destruct (start_is_idle_after_dynamic_registration five_or_six_fields
              registered_only reply_job eq_refl) as [_ Hothers].
  rewrite (Hothers "ai-tweet-generation") by discriminate.
  reflexivity.
Defined.

End SchedulerMethodFacts.

(** * Facts about the jobs control route *)

Module JobsControlFacts.

Import Json Scheduling JobsControl.

Section WithEnvironment.

Context (cron_validate : string -> bool) (stored_schedule : string -> option string).

#[local] Abbreviation POST := (JobsControl.POST cron_validate stored_schedule).

Implicit Types (s : Scheduler JobFunction) (n e : string).

Lemma truthy_Some x : x <> "" -> truthy (Some x) = true.
Proof.
  intros Hx. unfold truthy. destruct (String.eqb_spec x ""); [contradiction | reflexivity].
Qed.

Lemma known_name_nonempty n task : JOB_TASKS_get n = Some task -> n <> "".
Proof. intros Hget ->. discriminate. Qed.

(** The job a start request hands to [registerOrUpdate]. *)
Lemma POST_start s n e task :
  JOB_TASKS_get n = Some task -> e <> "" ->
  POST true (start_request n e) s
    = (Started n e,
       registerOrUpdate cron_validate s
         {| name := n; schedule := e; task := task; enabled := Some true |}).
Proof.
  intros Hget He. pose proof (known_name_nonempty n task Hget) as Hn.
  unfold JobsControl.POST, start_request.
  cbn [negb action jobName interval default from_option id].
  rewrite (truthy_Some n Hn), !(truthy_Some e He), Hget.
  reflexivity.
Qed.

Lemma POST_stop s n task :
  JOB_TASKS_get n = Some task ->
  POST true (stop_request n) s
    = (Stopped n (snd (stopJob s n)), fst (stopJob s n)).
Proof.
  intros Hget. pose proof (known_name_nonempty n task Hget) as Hn.
  unfold JobsControl.POST, stop_request.
  cbn [negb action jobName interval default from_option id].
  rewrite (truthy_Some n Hn), Hget.
  change (truthy (Some "stop")) with true.
  change (existsb (String.eqb "stop") ["start"; "stop"]) with true.
  change (String.eqb "stop" "start") with false.
  cbn [negb orb]. now destruct (stopJob s n).
Qed.

Lemma inherited_lookup n :
  In n Object_prototype -> JOB_TASKS_get n = Some (Inherited n).
Proof.
  unfold Object_prototype. cbn [In].
  intros H; repeat (destruct H as [<-|H]; [reflexivity|]); destruct H.
Qed.

(** X11: a request that is not answered with status 200 leaves the
    scheduler as it was: no session, a null body, a missing or unknown
    action, an unknown job name and a start without any schedule change
    nothing. *)
Theorem rejected_request_changes_nothing session body s :
  status (fst (POST session body s)) <> 200%nat ->
  snd (POST session body s) = s.
Proof.
  unfold JobsControl.POST.
  destruct session; [|reflexivity]. cbn [negb].
  destruct body as [b|]; [|reflexivity].
  destruct (negb (truthy (action b)) || negb (truthy (jobName b))); [reflexivity|].
  destruct (negb (existsb _ _)); [reflexivity|].
  destruct (JOB_TASKS_get _); [|reflexivity].
  destruct (String.eqb _ "start").
  - destruct (negb (truthy _)); [reflexivity|]. cbn. congruence.
  - destruct (stopJob s _). cbn. congruence.
Qed.

(** X12: an authenticated start request for a known job with an
    expression is answered 200 "started" whatever the validator says of the
    expression. Afterwards the job is registered and running exactly when
    the expression is valid: with an invalid expression the job is not
    registered any more, even if it was running before the request. Other
    jobs keep their tasks and the scheduler counts as running. *)
Theorem start_request_answers_started s n e task :
  JOB_TASKS_get n = Some task -> e <> "" ->
  fst (POST true (start_request n e) s) = Started n e /\
  hasJob (snd (POST true (start_request n e) s)) n = cron_validate e /\
  live (snd (POST true (start_request n e) s)) n = cron_validate e /\
  isRunning (snd (POST true (start_request n e) s)) = true /\
  forall m, m <> n ->
    jobs (snd (POST true (start_request n e) s)) !! m = jobs s !! m.
Proof.
  intros Hget He. rewrite (POST_start s n e task Hget He). cbn [fst snd].
  rewrite SchedulerMethodFacts.hasJob_lookup.
  rewrite SchedulerMethodFacts.registerOrUpdate_enabled by reflexivity.
  unfold live, isRunning. cbn [jobs isInitialized name schedule].
  destruct (cron_validate e).
  - rewrite lookup_insert_eq. repeat split; try reflexivity.
    intros m Hm. now rewrite lookup_insert_ne.
  - rewrite lookup_delete_eq. repeat split; try reflexivity.
    intros m Hm. now rewrite lookup_delete_ne.
Qed.

(** X13: an authenticated stop request for a known job is always
    answered 200. Its [wasRunning] says whether the job was registered, not
    whether its task was started; the job stays registered with its task
    stopped, and a second stop request gives the same answer and the same
    scheduler. *)
Theorem stop_request_reports_registration s n task :
  JOB_TASKS_get n = Some task ->
  fst (POST true (stop_request n) s) = Stopped n (hasJob s n) /\
  hasJob (snd (POST true (stop_request n) s)) n = hasJob s n /\
  live (snd (POST true (stop_request n) s)) n = false /\
  POST true (stop_request n) (snd (POST true (stop_request n) s))
    = POST true (stop_request n) s.
Proof.
  intros Hget. rewrite !(POST_stop _ n task Hget). cbn [fst snd].
  rewrite !SchedulerMethodFacts.hasJob_lookup.
  unfold stopJob, live.
  destruct (jobs s !! n) as [t|] eqn:Hl; cbn [fst snd with_jobs jobs].
  - rewrite lookup_insert_eq. cbn [fst snd with_jobs jobs task_stop running].
    repeat split; try reflexivity.
    rewrite insert_insert_eq. reflexivity.
  - rewrite ?Hl. cbn [fst snd]. rewrite ?Hl. auto.
Qed.

(** X14: the check [!JOB_TASKS[jobName]] lets the property names of
    [Object.prototype] through. A start request that names one of them with
    a valid expression is answered 200 and leaves a started task of that
    name on the scheduler. *)
Theorem inherited_name_is_scheduled s n e :
  In n Object_prototype -> e <> "" -> cron_validate e = true ->
  status (fst (POST true (start_request n e) s)) = 200%nat /\
  jobs (snd (POST true (start_request n e) s)) !! n
    = Some (cron_schedule e
              {| name := n; schedule := e; task := Inherited n; enabled := Some true |}).
Proof.
  intros Hin He Hv.
  rewrite (POST_start s n e (Inherited n) (inherited_lookup n Hin) He). cbn [fst snd].
  split; [reflexivity|].
  rewrite SchedulerMethodFacts.registerOrUpdate_enabled by reflexivity.
  cbn [jobs name schedule]. rewrite Hv. apply lookup_insert_eq.
Qed.

End WithEnvironment.

Lemma rejected_request_witness :
  snd (JobsControl.POST five_or_six_fields nothing_stored true
         (start_request "post-to-mars" "* * * * *") replying) = replying.
Proof.
  apply (rejected_request_changes_nothing five_or_six_fields nothing_stored).
  vm_compute. discriminate.
Defined.

Lemma start_request_witness :
  fst (JobsControl.POST five_or_six_fields nothing_stored true
         (start_request "reply-to-tweets" "* * *") replying)
    = Started "reply-to-tweets" "* * *"
  /\ hasJob (snd (JobsControl.POST five_or_six_fields nothing_stored true
         (start_request "reply-to-tweets" "* * *") replying)) "reply-to-tweets" = false
  /\ hasJob replying "reply-to-tweets" = true.
Proof.
  destruct (start_request_answers_started five_or_six_fields nothing_stored
              replying "reply-to-tweets" "* * *" replyToTweetsJob eq_refl
              ltac:(discriminate)) as (Ha & Hh & _).
  split; [exact Ha|]. split; [exact Hh|]. reflexivity.
Defined.

Lemma stop_request_witness :
  fst (JobsControl.POST five_or_six_fields nothing_stored true
         (stop_request "ai-tweet-generation") tweet_registered)
    = Stopped "ai-tweet-generation" true
  /\ live tweet_registered "ai-tweet-generation" = false.
Proof.
  split; [|reflexivity].
  apply (stop_request_reports_registration five_or_six_fields nothing_stored
           tweet_registered "ai-tweet-generation" generateAndPostTweet eq_refl).
Defined.

Lemma inherited_name_witness :
  status (fst (JobsControl.POST five_or_six_fields nothing_stored true
                 (start_request "toString" "* * * * *") replying)) = 200%nat
  /\ live (snd (JobsControl.POST five_or_six_fields nothing_stored true
                 (start_request "toString" "* * * * *") replying)) "toString" = true.
Proof.
  destruct (inherited_name_is_scheduled five_or_six_fields nothing_stored replying
              "toString" "* * * * *") as [Hs Hj].
  - cbn. auto 10.
  - discriminate.
  - reflexivity.
  - split; [exact Hs|]. unfold live. rewrite Hj. reflexivity.
Defined.

End JobsControlFacts.

(** * Facts about the workflow validation script *)

Module ValidateScriptFacts.

Import Json Validate ValidateScript.

Lemma prefix_append m b : String.prefix m (m ++ b) = true.
Proof.
  induction m as [|c m IH]; [change ("" ++ b) with b; now destruct b|].
  change (String c m ++ b) with (String c (m ++ b)). cbn [String.prefix].
  destruct (ascii_dec c c); [exact IH | contradiction].
Qed.

Lemma includes_here m b : includes (m ++ b) m = true.
Proof.
  destruct (m ++ b) eqn:E; cbn [includes]; rewrite <- E, prefix_append; reflexivity.
Qed.

(** [includes] finds a piece wherever it stands. *)
Lemma includes_middle a m b : includes (a ++ m ++ b) m = true.
Proof.
  induction a as [|c a IH].
  - change ("" ++ m ++ b) with (m ++ b). apply includes_here.
  - change (String c a ++ m ++ b) with (String c (a ++ m ++ b)).
    cbn [includes]. rewrite IH. apply orb_true_r.
Qed.

Section WithRegistry.

Context (toLowerCase : string -> string) (registry : list Category).

#[local] Abbreviation path := (ValidateScript.path toLowerCase).
#[local] Abbreviation validPaths := (ValidateScript.validPaths toLowerCase registry).
#[local] Abbreviation validateModulePaths :=
  (ValidateScript.validateModulePaths toLowerCase registry).
#[local] Abbreviation registered := (ValidateScript.registered toLowerCase registry).

Lemma elem_of_add_functions c m p : forall acc,
  p ∈ add_functions toLowerCase c m acc
  <-> p ∈ acc \/ exists fn, In fn (functions m) /\ p = path c m fn.
Proof.
  unfold add_functions. induction (functions m) as [|fn fns IH]; intros acc; cbn [foldl].
  - split; [auto | intros [H | (fn & [] & _)]; exact H].
  - rewrite IH. rewrite elem_of_union, elem_of_singleton. split.
    + intros [[-> | H] | (fn' & Hin & ->)].
      * right. exists fn. split; [now left | reflexivity].
      * now left.
      * right. exists fn'. split; [now right | reflexivity].
    + intros [H | (fn' & [<- | Hin] & ->)].
      * left. now right.
      * left. now left.
      * right. eauto.
Qed.

Lemma elem_of_add_modules c p : forall acc,
  p ∈ add_modules toLowerCase c acc
  <-> p ∈ acc \/ exists m fn, In m (modules c) /\ In fn (functions m) /\ p = path c m fn.
Proof.
  unfold add_modules. induction (modules c) as [|m ms IH]; intros acc; cbn [foldl].
  - split; [auto | intros [H | (m & fn & [] & _)]; exact H].
  - rewrite IH, elem_of_add_functions. split.
    + intros [[H | (fn & Hin & ->)] | (m' & fn & Hm & Hfn & ->)].
      * now left.
      * right. exists m, fn. split; [now left | auto].
      * right. exists m', fn. split; [now right | auto].
    + intros [H | (m' & fn & [<- | Hm] & Hfn & ->)].
      * left. now left.
      * left. right. eauto.
      * right. eauto.
Qed.

Lemma elem_of_paths_from p cs : forall acc,
  p ∈ foldl (fun acc c => add_modules toLowerCase c acc) acc cs
  <-> p ∈ acc \/ exists c m fn,
        In c cs /\ In m (modules c) /\ In fn (functions m) /\ p = path c m fn.
Proof.
  induction cs as [|c cs IH]; intros acc; cbn [foldl].
  - split; [auto | intros [H | (c & m & fn & [] & _)]; exact H].
  - rewrite IH, elem_of_add_modules. split.
    + intros [[H | (m & fn & Hm & Hfn & ->)] | (c' & m & fn & Hc & Hm & Hfn & ->)].
      * now left.
      * right. exists c, m, fn. split; [now left | auto].
      * right. exists c', m, fn. split; [now right | auto].
    + intros [H | (c' & m & fn & [<- | Hc] & Hm & Hfn & ->)].
      * left. now left.
      * left. right. eauto.
      * right. exists c', m, fn. auto.
Qed.

Lemma elem_of_validPaths p :
  p ∈ validPaths
  <-> exists c m fn,
        In c registry /\ In m (modules c) /\ In fn (functions m) /\ p = path c m fn.
Proof.
  unfold ValidateScript.validPaths. rewrite elem_of_paths_from. split.
  - intros [H | H]; [set_solver | exact H].
  - auto.
Qed.

Lemma check_paths_nil l : forall index errors,
  check_paths toLowerCase registry l index errors = []
  <-> errors = [] /\ Forall (fun step => module step ∈ validPaths) l.
Proof.
  induction l as [|step l IH]; intros index errors; cbn [check_paths].
  - split; [intros ->; auto | now intros [-> _]].
  - rewrite IH. rewrite Forall_cons. case_bool_decide as Hin; cbn [negb].
    + tauto.
    + split.
      * intros [Habs _]. now destruct errors.
      * intros [_ [Habs _]]. contradiction.
Qed.

(** X15: [validateModulePaths] returns no message exactly when the
    module of every step is the path

      <category name in lower case>.<module name>.<function name>

    of a function of the registry. Only the category is put in lower
    case. *)
Theorem module_paths_accepted_iff_registered workflow :
  validateModulePaths workflow = [] <-> Forall registered (steps workflow).
Proof.
  unfold ValidateScript.validateModulePaths. rewrite check_paths_nil.
  rewrite !Forall_forall. unfold ValidateScript.registered. split.
  - intros [_ H] step Hin. apply elem_of_validPaths. now apply H.
  - intros H. split; [reflexivity|]. intros step Hin.
    apply elem_of_validPaths. now apply H.
Qed.

End WithRegistry.

(** X16: with a table display, the final step is reported as a likely
    error as soon as the text of its module path contains one of the names
    in [commonSingleValueModules] anywhere, also inside a longer word; the
    warnings then count as errors for the report. *)
Theorem single_value_name_anywhere_is_flagged workflow display lastStep a m b :
  outputDisplay workflow = Some display ->
  display_type display = "table" ->
  last (steps (export workflow)) = Some lastStep ->
  In m commonSingleValueModules ->
  module lastStep = a ++ m ++ b ->
  In (likely_error lastStep) (validateOutputDisplay workflow)
  /\ existsb (fun w => includes w "❌") (validateOutputDisplay workflow) = true.
Proof.
  intros Hd Ht Hl Hm Hmod.
  assert (Hin : In (likely_error lastStep) (validateOutputDisplay workflow)).
  { unfold validateOutputDisplay. rewrite Hd, Hl. apply in_or_app. right.
    unfold common_mistakes. rewrite Ht. cbn [String.eqb Ascii.eqb Bool.eqb].
    assert (Hex : existsb (fun m0 => includes (module lastStep) m0)
                    commonSingleValueModules = true).
    { apply existsb_exists. exists m. split; [exact Hm|].
      rewrite Hmod. apply includes_middle. }
    change (("table" =? "table")%string) with true. cbv iota.
    rewrite Hex. apply in_or_app. left. now left. }
  split; [exact Hin|].
  apply existsb_exists. exists (likely_error lastStep). split; [exact Hin|].
  reflexivity.
Qed.

Lemma single_value_name_witness :
  In (likely_error summing_step) (validateOutputDisplay summary_table)
  /\ existsb (fun w => includes w "❌") (validateOutputDisplay summary_table) = true.
Proof.
  apply (single_value_name_anywhere_is_flagged summary_table table_display summing_step
           "utilities.text." "sum" "marize"); try reflexivity.
  cbn. auto.
Defined.

(** ** The parsed document against the typed one *)

Lemma last_represented items steps :
  Forall2 represents_step items steps ->
  match last items, last steps with
  | Some item, Some step => represents_step item step
  | None, None => True
  | _, _ => False
  end.
Proof.
  induction 1 as [|item step items steps Hs Hrest IH]; [exact I|].
  rewrite !last_cons. destruct (last items), (last steps); try contradiction; assumption.
Qed.

Lemma id_text_represented item step :
  represents_step item step -> id_text item = Got (id step).
Proof.
  intros (fields & -> & Hid & _). unfold id_text. cbn [read and_then].
  rewrite Hid. reflexivity.
Qed.

Section Parsed.

Context (toLowerCase : string -> string) (registry : list Category).

Lemma check_paths_represented items steps :
  Forall2 represents_step items steps ->
  forall index errors,
    check_paths_parsed toLowerCase registry items index errors
    = Got (check_paths toLowerCase registry steps index errors).
Proof.
  induction 1 as [|item step items steps Hs Hrest IH]; intros index errors;
    [reflexivity|].
  cbn [check_paths_parsed check_paths]. rewrite (id_text_represented _ _ Hs).
  destruct Hs as (fields & -> & Hid & Hmod & _).
  cbn [read and_then]. rewrite Hmod. cbn [has_path text_of to_text and_then].
  destruct (negb (bool_decide (module step ∈ ValidateScript.validPaths toLowerCase registry)));
    apply IH.
Qed.

Lemma validateModulePaths_represented parsed workflow :
  represents parsed workflow ->
  validateModulePaths_parsed toLowerCase registry parsed
  = Got (validateModulePaths toLowerCase registry (export workflow)).
Proof.
  intros (fields & config & items & -> & _ & _ & _ & Hc & Hs & Hitems & _).
  unfold validateModulePaths_parsed, steps_of. cbn [read and_then].
  rewrite Hc. cbn [read and_then]. rewrite Hs. cbn [and_then].
  now apply check_paths_represented.
Qed.

End Parsed.

Lemma check_refs_represented declared index item step :
  represents_step item step ->
  forall refs errors,
    check_refs_parsed declared index item refs errors
    = Got (errors ++ flat_map (check_ref declared index step) refs)%list.
Proof.
  intros Hs. induction refs as [|ref refs IH]; intros errors.
  - cbn [check_refs_parsed flat_map]. now rewrite app_nil_r.
  - cbn [check_refs_parsed flat_map].
    assert (Hone : check_ref_parsed declared index item ref
                   = Got (check_ref declared index step ref)).
    { unfold check_ref_parsed, check_ref. destruct (varName ref) as [v|]; [|reflexivity].
      destruct (negb (v =? "")%string && negb (bool_decide (v ∈ declared))
                && negb (v =? "user")%string); [|reflexivity].
      rewrite (id_text_represented _ _ Hs). reflexivity. }
    rewrite Hone. cbn [and_then]. rewrite IH. now rewrite <- app_assoc.
Qed.

Lemma visit_represented index item step st :
  represents_step item step ->
  visit_parsed index item st = Got (visit index step st).
Proof.
  intros Hs. destruct st as [errors declared]. unfold visit_parsed, visit.
  pose proof (check_refs_represented declared index _ _ Hs) as Hrefs.
  destruct Hs as (fields & -> & _ & _ & Hin & Hout).
  cbn [read and_then]. rewrite Hin, Hrefs. cbn [read and_then]. rewrite Hout.
  f_equal. f_equal.
  destruct (outputAs step) as [o|]; cbn [option_map declare truthy default]; [|reflexivity].
  destruct (o =? "")%string; reflexivity.
Qed.

Lemma forEach_represented items steps :
  Forall2 represents_step items steps ->
  forall index st, forEach_parsed items index st = Got (forEach steps index st).
Proof.
  induction 1 as [|item step items steps Hs Hrest IH]; intros index st; [reflexivity|].
  cbn [forEach_parsed forEach]. rewrite (visit_represented _ _ _ _ Hs). apply IH.
Qed.

Lemma validateVariableReferences_represented parsed workflow :
  represents parsed workflow ->
  validateVariableReferences_parsed parsed
  = Got (validateVariableReferences (export workflow)).
Proof.
  intros (fields & config & items & -> & _ & _ & _ & Hc & Hs & Hitems & _).
  unfold validateVariableReferences_parsed, steps_of. cbn [read and_then].
  rewrite Hc. cbn [read and_then]. rewrite Hs. cbn [and_then].
  rewrite (forEach_represented _ _ Hitems). reflexivity.
Qed.

Lemma by_type_represented fields display item step :
  field "type" fields = Some (JStr (display_type display)) ->
  match columns display with
  | None => field "columns" fields = None
  | Some cols =>
      exists items, field "columns" fields = Some (JArr items)
                    /\ length items = length cols
  end ->
  represents_step item step ->
  by_type_parsed (JObj fields) (field "type" fields) item = Got (by_type display step).
Proof.
  intros Ht Hcols Hs. unfold by_type_parsed, by_type.
  rewrite Ht, (id_text_represented _ _ Hs). cbn [is_type and_then read].
  destruct (display_type display =? "table")%string eqn:Etable.
  { destruct (columns display) as [cols|].
    - destruct Hcols as (items & -> & Hlen).
      cbn [truthy_value json_truthy length_is_zero negb orb].
      destruct items, cols; try discriminate; reflexivity.
    - rewrite Hcols. reflexivity. }
  destruct (display_type display =? "list")%string; [reflexivity|].
  destruct (display_type display =? "text")%string eqn:Etext.
  { apply String.eqb_eq in Etext. rewrite Etext. reflexivity. }
  destruct (display_type display =? "markdown")%string eqn:Emark.
  { apply String.eqb_eq in Emark. rewrite Emark. reflexivity. }
  cbn [orb].
  destruct (display_type display =? "number")%string; [reflexivity|].
  destruct (display_type display =? "image")%string; [reflexivity|].
  destruct (display_type display =? "images")%string; reflexivity.
Qed.

Lemma common_mistakes_represented fields display item step :
  field "type" fields = Some (JStr (display_type display)) ->
  represents_step item step ->
  common_mistakes_parsed (field "type" fields) item = Got (common_mistakes display step).
Proof.
  intros Ht Hs. unfold common_mistakes_parsed, common_mistakes.
  rewrite Ht, (id_text_represented _ _ Hs). cbn [is_type].
  destruct (display_type display =? "table")%string; [|reflexivity].
  destruct Hs as (sfields & -> & _ & Hmod & _).
  cbn [read and_then]. rewrite Hmod. cbn [module_includes_some and_then].
  destruct (existsb (fun n => includes (module step) n) commonSingleValueModules);
    destruct (existsb (fun n => includes (module step) n) aiModules); reflexivity.
Qed.

Lemma validateOutputDisplay_represented parsed workflow :
  represents parsed workflow ->
  validateOutputDisplay_parsed parsed = Got (validateOutputDisplay workflow).
Proof.
  intros (fields & config & items & -> & _ & _ & _ & Hc & Hs & Hitems & Hd & _).
  unfold validateOutputDisplay_parsed, validateOutputDisplay, steps_of.
  cbn [read and_then]. rewrite Hc. cbn [read and_then].
  unfold represents_display in Hd.
  destruct (outputDisplay workflow) as [display|]; [|rewrite Hd; reflexivity].
  destruct Hd as (dfields & Hdisplay & Ht & Hcols). rewrite Hdisplay.
  cbn [json_truthy negb read and_then]. rewrite Hs. cbn [and_then].
  pose proof (last_represented _ _ Hitems) as Hlast.
  destruct (last items) as [item|], (last (steps (export workflow))) as [step|];
    try contradiction; [|reflexivity].
  assert (Htruthy : json_truthy item = true) by (destruct Hlast as (? & -> & _); reflexivity).
  rewrite Htruthy. cbn [negb].
  rewrite (by_type_represented _ _ _ _ Ht Hcols Hlast).
  rewrite (common_mistakes_represented _ _ _ _ Ht Hlast). reflexivity.
Qed.

(** ** How the pieces of the script end *)

Lemma writes_ret {A} (a : A) : writes (ret a) a [].
Proof. intros c. unfold ret. now rewrite app_nil_r. Qed.

Lemma writes_write line : writes (write line) tt [line].
Proof. intros c. reflexivity. Qed.

Lemma writes_write_all lines : writes (write_all lines) tt lines.
Proof. intros c. reflexivity. Qed.

Lemma writes_evaluate {A} (t : Try A) a : t = Got a -> writes (evaluate t) a [].
Proof. intros -> c. unfold evaluate. now rewrite app_nil_r. Qed.

Lemma writes_bind {A B} (m : Script A) (k : A -> Script B) a b before after :
  writes m a before -> writes (k a) b after -> writes (bind m k) b (before ++ after)%list.
Proof.
  intros Hm Hk c. unfold bind. rewrite Hm, Hk. now rewrite app_assoc.
Qed.

Lemma exits_process_exit {A} code : exits (@process_exit A code) code [].
Proof. intros c. unfold process_exit. now rewrite app_nil_r. Qed.

Lemma exits_bind {A B} (m : Script A) (k : A -> Script B) a code before after :
  writes m a before -> exits (k a) code after -> exits (bind m k) code (before ++ after)%list.
Proof.
  intros Hm Hk c. unfold bind. rewrite Hm, Hk. now rewrite app_assoc.
Qed.

Lemma exits_after {A B} (m : Script A) (k : A -> Script B) a code before :
  writes m a before -> exits (k a) code [] -> exits (bind m k) code before.
Proof.
  intros Hm Hk c. unfold bind. rewrite Hm, Hk. now rewrite app_nil_r.
Qed.

Lemma exits_first {A B} (m : Script A) (k : A -> Script B) code lines :
  exits m code lines -> exits (bind m k) code lines.
Proof. intros Hm c. unfold bind. now rewrite Hm. Qed.

Lemma throws_evaluate {A} (t : Try A) : t = Thrown -> throws (evaluate t) [].
Proof. intros -> c. unfold evaluate. now rewrite app_nil_r. Qed.

Lemma throws_bind {A B} (m : Script A) (k : A -> Script B) a before after :
  writes m a before -> throws (k a) after -> throws (bind m k) (before ++ after)%list.
Proof.
  intros Hm Hk c. unfold bind. rewrite Hm, Hk. now rewrite app_assoc.
Qed.

Lemma throws_first {A B} (m : Script A) (k : A -> Script B) lines :
  throws m lines -> throws (bind m k) lines.
Proof. intros Hm c. unfold bind. now rewrite Hm. Qed.

Lemma only_1_ret {A} (a : A) : exits_with_1_only (ret a).
Proof. intros c code. discriminate. Qed.

Lemma only_1_write line : exits_with_1_only (write line).
Proof. intros c code. discriminate. Qed.

Lemma only_1_write_all lines : exits_with_1_only (write_all lines).
Proof. intros c code. discriminate. Qed.

Lemma only_1_evaluate {A} (t : Try A) : exits_with_1_only (evaluate t).
Proof. intros c code. unfold evaluate. destruct t; discriminate. Qed.

Lemma only_1_process_exit {A} : exits_with_1_only (@process_exit A 1).
Proof. intros c code [= <-]. reflexivity. Qed.

Lemma only_1_bind {A B} (m : Script A) (k : A -> Script B) :
  exits_with_1_only m -> (forall a, exits_with_1_only (k a)) ->
  exits_with_1_only (bind m k).
Proof.
  intros Hm Hk c code. unfold bind. specialize (Hm c).
  destruct (m c) as [[a| |n] c'].
  - apply Hk.
  - discriminate.
  - intros [= <-]. now apply Hm.
Qed.

Create HintDb script.

#[local] Hint Resolve only_1_ret only_1_write only_1_write_all only_1_evaluate
  only_1_process_exit : script.

Ltac only_1 :=
  repeat first
    [ apply only_1_bind; [|intros ?]
    | match goal with
      | |- exits_with_1_only (if ?b then _ else _) => destruct b
      | |- exits_with_1_only (match ?x with _ => _ end) => destruct x
      end
    | solve [auto with script] ].

Lemma only_1_summary workflow : exits_with_1_only (summary workflow).
Proof. unfold summary, log_member. only_1. Qed.


#[local] Hint Resolve only_1_summary : script.

Lemma join_items_strings sep l : exists shown, join_items sep (map JStr l) = Got shown.
Proof.
  induction l as [|x l [shown IH]]; [now exists ""|].
  cbn [map join_items and_then to_text]. destruct (map JStr l) as [|y rest] eqn:E.
  - now exists x.
  - rewrite IH. cbn [and_then]. eauto.
Qed.

Lemma log_member_writes label fields k s :
  field k fields = Some (JStr s) ->
  writes (log_member label (JObj fields) k) tt [log (label ++ s)].
Proof.
  intros Hk. unfold log_member.
  apply (writes_bind _ _ s tt [] [log (label ++ s)]); [|apply writes_write].
  apply writes_evaluate. cbn [read and_then]. now rewrite Hk.
Qed.

Lemma category_line parsed data :
  represents_metadata parsed data ->
  exists lines,
    writes (if truthy_value (read_if_any parsed "category")
            then bind (evaluate (text_of (read_if_any parsed "category")))
                   (fun shown => write (log ("   Category: " ++ shown)))
            else ret tt) tt lines.
Proof.
  unfold represents_metadata. destruct data as [m|].
  - intros (fields & -> & Hc & _). cbn [read_if_any]. rewrite Hc.
    destruct (category m) as [s|]; cbn [option_map truthy_value json_truthy].
    + destruct (negb (s =? "")%string).
      * eexists. eapply writes_bind; [now apply writes_evaluate | apply writes_write].
      * eexists. apply writes_ret.
    + eexists. apply writes_ret.
  - intros ->. eexists. apply writes_ret.
Qed.

Lemma list_line label k parsed (l : option (list string)) :
  (match parsed with
   | Some (JObj fields) => field k fields = option_map strings l
   | None => True
   | _ => False
   end) ->
  exists lines,
    writes (if length_truthy (read_if_any parsed k)
            then bind (evaluate (joined ", " (read_if_any parsed k)))
                   (fun shown => write (log (label ++ shown)))
            else ret tt) tt lines.
Proof.
  destruct parsed as [[| | | | |fields]|]; try contradiction.
  - intros Hk. cbn [read_if_any]. rewrite Hk.
    destruct l as [l|]; cbn [option_map length_truthy strings].
    + destruct (negb (length (map JStr l) =? 0)%nat).
      * destruct (join_items_strings ", " l) as [shown Hshown].
        eexists. eapply writes_bind; [|apply writes_write].
        apply writes_evaluate. exact Hshown.
      * eexists. apply writes_ret.
    + eexists. apply writes_ret.
  - intros _. eexists. apply writes_ret.
Qed.

Lemma summary_represented parsed workflow :
  represents parsed workflow ->
  exists lines, writes (summary parsed) tt lines /\ In complete_line lines.
Proof.
  intros (fields & config & items & -> & Hv & Hn & Hd & Hc & Hs & _ & _ & Hm).
  destruct (category_line _ _ Hm) as [l1 H1].
  destruct (list_line "   Tags: " "tags" (field "metadata" fields)
              (match metadata workflow with Some m => tags m | None => None end))
    as [l2 H2].
  { unfold represents_metadata in Hm. destruct (metadata workflow) as [m|].
    - destruct Hm as (mf & -> & _ & Ht & _). exact Ht.
    - now rewrite Hm. }
  destruct (list_line "   Required credentials: " "requiresCredentials"
              (field "metadata" fields)
              (match metadata workflow with
               | Some m => requiresCredentials m
               | None => None
               end))
    as [l3 H3].
  { unfold represents_metadata in Hm. destruct (metadata workflow) as [m|].
    - destruct Hm as (mf & -> & _ & _ & Hr). exact Hr.
    - now rewrite Hm. }
  eexists. split.
  - unfold summary.
    eapply writes_bind; [apply writes_write|].
    eapply writes_bind; [apply (log_member_writes _ _ _ _ Hn)|].
    eapply writes_bind; [apply (log_member_writes _ _ _ _ Hd)|].
    eapply writes_bind.
    { apply writes_evaluate. unfold steps_of. cbn [read and_then]. rewrite Hc.
      cbn [read and_then]. rewrite Hs. reflexivity. }
    eapply writes_bind; [apply writes_write|].
    eapply writes_bind; [apply (log_member_writes _ _ _ _ Hv)|].
    eapply writes_bind; [apply writes_evaluate; reflexivity|].
    eapply writes_bind; [exact H1|].
    eapply writes_bind; [exact H2|].
    eapply writes_bind; [exact H3|].
    eapply writes_bind; apply writes_write.
  - rewrite !in_app_iff. cbn [In]. unfold complete_line. tauto.
Qed.

Section WithRuntime.

Context (toLowerCase : string -> string) (registry : list Category)
  (JSON_parse : string -> option JSON)
  (validateWorkflowExport : JSON -> Try Validation).

#[local] Abbreviation validation_steps :=
  (ValidateScript.validation_steps toLowerCase registry JSON_parse validateWorkflowExport).
#[local] Abbreviation validateWorkflow :=
  (ValidateScript.validateWorkflow toLowerCase registry JSON_parse validateWorkflowExport).

Lemma only_1_validation_steps workflowJson :
  exits_with_1_only (validation_steps workflowJson).
Proof. unfold ValidateScript.validation_steps. only_1. Qed.

(** Whatever the text holds, [validateWorkflow] ends with
    [process.exit(1)] or returns: what is thrown inside is caught. *)
Lemma validateWorkflow_ends workflowJson :
  fst (validateWorkflow workflowJson) = Exits 1
  \/ fst (validateWorkflow workflowJson) = Value tt.
Proof.
  unfold ValidateScript.validateWorkflow, try_catch.
  pose proof (only_1_validation_steps workflowJson []) as H1.
  destruct (validation_steps workflowJson []) as [[[]| |code] c'].
  - now right.
  - now left.
  - left. cbn [fst] in *. now rewrite (H1 code eq_refl).
Qed.

Lemma run_exits workflowJson code lines :
  exits (validation_steps workflowJson) code lines ->
  validateWorkflow workflowJson = (Exits code, lines).
Proof.
  intros H. unfold ValidateScript.validateWorkflow, try_catch. now rewrite (H []).
Qed.

Lemma run_writes workflowJson lines :
  writes (validation_steps workflowJson) tt lines ->
  validateWorkflow workflowJson = (Value tt, lines).
Proof.
  intros H. unfold ValidateScript.validateWorkflow, try_catch. now rewrite (H []).
Qed.

Lemma run_throws workflowJson lines :
  throws (validation_steps workflowJson) lines ->
  validateWorkflow workflowJson = (Exits 1, (lines ++ [caught_line])%list).
Proof.
  intros H. unfold ValidateScript.validateWorkflow, try_catch. now rewrite (H []).
Qed.

Lemma not_json_exits workflowJson :
  JSON_parse workflowJson = None ->
  validateWorkflow workflowJson
  = (Exits 1, [started_line; error "❌ Invalid JSON format"; (stderr, ErrorValue)]).
Proof.
  intros Hp. apply run_exits. unfold ValidateScript.validation_steps.
  apply (exits_bind _ _ tt 1 [started_line]); [apply writes_write|].
  apply exits_first. rewrite Hp.
  apply (exits_bind _ _ tt 1 [error "❌ Invalid JSON format"] [(stderr, ErrorValue)]);
    [apply writes_write|].
  apply (exits_bind _ _ tt 1 [(stderr, ErrorValue)] []);
    [apply writes_write | apply exits_process_exit].
Qed.

Lemma structure_check_throws workflowJson parsed :
  JSON_parse workflowJson = Some parsed ->
  validateWorkflowExport parsed = Thrown ->
  validateWorkflow workflowJson = (Exits 1, [started_line; caught_line]).
Proof.
  intros Hp Hv. apply (run_throws _ [started_line]).
  unfold ValidateScript.validation_steps.
  apply (throws_bind _ _ tt [started_line] []); [apply writes_write|].
  apply (throws_bind _ _ parsed [] []); [rewrite Hp; apply writes_ret|].
  apply throws_first. now apply throws_evaluate.
Qed.

Lemma structure_check_fails workflowJson parsed v :
  JSON_parse workflowJson = Some parsed ->
  validateWorkflowExport parsed = Got v -> valid v = false ->
  validateWorkflow workflowJson
  = (Exits 1, ([started_line; error ("❌ Workflow validation failed:" ++ nl)]
               ++ map (fun e => error (bullet e)) (errors v))%list).
Proof.
  intros Hp Hv Hvalid. apply run_exits. unfold ValidateScript.validation_steps.
  apply (exits_bind _ _ tt 1 [started_line]); [apply writes_write|].
  apply (exits_bind _ _ parsed 1 []); [rewrite Hp; apply writes_ret|].
  apply (exits_bind _ _ v 1 []); [now apply writes_evaluate|].
  apply exits_first. rewrite Hvalid. cbn [negb].
  apply (exits_bind _ _ tt 1 [error ("❌ Workflow validation failed:" ++ nl)]);
    [apply writes_write|].
  apply (exits_after _ _ tt 1); [apply writes_write_all | apply exits_process_exit].
Qed.

Lemma module_check_fails workflowJson parsed v e es :
  JSON_parse workflowJson = Some parsed ->
  validateWorkflowExport parsed = Got v -> valid v = true ->
  validateModulePaths_parsed toLowerCase registry parsed = Got (e :: es) ->
  fst (validateWorkflow workflowJson) = Exits 1.
Proof.
  intros Hp Hv Hvalid Hm.
  erewrite run_exits; [reflexivity|]. unfold ValidateScript.validation_steps.
  eapply exits_bind; [apply writes_write|].
  eapply exits_bind; [rewrite Hp; apply writes_ret|].
  eapply exits_bind; [apply writes_evaluate; exact Hv|].
  eapply exits_bind; [rewrite Hvalid; apply writes_ret|].
  eapply exits_bind; [apply writes_write|].
  eapply exits_bind; [apply writes_write|].
  eapply exits_bind; [apply writes_evaluate; exact Hm|].
  apply exits_first.
  eapply exits_bind; [apply writes_write|].
  eapply exits_bind; [apply writes_write_all|].
  eapply exits_bind; [apply writes_write | apply exits_process_exit].
Qed.

(** A document with the members of the interface that passes the
    structure check and the module check runs to the end. *)
Lemma represented_runs_through workflowJson parsed workflow v :
  JSON_parse workflowJson = Some parsed ->
  represents parsed workflow ->
  validateWorkflowExport parsed = Got v -> valid v = true ->
  validateModulePaths toLowerCase registry (export workflow) = [] ->
  exists before after,
    validateWorkflow workflowJson
    = (Value tt,
       (before ++ variables_report (validateVariableReferences (export workflow))
        ++ after)%list)
    /\ In complete_line after.
Proof.
  intros Hp Hr Hv Hvalid Hm.
  destruct (summary_represented _ _ Hr) as (lines & Hsummary & Hcomplete).
  assert (Hrun : exists written,
             writes (validation_steps workflowJson) tt written
             /\ exists before after,
                  written
                  = (before ++ variables_report (validateVariableReferences (export workflow))
                     ++ after)%list
                  /\ In complete_line after).
  { eexists. split.
    - unfold ValidateScript.validation_steps.
      eapply writes_bind; [apply writes_write|].
      eapply writes_bind; [rewrite Hp; apply writes_ret|].
      eapply writes_bind; [apply writes_evaluate; exact Hv|].
      eapply writes_bind; [rewrite Hvalid; apply writes_ret|].
      eapply writes_bind; [apply writes_write|].
      eapply writes_bind; [apply writes_write|].
      eapply writes_bind.
      { apply writes_evaluate.
        rewrite (validateModulePaths_represented _ _ _ _ Hr), Hm. reflexivity. }
      eapply writes_bind; [apply writes_ret|].
      eapply writes_bind; [apply writes_write|].
      eapply writes_bind; [apply writes_write|].
      eapply writes_bind.
      { apply writes_evaluate. apply validateVariableReferences_represented. exact Hr. }
      eapply writes_bind; [apply writes_write_all|].
      eapply writes_bind; [apply writes_write|].
      eapply writes_bind.
      { apply writes_evaluate. apply validateOutputDisplay_represented. exact Hr. }
      eapply writes_bind; [apply writes_write_all | exact Hsummary].
    - cbn [app]. eexists [_; _; _; _; _], _. split; [reflexivity|].
      apply in_cons, in_or_app. right. exact Hcomplete. }
  destruct Hrun as (written & Hwritten & before & after & -> & Hin).
  exists before, after. split; [now apply run_writes | exact Hin].
Qed.

Lemma module_check_throws workflowJson parsed v :
  JSON_parse workflowJson = Some parsed ->
  validateWorkflowExport parsed = Got v -> valid v = true ->
  validateModulePaths_parsed toLowerCase registry parsed = Thrown ->
  fst (validateWorkflow workflowJson) = Exits 1.
Proof.
  intros Hp Hv Hvalid Hm.
  erewrite run_throws; [reflexivity|]. unfold ValidateScript.validation_steps.
  eapply throws_bind; [apply writes_write|].
  eapply throws_bind; [rewrite Hp; apply writes_ret|].
  eapply throws_bind; [apply writes_evaluate; exact Hv|].
  eapply throws_bind; [rewrite Hvalid; apply writes_ret|].
  eapply throws_bind; [apply writes_write|].
  eapply throws_bind; [apply writes_write|].
  apply throws_first. apply throws_evaluate. exact Hm.
Qed.

Lemma later_pass_throws workflowJson parsed v :
  JSON_parse workflowJson = Some parsed ->
  validateWorkflowExport parsed = Got v -> valid v = true ->
  validateModulePaths_parsed toLowerCase registry parsed = Got [] ->
  validateVariableReferences_parsed parsed = Thrown
  \/ validateOutputDisplay_parsed parsed = Thrown ->
  fst (validateWorkflow workflowJson) = Exits 1.
Proof.
  intros Hp Hv Hvalid Hm Hlater.
  destruct (validateVariableReferences_parsed parsed) as [varErrors|] eqn:Hvar;
    (erewrite run_throws; [reflexivity|]); unfold ValidateScript.validation_steps;
    (eapply throws_bind; [apply writes_write|]);
    (eapply throws_bind; [rewrite Hp; apply writes_ret|]);
    (eapply throws_bind; [apply writes_evaluate; exact Hv|]);
    (eapply throws_bind; [rewrite Hvalid; apply writes_ret|]);
    (eapply throws_bind; [apply writes_write|]);
    (eapply throws_bind; [apply writes_write|]);
    (eapply throws_bind; [apply writes_evaluate; exact Hm|]);
    (eapply throws_bind; [apply writes_ret|]);
    (eapply throws_bind; [apply writes_write|]);
    (eapply throws_bind; [apply writes_write|]).
  - destruct Hlater as [Habs | Hdisplay]; [discriminate|].
    eapply throws_bind; [apply writes_evaluate; exact Hvar|].
    eapply throws_bind; [apply writes_write_all|].
    eapply throws_bind; [apply writes_write|].
    apply throws_first. apply throws_evaluate. exact Hdisplay.
  - apply throws_first. apply throws_evaluate. exact Hvar.
Qed.

(** X17: how [validateWorkflow] ends. Whatever the text of the file
    holds, it ends the script with code 1 or returns; nothing thrown
    inside escapes. It ends with code 1 when the text is no JSON, when
    [validateWorkflowExport] throws or answers that the document is not
    valid, when the module check throws or finds a module that is not
    registered, and when the variable pass or the output display check
    throws, as they do on a document that lacks a member they read. For a
    document that has the members of [interface WorkflowExport] and
    passes the structure check, it ends with code 1 exactly when a step
    names a module that is not in the registry: what the variable pass and
    the output display check find then changes what is written, never
    how the script ends. *)
Theorem script_fails_only_on_structure_or_modules workflowJson :
  (fst (validateWorkflow workflowJson) = Exits 1
   \/ fst (validateWorkflow workflowJson) = Value tt)
  /\ (JSON_parse workflowJson = None -> fst (validateWorkflow workflowJson) = Exits 1)
  /\ (forall parsed,
        JSON_parse workflowJson = Some parsed ->
        validateWorkflowExport parsed = Thrown
        \/ (exists v, validateWorkflowExport parsed = Got v /\ valid v = false) ->
        fst (validateWorkflow workflowJson) = Exits 1)
  /\ (forall parsed v,
        JSON_parse workflowJson = Some parsed ->
        validateWorkflowExport parsed = Got v -> valid v = true ->
        validateModulePaths_parsed toLowerCase registry parsed <> Got []
        \/ validateVariableReferences_parsed parsed = Thrown
        \/ validateOutputDisplay_parsed parsed = Thrown ->
        fst (validateWorkflow workflowJson) = Exits 1)
  /\ (forall parsed workflow v,
        JSON_parse workflowJson = Some parsed ->
        represents parsed workflow ->
        validateWorkflowExport parsed = Got v -> valid v = true ->
        (fst (validateWorkflow workflowJson) = Exits 1
         <-> ValidateScript.validateModulePaths toLowerCase registry (export workflow)
             <> [])).
Proof.
  split; [apply validateWorkflow_ends|].
  split; [intros Hp; now rewrite not_json_exits|].
  split.
  { intros parsed Hp [Hthrown | (v & Hv & Hvalid)].
    - now rewrite (structure_check_throws _ _ Hp Hthrown).
    - now rewrite (structure_check_fails _ _ _ Hp Hv Hvalid). }
  split.
  { intros parsed v Hp Hv Hvalid Hpass.
    destruct (validateModulePaths_parsed toLowerCase registry parsed) as [[|e es]|] eqn:Hm.
    - destruct Hpass as [Habs | Hlater]; [congruence|].
      exact (later_pass_throws _ _ _ Hp Hv Hvalid Hm Hlater).
    - exact (module_check_fails _ _ _ _ _ Hp Hv Hvalid Hm).
    - exact (module_check_throws _ _ _ Hp Hv Hvalid Hm). }
  intros parsed workflow v Hp Hr Hv Hvalid.
  pose proof (validateModulePaths_represented toLowerCase registry _ _ Hr) as Hm.
  destruct (ValidateScript.validateModulePaths toLowerCase registry (export workflow))
    as [|e es] eqn:Hpaths.
  - destruct (represented_runs_through _ _ _ _ Hp Hr Hv Hvalid Hpaths)
      as (before & after & -> & _).
    cbn [fst]. split; [discriminate | congruence].
  - split; [discriminate|]. intros _.
    exact (module_check_fails _ _ _ _ _ Hp Hv Hvalid Hm).
Qed.

(** X18: for a document that has the members of [interface
    WorkflowExport], passes the structure check and names only registered
    modules, [validateWorkflow] returns, and every message of
    [validateVariableReferences] is written to the error stream as a
    bullet: an undeclared variable is shown and the validation still
    completes. *)
Theorem undeclared_variables_are_shown_not_fatal workflowJson parsed workflow v :
  JSON_parse workflowJson = Some parsed ->
  represents parsed workflow ->
  validateWorkflowExport parsed = Got v -> valid v = true ->
  ValidateScript.validateModulePaths toLowerCase registry (export workflow) = [] ->
  fst (validateWorkflow workflowJson) = Value tt
  /\ (forall e, In e (validateVariableReferences (export workflow)) ->
        In (error (bullet e)) (snd (validateWorkflow workflowJson)))
  /\ In complete_line (snd (validateWorkflow workflowJson)).
Proof.
  intros Hp Hr Hv Hvalid Hm.
  destruct (represented_runs_through _ _ _ _ Hp Hr Hv Hvalid Hm)
    as (before & after & -> & Hcomplete).
  cbn [fst snd]. split; [reflexivity|]. split.
  - intros e He. rewrite !in_app_iff. right. left. unfold variables_report.
    destruct (validateVariableReferences (export workflow)) as [|e0 es]; [destruct He|].
    rewrite !in_app_iff. right. left.
    apply (in_map (fun e => error (bullet e))). exact He.
  - rewrite !in_app_iff. right. right. exact Hcomplete.
Qed.

End WithRuntime.

Lemma parsed_step_represented step : represents_step (parsed_step step) step.
Proof.
  destruct step as [i m ins [o|]]; (eexists; split; [reflexivity|]);
    repeat split; reflexivity.
Qed.

Lemma chat_parsed_represented : represents chat_parsed chat_document.
Proof.
  eexists _, _, _. split; [reflexivity|]. repeat split; try reflexivity.
  cbn [steps export chat_document chat_workflow map].
  repeat constructor; apply parsed_step_represented.
Qed.

Lemma script_ends_witness :
  fst (ValidateScript.validateWorkflow lower small_registry parse_chat always_valid "chat")
  = Value tt.
Proof.
  destruct (script_fails_only_on_structure_or_modules lower small_registry parse_chat
              always_valid "chat") as ([Hexit | Hreturn] & _ & _ & _ & Hiff).
  - apply (Hiff chat_parsed chat_document {| valid := true; errors := [] |} eq_refl
             chat_parsed_represented eq_refl eq_refl) in Hexit.
    exfalso. apply Hexit. vm_compute. reflexivity.
  - exact Hreturn.
Defined.

Lemma undeclared_variables_witness :
  fst (ValidateScript.validateWorkflow lower small_registry parse_chat always_valid "chat")
    = Value tt
  /\ In (error (bullet (undeclared 0 reply_step "trigger")))
       (snd (ValidateScript.validateWorkflow lower small_registry parse_chat always_valid
               "chat")).
Proof.
  destruct (undeclared_variables_are_shown_not_fatal lower small_registry parse_chat
              always_valid "chat" chat_parsed chat_document
              {| valid := true; errors := [] |} eq_refl chat_parsed_represented
              eq_refl eq_refl) as (Hr & Hshown & _).
  - vm_compute. reflexivity.
  - split; [exact Hr|]. apply Hshown. vm_compute. auto.
Defined.

(** A first step that has lost its [inputs] passes the module check; the
    variable pass then throws, the [catch] around the script writes the
    error, and the script ends with code 1. *)
Example step_without_inputs_is_caught :
  validateVariableReferences_parsed without_inputs = Thrown
  /\ ValidateScript.validateWorkflow lower small_registry parse_chat always_valid
       "no inputs"
     = (Exits 1,
        [started_line; log "✅ Basic structure validation passed";
         log (nl ++ "🔍 Checking module paths...");
         log "✅ All module paths are valid";
         log (nl ++ "🔍 Checking variable references...");
         caught_line]).
Proof. split; vm_compute; reflexivity. Qed.
End ValidateScriptFacts.

(** * Facts about the optional parameters and the streaming of the
    OpenAI module *)

Module OpenAIStreamingFacts.

Import Json OpenAI OpenAIStreaming.

(** The test [generateText] writes out is the test of
    [createCompletionInternal] on the model it sends. *)
Lemma generateText_test m :
  startsWith (or_else m "gpt-4o-mini") "gpt-5"
  || startsWith (or_else m "") "o1"
  || startsWith (or_else m "") "o3"
  = isGPT5 (or_else m "gpt-4o-mini").
Proof.
  unfold isGPT5, or_else. destruct m as [s|]; [|reflexivity].
  destruct (String.eqb s ""); reflexivity.
Qed.

Lemma supported_when_withheld m ms img (a : option Z) (b : option Q) :
  supported {| p_model := m; p_messages := ms; p_image_url := img;
               p_max_tokens := if isGPT5 m then None else a;
               p_temperature := if isGPT5 m then None else b |} = true.
Proof.
  unfold supported, bare. cbn [p_model p_max_tokens p_temperature].
  destruct (isGPT5 m); reflexivity.
Qed.

(** X19: [createCompletionInternal] and [generateText] never send
    [max_tokens] or [temperature] with a model of the GPT-5, o1 or o3
    families: two services that agree on the requests without them for
    these models cannot be told apart through either function. *)
Theorem optional_parameters_withheld key service service' :
  (forall n p, supported p = true -> service n p = service' n p) ->
  (forall options w,
     createCompletionInternal key service options w
       = createCompletionInternal key service' options w)
  /\ (forall params w,
        generateText key service params w = generateText key service' params w).
Proof.
  intros Hagree. split.
  - intros options w. unfold createCompletionInternal, create.
    destruct (negb (openaiClient key)); [reflexivity|].
    now rewrite (Hagree _ _ (supported_when_withheld _ _ _ _ _)).
  - intros params w. unfold generateText, create.
    destruct (negb _); [reflexivity|].
    rewrite generateText_test.
    now rewrite (Hagree _ _ (supported_when_withheld _ _ _ _ _)).
Qed.

Lemma optional_parameters_witness :
  createCompletionInternal (Some "sk-test") strict reasoning_options quiet
    = createCompletionInternal (Some "sk-test") answering reasoning_options quiet.
Proof.
  apply (optional_parameters_withheld (Some "sk-test") strict answering).
  intros n p Hp. unfold strict. now rewrite Hp.
Defined.

(** X20: [analyzeImage] sends [max_tokens: 4096] with every model. On
    a service that refuses the optional parameters for the GPT-5, o1 and
    o3 families, a call that names such a model fails with the error of
    the service. *)
Theorem analyzeImage_limits_every_model key service imageUrl prompt' model' w e :
  truthy key = true ->
  isGPT5 (or_else model' "gpt-4o") = true ->
  (forall n p, supported p = false -> service n p = Threw e) ->
  fst (analyzeImage key service imageUrl prompt' model' w) = Threw e
  /\ requests (snd (analyzeImage key service imageUrl prompt' model' w)) = S (requests w).
Proof.
  intros Hkey Hm Hstrict. unfold analyzeImage, openaiClient, create.
  rewrite Hkey. cbn [negb].
  rewrite Hstrict.
  - cbn [fst snd]. split; [reflexivity|].
    unfold requests, record. cbn [trace]. rewrite List.filter_app, length_app.
    cbn. lia.
  - unfold supported, bare. cbn [p_model p_max_tokens p_temperature].
    now rewrite Hm.
Qed.

Lemma analyzeImage_limits_witness :
  fst (analyzeImage (Some "sk-test") strict "https://example.org/cat.png" "What is this?"
         (Some "o3") quiet)
    = Threw "Unsupported parameter".
Proof.
  apply (analyzeImage_limits_every_model (Some "sk-test") strict
           "https://example.org/cat.png" "What is this?" (Some "o3") quiet
           "Unsupported parameter" eq_refl eq_refl).
  intros n p Hp. unfold strict. now rewrite Hp.
Defined.

Lemma text_yields l :
  text (yields l) = text (map (fun content => or_else content "") l).
Proof.
  induction l as [|content l IH]; [reflexivity|].
  cbn [yields map]. destruct content as [s|]; cbn [truthy].
  - destruct (String.eqb_spec s "") as [->|Hne]; cbn [negb].
    + rewrite IH. reflexivity.
    + unfold text in *. cbn [fold_right default from_option id]. rewrite IH.
      unfold or_else at 2. destruct (String.eqb_spec s ""); [contradiction | reflexivity].
  - rewrite IH. reflexivity.
Qed.

Lemma yields_nonempty l piece : In piece (yields l) -> piece <> "".
Proof.
  induction l as [|content l IH]; [intros []|].
  cbn [yields]. destruct content as [s|]; cbn [truthy]; [|exact IH].
  destruct (String.eqb_spec s "") as [->|Hne]; cbn [negb]; [exact IH|].
  intros [<- | Hin]; [exact Hne | now apply IH].
Qed.

(** X21: [streamCompletion] yields no empty piece, and dropping the
    empty chunks loses nothing: the pieces it yields, put together, are
    the contents of all chunks of the stream put together. *)
Theorem stream_yields_the_whole_text key stream_service options w stream :
  truthy key = true ->
  stream_service (requests w)
    {| p_model := or_else (model options) "gpt-4o-mini";
       p_messages := messages options;
       p_image_url := None;
       p_max_tokens := if isGPT5 (or_else (model options) "gpt-4o-mini")
                       then None else maxTokens options;
       p_temperature := if isGPT5 (or_else (model options) "gpt-4o-mini")
                        then None else temperature options |}
    = Returned stream ->
  let pieces := fst (fst (streamCompletion key stream_service options w)) in
  (forall piece, In piece pieces -> piece <> "")
  /\ text pieces = text (map (fun content => or_else content "") (chunks stream)).
Proof.
  intros Hkey Hs. unfold streamCompletion, openaiClient.
  rewrite Hkey. cbn [negb]. rewrite Hs. cbn [fst].
  split; [apply yields_nonempty | apply text_yields].
Qed.

Lemma stream_yields_witness :
  fst (fst (streamCompletion (Some "sk-test") hello_stream say_hello quiet))
    = ["Hel"; "lo"]
  /\ text (fst (fst (streamCompletion (Some "sk-test") hello_stream say_hello quiet)))
     = "Hello".
Proof.
  split; [reflexivity|].
  destruct (stream_yields_the_whole_text (Some "sk-test") hello_stream say_hello quiet
              {| chunks := [None; Some "Hel"; Some ""; Some "lo"; None]; failure := None |}
              eq_refl eq_refl) as [_ Ht].
  rewrite Ht. reflexivity.
Defined.

End OpenAIStreamingFacts.

(** * Facts about the BullMQ job setup *)

Module ScheduledJobsFacts.

Import Json JobsControl ScheduledJobs.

Section WithParser.

Context (JSON_parse : string -> option JSON)
  (queue_created : bool) (addJob : nat -> Added -> bool) (workers_started : bool).

#[local] Abbreviation collect := (ScheduledJobs.collect JSON_parse).
#[local] Abbreviation loadJobSettings := (ScheduledJobs.loadJobSettings JSON_parse).
#[local] Abbreviation schedule_job := (ScheduledJobs.schedule_job JSON_parse).
#[local] Abbreviation schedule_all := (ScheduledJobs.schedule_all JSON_parse addJob).
#[local] Abbreviation initializeBullMQJobs :=
  (ScheduledJobs.initializeBullMQJobs JSON_parse queue_created addJob workers_started).
#[local] Abbreviation switches_on := (ScheduledJobs.switches_on JSON_parse).

(** One step of the [reduce]: [enabled] is [true] afterwards only if it
    was before or the row switches it on. *)
Lemma collect_enabled prefix acc row :
  get (collect prefix acc row) "enabled" = Some (JBool true) ->
  get acc "enabled" = Some (JBool true) \/ switches_on prefix row.
Proof.
  unfold ScheduledJobs.collect, ScheduledJobs.switches_on, assign.
  destruct (String.eqb_spec (without_prefix prefix (key row)) "__proto__") as [Hk|Hk].
  - rewrite Hk.
    destruct (JSON_parse (value row)) as [v|]; [|auto].
    destruct v; auto; unfold get; cbn [members proto];
      destruct (first_member "enabled" (members acc)) as [v'|]; auto; try discriminate.
    intros Hm. right. right. split; [reflexivity|]. eauto.
  - assert (Hown : forall v,
      get {| members := (without_prefix prefix (key row), v) :: members acc; proto := proto acc |}
        "enabled" = Some (JBool true) ->
      get acc "enabled" = Some (JBool true)
      \/ (without_prefix prefix (key row) = "enabled" /\ v = JBool true)).
    { intros v. unfold get. cbn [members proto first_member].
      destruct (String.eqb_spec (without_prefix prefix (key row)) "enabled"); [|auto].
      intros [= ->]. auto. }
    destruct (JSON_parse (value row)) as [v|]; intros Hget;
      destruct (Hown _ Hget) as [H | [Hk' Hv]]; auto.
    + subst v. right. left. auto.
    + discriminate.
Qed.

Lemma reduce_enabled prefix rows : forall acc,
  get (foldl (collect prefix) acc rows) "enabled" = Some (JBool true) ->
  get acc "enabled" = Some (JBool true)
  \/ exists row, In row rows /\ switches_on prefix row.
Proof.
  induction rows as [|row rows IH]; intros acc; cbn [foldl]; [auto|].
  intros Hget. destruct (IH _ Hget) as [Hacc | (row' & Hin & Hon)].
  - destruct (collect_enabled _ _ _ Hacc) as [H | H]; [auto|].
    right. exists row. split; [now left | exact H].
  - right. exists row'. split; [now right | exact Hon].
Qed.

Lemma loadJobSettings_enabled jobName allSettings :
  enabled (loadJobSettings jobName allSettings) = Some (JBool true) ->
  exists row,
    In row allSettings
    /\ String.prefix (jobName ++ "_") (key row) = true
    /\ switches_on (jobName ++ "_") row.
Proof.
  unfold ScheduledJobs.loadJobSettings. cbn [enabled]. intros Hget.
  destruct (reduce_enabled _ _ _ Hget) as [Habs | (row & Hin & Hon)]; [discriminate|].
  apply filter_In in Hin as [Hin Hp]. eauto.
Qed.

Lemma schedule_job_added allSettings config a :
  In a (schedule_job allSettings config) ->
  enabled (loadJobSettings (name config) allSettings) = Some (JBool true)
  /\ queue a = JOBS_QUEUE /\ added_name a = name config
  /\ added_priority a = priority config.
Proof.
  unfold ScheduledJobs.schedule_job.
  destruct (enabled (loadJobSettings (name config) allSettings)) as [[| [] | | | |]|];
    cbn [In]; try tauto.
  intros [<- | []]. auto.
Qed.

(** Every job the loop has accepted was handed to [addJob] for one of
    the configurations. *)
Lemma schedule_all_added allSettings configs a : forall added,
  In a (snd (schedule_all allSettings configs added)) ->
  In a added
  \/ exists config, In config configs /\ In a (schedule_job allSettings config).
Proof.
  induction configs as [|config rest IH]; intros added; cbn [ScheduledJobs.schedule_all].
  - auto.
  - destruct (schedule_job allSettings config) as [|job others] eqn:Hjob.
    + intros Hin. destruct (IH _ Hin) as [H | (c & Hc & Ha)]; [auto|].
      right. exists c. split; [now right | exact Ha].
    + destruct (addJob (length added) job); [|auto].
      intros Hin. destruct (IH _ Hin) as [H | (c & Hc & Ha)].
      * apply in_app_or in H as [H | [<- | []]]; [auto|].
        right. exists config. split; [now left|]. rewrite Hjob. now left.
      * right. exists c. split; [now right | exact Ha].
Qed.

Lemma initializeBullMQJobs_added REDIS_URL allSettings a :
  In a (snd (initializeBullMQJobs REDIS_URL allSettings)) ->
  truthy REDIS_URL = true
  /\ exists config, In config jobConfigs /\ In a (schedule_job allSettings config).
Proof.
  unfold ScheduledJobs.initializeBullMQJobs.
  destruct (truthy REDIS_URL); cbn [negb snd]; [|intros []].
  destruct queue_created; cbn [negb snd]; [|intros []].
  intros Hin. split; [reflexivity|].
  destruct (schedule_all_added allSettings jobConfigs a []) as [[] | H]; [|exact H].
  destruct (schedule_all allSettings jobConfigs []) as [finished added].
  cbn [snd]. now destruct finished.
Qed.

(** With a queue layer that accepts every job, the loop comes to its
    end and every job handed to [addJob] is accepted. *)
Lemma schedule_all_accepted allSettings configs : forall added,
  (forall n job, addJob n job = true) ->
  schedule_all allSettings configs added
    = (true, (added ++ flat_map (schedule_job allSettings) configs)%list).
Proof.
  induction configs as [|config rest IH]; intros added Hok;
    cbn [ScheduledJobs.schedule_all flat_map].
  - now rewrite app_nil_r.
  - assert (Hone : schedule_job allSettings config = []
                   \/ exists job, schedule_job allSettings config = [job]).
    { unfold ScheduledJobs.schedule_job.
      destruct (enabled _) as [[| [] | | | |]|]; eauto. }
    destruct Hone as [-> | (job & ->)].
    + now apply IH.
    + rewrite Hok, IH by assumption. now rewrite <- app_assoc.
Qed.

(** X24: jobs are off until a setting switches them on. Every job that
    [initializeBullMQJobs] adds has, among the rows whose key starts with
    its name and an underscore, one that switches it on: the row of the
    key [<name>_enabled] with a text that parses to [true], or an object
    assigned through [<name>___proto__]. A text that does not parse, which
    is kept as a string, never does; and without REDIS_URL nothing is
    added. *)
Theorem jobs_are_off_until_switched_on REDIS_URL allSettings a :
  In a (snd (initializeBullMQJobs REDIS_URL allSettings)) ->
  truthy REDIS_URL = true
  /\ exists row,
       In row allSettings
       /\ String.prefix (added_name a ++ "_") (key row) = true
       /\ switches_on (added_name a ++ "_") row.
Proof.
  intros Hin. apply initializeBullMQJobs_added in Hin as (Henv & config & _ & Ha).
  split; [exact Henv|].
  apply schedule_job_added in Ha as (Hen & _ & -> & _).
  now apply loadJobSettings_enabled.
Qed.

(** X25: every job that [initializeBullMQJobs] adds goes to the queue
    the worker reads, under a name for which the worker's [switch] runs a
    function, the one the control route's [JOB_TASKS] has for that name. *)
Theorem added_jobs_are_known_to_the_worker REDIS_URL allSettings a :
  In a (snd (initializeBullMQJobs REDIS_URL allSettings)) ->
  queue a = JOBS_QUEUE
  /\ (exists fn, worker (added_name a) = Some fn)
  /\ worker (added_name a) = own JOB_TASKS (added_name a).
Proof.
  intros Hin. apply initializeBullMQJobs_added in Hin as (_ & config & Hc & Ha).
  apply schedule_job_added in Ha as (_ & Hq & -> & _).
  split; [exact Hq|].
  unfold jobConfigs in Hc. cbn [In] in Hc.
  repeat (destruct Hc as [<- | Hc]; [split; [eexists|]; reflexivity|]).
  destruct Hc.
Qed.

End WithParser.

(** A job the queue layer rejects ends the loop in the [catch]: with a
    number as the interval of the first job and a queue layer that takes
    patterns that are strings only, the answer is false and the reply job,
    though switched on, is not added. *)
Lemma rejected_job_ends_the_loop :
  initializeBullMQJobs parse_number_setting true strings_only true
    (Some "redis://localhost:6379") numeric_settings = (false, []).
Proof. reflexivity. Qed.

Lemma jobs_are_off_witness :
  snd (initializeBullMQJobs parse_setting true accepting true
         (Some "redis://localhost:6379") reply_settings)
    = [ {| queue := "scheduled-jobs"; added_name := "reply-to-tweets";
           pattern := JStr "*/10 * * * *"; added_priority := 1 |} ]
  /\ exists row,
       In row reply_settings
       /\ String.prefix "reply-to-tweets_" (key row) = true
       /\ switches_on parse_setting "reply-to-tweets_" row.
Proof.
  split; [reflexivity|].
  apply (jobs_are_off_until_switched_on parse_setting true accepting true
           (Some "redis://localhost:6379") reply_settings
           {| queue := "scheduled-jobs"; added_name := "reply-to-tweets";
              pattern := JStr "*/10 * * * *"; added_priority := 1 |}).
  vm_compute. auto.
Defined.

Lemma added_jobs_witness :
  worker "reply-to-tweets" = Some replyToTweetsJob
  /\ worker "reply-to-tweets" = own JOB_TASKS "reply-to-tweets".
Proof.
  destruct (added_jobs_are_known_to_the_worker parse_setting true accepting true
              (Some "redis://localhost:6379") reply_settings
              {| queue := "scheduled-jobs"; added_name := "reply-to-tweets";
                 pattern := JStr "*/10 * * * *"; added_priority := 1 |})
    as (_ & _ & Hw).
  - vm_compute. auto.
  - split; [reflexivity | exact Hw].
Defined.

End ScheduledJobsFacts.

(** * Facts about saving and loading the settings of a job *)

Module AutomationSettingsFacts.

Import Json ScheduledJobs AutomationSettings.

Lemma append_inj_l (p a b : string) : p ++ a = p ++ b -> a = b.
Proof.
  induction p as [|c p IH]; [exact id|].
  change (String c p ++ a) with (String c (p ++ a)).
  change (String c p ++ b) with (String c (p ++ b)).
  intros [= H]. now apply IH.
Qed.

Lemma substring_all s : substring 0 (String.length s) s = s.
Proof.
  induction s as [|c s IH]; [reflexivity|]. cbn [String.length substring]. now rewrite IH.
Qed.

(** A key that starts with the prefix is the prefix followed by what
    [replace] leaves of it. *)
Lemma prefix_split p : forall k,
  String.prefix p k = true -> k = p ++ without_prefix p k.
Proof.
  unfold without_prefix. induction p as [|a p IH]; intros k Hk.
  - change ("" ++ substring (String.length "") (String.length k - String.length "") k)
      with (substring 0 (String.length k - 0) k).
    now rewrite Nat.sub_0_r, substring_all.
  - destruct k as [|b k]; [discriminate|]. cbn [String.prefix] in Hk.
    destruct (ascii_dec a b) as [->|]; [|discriminate].
    change (String b p ++ ?x) with (String b (p ++ x)).
    cbn [String.length substring Nat.sub]. f_equal. now apply IH.
Qed.

Lemma without_prefix_append p k : without_prefix p (p ++ k) = k.
Proof.
  apply (append_inj_l p). symmetry. apply prefix_split.
  apply ValidateScriptFacts.prefix_append.
Qed.

(** [upsert], seen through the value each key has. *)
Lemma find_key_upsert setting table k :
  find_key k (upsert setting table)
    = if String.eqb (key setting) k then Some (value setting) else find_key k table.
Proof.
  induction table as [|row rest IH]; cbn [upsert find_key].
  - reflexivity.
  - destruct (String.eqb_spec (key row) (key setting)) as [He|Hne]; cbn [find_key].
    + rewrite He. now destruct (String.eqb (key setting) k).
    + rewrite IH. destruct (String.eqb_spec (key row) k) as [Hk|_]; [|reflexivity].
      destruct (String.eqb_spec (key setting) k); [congruence | reflexivity].
Qed.

Lemma keys_upsert setting table x :
  In x (map key (upsert setting table)) -> x = key setting \/ In x (map key table).
Proof.
  induction table as [|row rest IH]; cbn [upsert map In].
  - intros [<- | []]. now left.
  - destruct (String.eqb_spec (key row) (key setting)) as [He|Hne]; cbn [map In].
    + intros [<- | H]; auto.
    + intros [<- | H]; auto. destruct (IH H); auto.
Qed.

Lemma upsert_unique setting table :
  NoDup (map key table) -> NoDup (map key (upsert setting table)).
Proof.
  induction table as [|row rest IH]; cbn [upsert map]; intros Hnd.
  - apply NoDup_singleton.
  - apply NoDup_cons in Hnd as [Hnotin Hnd].
    destruct (String.eqb_spec (key row) (key setting)) as [He|Hne]; cbn [map].
    + apply NoDup_cons. split; [now rewrite <- He | exact Hnd].
    + apply NoDup_cons. split; [|now apply IH].
      intros Hin%list_elem_of_In. apply keys_upsert in Hin as [Hk | Hin].
      * contradiction.
      * apply Hnotin. now apply list_elem_of_In.
Qed.

Lemma find_key_unique table row :
  NoDup (map key table) -> In row table -> find_key (key row) table = Some (value row).
Proof.
  induction table as [|r rest IH]; [intros _ []|].
  cbn [map find_key]. intros [Hnotin Hnd]%NoDup_cons [-> | Hin].
  - now rewrite String.eqb_refl.
  - destruct (String.eqb_spec (key r) (key row)) as [He|_]; [|now apply IH].
    exfalso. apply Hnotin. rewrite He. apply list_elem_of_In. now apply in_map.
Qed.

(** The table after the loop over [settingsToUpsert]. *)
Lemma saved_unique prefix entries : forall table,
  NoDup (map key table) ->
  NoDup (map key (foldl (fun t setting => upsert setting t) table
                    (settingsToUpsert prefix entries))).
Proof.
  induction entries as [|[k v] entries IH]; intros table Hnd; [exact Hnd|].
  cbn [settingsToUpsert map foldl]. apply IH. now apply upsert_unique.
Qed.

Lemma saved_untouched prefix entries k : forall table,
  ~ In k (map fst entries) ->
  find_key (prefix ++ k)
    (foldl (fun t setting => upsert setting t) table (settingsToUpsert prefix entries))
    = find_key (prefix ++ k) table.
Proof.
  induction entries as [|[k' v'] entries IH]; intros table Hnotin; [reflexivity|].
  cbn [settingsToUpsert map foldl]. cbn [map fst In] in Hnotin.
  fold (settingsToUpsert prefix entries).
  rewrite IH by tauto. rewrite find_key_upsert. cbn [key value].
  destruct (String.eqb_spec (prefix ++ k') (prefix ++ k)) as [He|_]; [|reflexivity].
  apply append_inj_l in He. tauto.
Qed.

Lemma saved_value prefix entries k v : forall table,
  NoDup (map fst entries) -> In (k, v) entries ->
  find_key (prefix ++ k)
    (foldl (fun t setting => upsert setting t) table (settingsToUpsert prefix entries))
    = Some (stringify v).
Proof.
  induction entries as [|[k' v'] entries IH]; intros table Hnd Hin; [destruct Hin|].
  cbn [map fst] in Hnd. apply NoDup_cons in Hnd as [Hnotin Hnd].
  cbn [settingsToUpsert map foldl]. fold (settingsToUpsert prefix entries).
  destruct Hin as [[= -> ->] | Hin].
  - rewrite saved_untouched.
    + rewrite find_key_upsert. cbn [key value]. now rewrite String.eqb_refl.
    + intros H. apply Hnotin. now apply list_elem_of_In.
  - now apply IH.
Qed.

Section WithParser.

Context (JSON_parse : string -> option JSON)
  (queue_created : bool) (addJob : nat -> Added -> bool) (workers_started : bool).

#[local] Abbreviation collect := (ScheduledJobs.collect JSON_parse).
#[local] Abbreviation loadJobSettings := (ScheduledJobs.loadJobSettings JSON_parse).
#[local] Abbreviation initializeBullMQJobs :=
  (ScheduledJobs.initializeBullMQJobs JSON_parse queue_created addJob workers_started).

(** The [reduce] over rows of which those for the member [k] all parse
    to [v]: once such a row was read, [k] is an own member with the value
    [v]. *)
Lemma reduce_member prefix k v rows : forall acc,
  k <> "__proto__" ->
  (forall row, In row rows -> without_prefix prefix (key row) = k ->
     JSON_parse (value row) = Some v) ->
  first_member k (members acc) = Some v
  \/ (exists row, In row rows /\ without_prefix prefix (key row) = k) ->
  first_member k (members (foldl (collect prefix) acc rows)) = Some v.
Proof.
  induction rows as [|row rows IH]; intros acc Hk Hall Hsome; cbn [foldl].
  - destruct Hsome as [H | (row & [] & _)]. exact H.
  - apply IH; [exact Hk | intros r Hr; apply Hall; now right |].
    destruct (String.eqb_spec (without_prefix prefix (key row)) k) as [He|Hne].
    + left. unfold ScheduledJobs.collect, assign.
      rewrite (Hall row (or_introl eq_refl) He), He.
      destruct (String.eqb_spec k "__proto__"); [contradiction|].
      cbn [members first_member]. now rewrite String.eqb_refl.
    + destruct Hsome as [Hacc | (r & [<- | Hr] & Hw)]; [|contradiction|right; eauto].
      left. unfold ScheduledJobs.collect, assign.
      destruct (String.eqb (without_prefix prefix (key row)) "__proto__").
      * destruct (JSON_parse (value row)) as [[]|]; exact Hacc.
      * destruct (JSON_parse (value row)); cbn [members first_member];
          (destruct (String.eqb_spec (without_prefix prefix (key row)) k);
             [contradiction | exact Hacc]).
Qed.

(** What [loadJobSettings] reads of a member that one row holds. *)
Lemma loaded_member job table k v :
  k <> "__proto__" ->
  NoDup (map key table) ->
  find_key ((job ++ "_") ++ k) table = Some (stringify v) ->
  JSON_parse (stringify v) = Some v ->
  get (foldl (collect (job ++ "_")) {| members := []; proto := ObjectPrototype |}
         (List.filter (fun setting => String.prefix (job ++ "_") (key setting)) table)) k
    = Some v.
Proof.
  intros Hk Hnd Hfind Hparse. unfold get.
  rewrite (reduce_member (job ++ "_") k v); [reflexivity | exact Hk | |].
  - intros row [Hin Hp]%filter_In Hw.
    pose proof (prefix_split _ _ Hp) as Hkey. rewrite Hw in Hkey.
    pose proof (find_key_unique table row Hnd Hin) as Hrow.
    rewrite Hkey, Hfind in Hrow. injection Hrow as <-. exact Hparse.
  - right.
    assert (Hrow : exists row, In row table /\ key row = (job ++ "_") ++ k).
    { clear Hnd. induction table as [|r rest IH]; [discriminate|].
      cbn [find_key] in Hfind.
      destruct (String.eqb_spec (key r) ((job ++ "_") ++ k)) as [He|_].
      - exists r. split; [now left | exact He].
      - destruct (IH Hfind) as (row & Hin & He). exists row. split; [now right | exact He]. }
    destruct Hrow as (row & Hin & He). exists row. split.
    + apply filter_In. split; [exact Hin|]. rewrite He.
      apply ValidateScriptFacts.prefix_append.
    + rewrite He. apply without_prefix_append.
Qed.

Lemma POST_saves job entries table :
  job <> "" ->
  POST None true (save job entries) table
    = ({| status := 200; body := JObj [("success", JBool true)] |},
       foldl (fun t setting => upsert setting t) table
         (settingsToUpsert (job ++ "_") entries)).
Proof.
  intros Hjob. unfold POST, save. cbn [negb settings jobName truthy default from_option id].
  destruct (String.eqb_spec job ""); [contradiction | reflexivity].
Qed.

(** X28: what the settings route saves is what [loadJobSettings] loads.
    After an accepted POST of the settings of a job, on a table with one
    row per key, the members [enabled] and [interval] that were sent are
    read back with the values that were sent, for every value that
    [JSON.parse] reads back from its [JSON.stringify]; rows saved before,
    for this job or another, do not change that. *)
Theorem saved_settings_are_loaded job entries table k v :
  job <> "" ->
  NoDup (map key table) ->
  NoDup (map fst entries) ->
  In (k, v) entries ->
  JSON_parse (stringify v) = Some v ->
  status (fst (POST None true (save job entries) table)) = 200%nat
  /\ (k = "enabled" ->
      enabled (loadJobSettings job (snd (POST None true (save job entries) table)))
        = Some v)
  /\ (k = "interval" ->
      interval (loadJobSettings job (snd (POST None true (save job entries) table)))
        = Some v).
Proof.
  intros Hjob Hnd Hent Hin Hparse. rewrite (POST_saves job entries table Hjob).
  cbn [fst snd status]. split; [reflexivity|].
  pose proof (saved_unique (job ++ "_") entries table Hnd) as Hnd'.
  pose proof (saved_value (job ++ "_") entries k v table Hent Hin) as Hfind.
  unfold ScheduledJobs.loadJobSettings. cbn [enabled interval].
  split; intros ->; apply loaded_member; (discriminate || assumption).
Qed.

(** X29: a job switched on through the settings route is scheduled. After
    an accepted POST that sends [enabled: true] for one of the configured
    jobs, [initializeBullMQJobs] with REDIS_URL set, on a queue layer that
    creates the queue and accepts every job handed to it, adds that job,
    with the priority of its configuration, whatever rows the table held
    before. Without that premise a rejected job ends the loop before the
    later ones. *)
Theorem saved_switch_schedules_the_job REDIS_URL config entries table :
  truthy REDIS_URL = true ->
  queue_created = true ->
  (forall n job, addJob n job = true) ->
  In config jobConfigs ->
  NoDup (map key table) ->
  NoDup (map fst entries) ->
  In ("enabled", JBool true) entries ->
  JSON_parse "true" = Some (JBool true) ->
  exists a,
    In a (snd (initializeBullMQJobs REDIS_URL
                 (snd (POST None true (save (name config) entries) table))))
    /\ added_name a = name config
    /\ added_priority a = priority config.
Proof.
  intros Henv Hcreated Haccept Hc Hnd Hent Hin Hparse.
  assert (Hjob : name config <> "").
  { unfold jobConfigs in Hc. cbn [In] in Hc.
    repeat (destruct Hc as [<- | Hc]; [discriminate|]). destruct Hc. }
  rewrite (POST_saves (name config) entries table Hjob). cbn [snd].
  pose proof (saved_unique (name config ++ "_") entries table Hnd) as Hnd'.
  pose proof (saved_value (name config ++ "_") entries "enabled" (JBool true) table
                Hent Hin) as Hfind.
  pose proof (loaded_member (name config) _ "enabled" (JBool true)
                ltac:(discriminate) Hnd' Hfind Hparse) as Hget.
  unfold ScheduledJobs.initializeBullMQJobs. rewrite Henv, Hcreated. cbn [negb].
  rewrite (ScheduledJobsFacts.schedule_all_accepted JSON_parse addJob _ jobConfigs []
             Haccept).
  cbn [snd app]. eexists. split.
  - apply in_flat_map. exists config. split; [exact Hc|].
    unfold ScheduledJobs.schedule_job, ScheduledJobs.loadJobSettings. cbn [enabled interval].
    rewrite Hget. left. reflexivity.
  - split; reflexivity.
Qed.

End WithParser.

Lemma saved_settings_witness :
  enabled (ScheduledJobs.loadJobSettings parse_switch "reply-to-tweets"
             (snd (POST None true (save "reply-to-tweets" reply_switch) old_settings)))
    = Some (JBool true).
Proof.
  destruct (saved_settings_are_loaded parse_switch "reply-to-tweets" reply_switch
              old_settings "enabled" (JBool true)) as (_ & He & _).
  - discriminate.
  - cbn. repeat (apply NoDup_cons; split; [set_solver|]). apply NoDup_nil_2.
  - cbn. repeat (apply NoDup_cons; split; [set_solver|]). apply NoDup_nil_2.
  - cbn. auto.
  - reflexivity.
  - now apply He.
Defined.

Lemma saved_switch_witness :
  exists a,
    In a (snd (ScheduledJobs.initializeBullMQJobs parse_switch true accepting true
                 (Some "redis://localhost:6379")
                 (snd (POST None true (save "reply-to-tweets" reply_switch) old_settings))))
    /\ added_name a = "reply-to-tweets"
    /\ added_priority a = 1%Z.
Proof.
  apply (saved_switch_schedules_the_job parse_switch true accepting true
           (Some "redis://localhost:6379")
           {| name := "reply-to-tweets"; defaultSchedule := "0 */2 * * *"; priority := 1 |}
           reply_switch old_settings).
  - reflexivity.
  - reflexivity.
  - reflexivity.
  - cbn. auto.
  - cbn. repeat (apply NoDup_cons; split; [set_solver|]). apply NoDup_nil_2.
  - cbn. repeat (apply NoDup_cons; split; [set_solver|]). apply NoDup_nil_2.
  - cbn. auto.
  - reflexivity.
Defined.

End AutomationSettingsFacts.
